(** * Pose error metrics (utils/pose_error.py): a shallow embedding

    The Python module computes error metrics between an estimated and a
    ground-truth 6D pose with NumPy.  Two number models are used below.

    - [compute_auc_posecnn] only adds, subtracts, multiplies, divides and
      compares, so its floats are modelled as rationals extended with
      the IEEE special values ([Fin q], [PInf], [NInf], [NaN]); the
      embedding is executable.  It is given twice: with exact operations
      ([Auc]), and with every operation rounded to binary64 ([Auc64]),
      where the last digit of a score matters.
    - The geometric metrics need square roots and arccos, so their arrays
      hold real numbers; the NaN that NumPy produces for an arccos outside
      its domain, or for the mean of an empty array, is an explicit
      constructor of the result type.

    Apart from [Auc64] finite numbers are exact: rounding is not
    modelled.
    Python exceptions are values of an error type.  In [reproj] the
    perspective division can give an infinity or NaN; the two are kept
    as one non-finite value, and the float32 narrowing of its pixel
    arrays is not modelled. *)

From Stdlib Require Import List Bool Arith ZArith QArith Qminmax Qabs Qpower.
From Stdlib Require Import Qround.
From Stdlib Require Import Lia Sorted.
From Stdlib Require Import Reals Psatz.
Import ListNotations.

Fixpoint map2 {A B C : Type} (f : A -> B -> C) (l1 : list A) (l2 : list B)
  : list C :=
  match l1, l2 with
  | x :: l1', y :: l2' => f x y :: map2 f l1' l2'
  | _, _ => []
  end.

(** ** The accuracy-curve summarizer *)

Module Auc.

Local Open Scope Q_scope.

(** A NumPy float: an exact rational or an IEEE special value. *)
Inductive float : Type :=
| Fin (q : Q)
| PInf
| NInf
| NaN.

Definition isfinite (x : float) : bool :=
  match x with Fin _ => true | _ => false end.

Definition Qltb (a b : Q) : bool := negb (Qle_bool b a).

(** [x > y]; every comparison with NaN is false. *)
Definition fgtb (x y : float) : bool :=
  match x, y with
  | NaN, _ | _, NaN => false
  | PInf, PInf => false
  | PInf, _ => true
  | _, PInf => false
  | NInf, _ => false
  | Fin _, NInf => true
  | Fin a, Fin b => Qltb b a
  end.

(** [x != y]; NaN differs from everything, itself included. *)
Definition fneqb (x y : float) : bool :=
  match x, y with
  | NaN, _ | _, NaN => true
  | PInf, PInf => false
  | NInf, NInf => false
  | Fin a, Fin b => negb (Qeq_bool a b)
  | _, _ => true
  end.

Definition fneg (x : float) : float :=
  match x with
  | Fin a => Fin (- a)
  | PInf => NInf
  | NInf => PInf
  | NaN => NaN
  end.

Definition fadd (x y : float) : float :=
  match x, y with
  | NaN, _ | _, NaN => NaN
  | PInf, NInf | NInf, PInf => NaN
  | PInf, _ | _, PInf => PInf
  | NInf, _ | _, NInf => NInf
  | Fin a, Fin b => Fin (a + b)
  end.

Definition fsub (x y : float) : float := fadd x (fneg y).

(** An infinity times a finite number: the sign decides, zero gives NaN. *)
Definition inf_times (pos : bool) (a : Q) : float :=
  if Qeq_bool a 0 then NaN
  else if Qltb 0 a then (if pos then PInf else NInf)
  else (if pos then NInf else PInf).

Definition fmul (x y : float) : float :=
  match x, y with
  | NaN, _ | _, NaN => NaN
  | Fin a, Fin b => Fin (a * b)
  | PInf, PInf | NInf, NInf => PInf
  | PInf, NInf | NInf, PInf => NInf
  | PInf, Fin a | Fin a, PInf => inf_times true a
  | NInf, Fin a | Fin a, NInf => inf_times false a
  end.

Definition fdiv (x y : float) : float :=
  match x, y with
  | NaN, _ | _, NaN => NaN
  | Fin a, Fin b =>
      if Qeq_bool b 0 then
        (if Qeq_bool a 0 then NaN else if Qltb 0 a then PInf else NInf)
      else Fin (a / b)
  | Fin _, _ => Fin 0
  | PInf, Fin b => if Qltb b 0 then NInf else PInf
  | NInf, Fin b => if Qltb b 0 then PInf else NInf
  | _, _ => NaN
  end.

(** Python's builtin [max(a, b)]: [b] when [b > a], otherwise [a]. *)
Definition py_max (a b : float) : float := if fgtb b a then b else a.

(** *** The array operations used by the function *)

(** The order [np.sort] sorts by: ascending, NaN last. *)
Definition sort_leb (x y : float) : bool :=
  match x, y with
  | _, NaN => true
  | NaN, _ => false
  | _, _ => negb (fgtb x y)
  end.

Fixpoint insert_sorted (x : float) (l : list float) : list float :=
  match l with
  | [] => [x]
  | y :: l' => if sort_leb x y then x :: l else y :: insert_sorted x l'
  end.

Definition np_sort (l : list float) : list float :=
  fold_right insert_sorted [] l.

Definition np_ones (n : nat) : list float := repeat (Fin 1) n.

Fixpoint cumsum_from (acc : float) (l : list float) : list float :=
  match l with
  | [] => []
  | x :: l' => let s := fadd acc x in s :: cumsum_from s l'
  end.

Definition np_cumsum (l : list float) : list float :=
  match l with
  | [] => []
  | x :: l' => x :: cumsum_from x l'
  end.

Definition of_nat (n : nat) : float := Fin (inject_Z (Z.of_nat n)).

(** [a[mask]]: the entries of [a] where the boolean mask holds. *)
Fixpoint mask_select {A : Type} (a : list A) (mask : list bool) : list A :=
  match a, mask with
  | x :: a', b :: mask' =>
      if b then x :: mask_select a' mask' else mask_select a' mask'
  | _, _ => []
  end.

Definition count_true (mask : list bool) : nat :=
  length (filter (fun b => b) mask).

(** [np.where(mask)[0]]: the positions where the mask holds. *)
Fixpoint where_from (i : nat) (mask : list bool) : list nat :=
  match mask with
  | [] => []
  | b :: mask' =>
      if b then i :: where_from (S i) mask' else where_from (S i) mask'
  end.

Definition np_where (mask : list bool) : list nat := where_from 0 mask.

(** [a[ids]] for an index array; the indices used below are in range. *)
Definition take (a : list float) (ids : list nat) : list float :=
  map (fun i => nth i a NaN) ids.

Fixpoint set_nth (i : nat) (x : float) (l : list float) : list float :=
  match l, i with
  | [], _ => []
  | _ :: l', O => x :: l'
  | y :: l', S i' => y :: set_nth i' x l'
  end.

Definition np_sum (l : list float) : float := fold_left fadd l (Fin 0).

Definition cutoff : float := Fin (1 # 10).

(** The loop [for i in arange(1, len(mpre)): mpre[i] = max(mpre[i], mpre[i-1])]. *)
Definition running_max_loop (mpre : list float) : list float :=
  fold_left
    (fun m i => set_nth i (py_max (nth i m NaN) (nth (i - 1) m NaN)) m)
    (seq 1 (length mpre - 1)) mpre.

(** [d[d > 0.1] = np.inf] *)
Definition clamp_cutoff (d : list float) : list float :=
  map (fun x => if fgtb x cutoff then PInf else x) d.

Definition compute_auc_posecnn (errors : list float) : float :=
  let d := np_sort errors in
  let d := clamp_cutoff d in
  let n := length d in
  let accuracy := map (fun x => fdiv x (of_nat n)) (np_cumsum (np_ones n)) in
  let ids := map isfinite d in
  let d := mask_select d ids in
  let accuracy := mask_select accuracy ids in
  if (length ids =? 0)%nat || (count_true ids =? 0)%nat then NaN
  else
    let rec := d in
    let prec := accuracy in
    let mrec := [Fin 0] ++ rec ++ [cutoff] in
    let mpre := [Fin 0] ++ prec ++ [last prec NaN] in
    let mpre := running_max_loop mpre in
    let ids :=
      map S (np_where (map2 fneqb (tl mrec) (removelast mrec))) in
    let ap :=
      fmul
        (np_sum (map2 fmul
                   (map2 fsub (take mrec ids) (take mrec (map pred ids)))
                   (take mpre ids)))
        (Fin 10) in
    ap.

(** *** Rational counterparts, used to reason about finite inputs *)

Fixpoint qinsert (x : Q) (l : list Q) : list Q :=
  match l with
  | [] => [x]
  | y :: l' => if Qle_bool x y then x :: l else y :: qinsert x l'
  end.

Definition qsort (l : list Q) : list Q := fold_right qinsert [] l.

(** The sorted errors that stay finite: the leading ones up to the cutoff. *)
Fixpoint below_cutoff (s : list Q) : list Q :=
  match s with
  | [] => []
  | q :: s' => if Qle_bool q (1 # 10) then q :: below_cutoff s' else []
  end.

(** [c+1, c+2, ..., c+m], as the running sum of ones produces them. *)
Fixpoint qcount (c : Q) (m : nat) : list Q :=
  match m with
  | O => []
  | S m' => (c + 1) :: qcount (c + 1) m'
  end.

(** The step-function integral: sum of [(rec_i - rec_{i-1}) * pre_i]. *)
Fixpoint step_terms (prev : Q) (rs ps : list Q) : list Q :=
  match rs, ps with
  | r :: rs', p :: ps' =>
      (if negb (Qeq_bool r prev) then [(r + - prev) * p] else [])
      ++ step_terms r rs' ps'
  | _, _ => []
  end.

Fixpoint step_sum (prev : Q) (rs ps : list Q) : Q :=
  match rs, ps with
  | r :: rs', p :: ps' => (r - prev) * p + step_sum r rs' ps'
  | _, _ => 0
  end.

Definition qsum (l : list Q) : Q := fold_right Qplus 0 l.

(** [dominates la lb]: [la] is at least as long as [lb] and is below it
    position by position. *)
Inductive dominates : list Q -> list Q -> Prop :=
| dominates_nil la : dominates la []
| dominates_cons a b la lb :
    a <= b -> dominates la lb -> dominates (a :: la) (b :: lb).

(** [x <= y] on floats; false when either is NaN. *)
Definition fleb (x y : float) : bool :=
  match x, y with
  | NaN, _ | _, NaN => false
  | NInf, _ => true
  | _, PInf => true
  | PInf, _ => false
  | _, NInf => false
  | Fin a, Fin b => Qle_bool a b
  end.

(** The array length as a rational. *)
Definition qn (n : nat) : Q := inject_Z (Z.of_nat n).

(** The terms [compute_auc_posecnn] sums on a finite array. *)
Definition finite_terms (A : list Q) : list Q :=
  let ds := below_cutoff (qsort A) in
  let P := map (fun c => c / qn (length A)) (1 :: qcount 1 (length ds - 1)) in
  step_terms 0 (ds ++ [1 # 10]) (P ++ [last P 0]).

End Auc.

(** ** The summarizer in float64 arithmetic *)

(** The same function with every arithmetic operation rounded to the
    nearest binary64 number, ties to even, as NumPy's float64 does.  A
    float64 is kept as the rational it stands for; signed zeros are not
    told apart.  The entries of the input array are float64 numbers
    already; comparisons, sorting and indexing are exact and shared with
    [Auc]. *)
Module Auc64.

Import Auc.

Local Open Scope Q_scope.

(** *** Rounding to binary64 *)

(** 53 significant bits; the last place of a number weighs at least
    [2^-1074], and numbers reach up to [2^1024] exclusive. *)
Definition prec : Z := 53.
Definition emin : Z := -1074.
Definition emax : Z := 1024.

(** [floor (log2 q)] for a positive [q]: the difference of the bit
    lengths of numerator and denominator, or one less. *)
Definition ilog2 (q : Q) : Z :=
  let l := (Z.log2 (Qnum q) - Z.log2 (Zpos (Qden q)))%Z in
  if Qle_bool (2 ^ l) q then l else (l - 1)%Z.

(** The integer nearest to [y], the even one on a tie. *)
Definition round_half_even (y : Q) : Z :=
  let k := Qfloor y in
  match Qcompare (y - inject_Z k) (1 # 2) with
  | Lt => k
  | Gt => (k + 1)%Z
  | Eq => if Z.even k then k else (k + 1)%Z
  end.

(** The exponent of the last place of the binary64 numbers around [q]. *)
Definition last_place (q : Q) : Z := Z.max (ilog2 (Qabs q) - (prec - 1)) emin.

(** The binary64 number nearest to [q]: [q] in units of its last place,
    rounded to an integer; an infinity when that reaches [2^1024]. *)
Definition round (q : Q) : float :=
  let q := Qred q in
  if Qeq_bool q 0 then Fin 0
  else
    let e := last_place q in
    let m := round_half_even (q * 2 ^ (- e)) in
    if (emax <=? Z.log2 (Z.abs m) + e)%Z && negb (m =? 0)%Z
    then (if (0 <? m)%Z then PInf else NInf)
    else Fin (Qred (inject_Z m * 2 ^ e)).

Definition f64 (x : float) : float :=
  match x with
  | Fin q => round q
  | _ => x
  end.

(** *** Rounded operations *)

Definition fadd64 (x y : float) : float := f64 (fadd x y).
Definition fsub64 (x y : float) : float := f64 (fsub x y).
Definition fmul64 (x y : float) : float := f64 (fmul x y).
Definition fdiv64 (x y : float) : float := f64 (fdiv x y).

Fixpoint cumsum_from (acc : float) (l : list float) : list float :=
  match l with
  | [] => []
  | x :: l' => let s := fadd64 acc x in s :: cumsum_from s l'
  end.

Definition np_cumsum (l : list float) : list float :=
  match l with
  | [] => []
  | x :: l' => x :: cumsum_from x l'
  end.

(** [a.sum()] on a float64 array adds pairwise: fewer than eight numbers
    from left to right; up to 128 numbers in eight interleaved running
    sums that are then added as a tree, the rest from left to right;
    longer arrays in two halves, the first a multiple of eight long. *)
Definition sum_block (a : list float) : float :=
  let n := length a in
  let r := firstn 8 a in
  let body := (n - n mod 8)%nat in
  let r :=
    fold_left (fun r i => map2 fadd64 r (firstn 8 (skipn (8 * i) a)))
      (seq 1 (body / 8 - 1)) r in
  let r_ i := nth i r NaN in
  let res :=
    fadd64 (fadd64 (fadd64 (r_ 0%nat) (r_ 1%nat)) (fadd64 (r_ 2%nat) (r_ 3%nat)))
           (fadd64 (fadd64 (r_ 4%nat) (r_ 5%nat)) (fadd64 (r_ 6%nat) (r_ 7%nat))) in
  fold_left fadd64 (skipn body a) res.

Fixpoint pairwise_sum (fuel : nat) (a : list float) : float :=
  let n := length a in
  if (n <? 8)%nat then fold_left fadd64 a (Fin 0)
  else if (n <=? 128)%nat then sum_block a
  else
    match fuel with
    | O => NaN
    | S fuel' =>
        let n2 := (n / 2 - (n / 2) mod 8)%nat in
        fadd64 (pairwise_sum fuel' (firstn n2 a))
               (pairwise_sum fuel' (skipn n2 a))
    end.

Definition np_sum (l : list float) : float := pairwise_sum (length l) l.

(** The constant [0.1] of the source: the float64 nearest to one tenth. *)
Definition cutoff : float := round (1 # 10).

Definition clamp_cutoff (d : list float) : list float :=
  map (fun x => if fgtb x cutoff then PInf else x) d.

Definition compute_auc_posecnn (errors : list float) : float :=
  let d := np_sort errors in
  let d := clamp_cutoff d in
  let n := length d in
  let accuracy :=
    map (fun x => fdiv64 x (f64 (of_nat n))) (np_cumsum (np_ones n)) in
  let ids := map isfinite d in
  let d := mask_select d ids in
  let accuracy := mask_select accuracy ids in
  if (length ids =? 0)%nat || (count_true ids =? 0)%nat then NaN
  else
    let rec := d in
    let prec := accuracy in
    let mrec := [Fin 0] ++ rec ++ [cutoff] in
    let mpre := [Fin 0] ++ prec ++ [last prec NaN] in
    let mpre := running_max_loop mpre in
    let ids :=
      map S (np_where (map2 fneqb (tl mrec) (removelast mrec))) in
    let ap :=
      fmul64
        (np_sum (map2 fmul64
                   (map2 fsub64 (take mrec ids) (take mrec (map pred ids)))
                   (take mpre ids)))
        (Fin 10) in
    ap.

(** The float64 nearest to a decimal literal, as the error arrays of the
    examples are written. *)
Definition lit (q : Q) : float := round q.

(** *** Notions used to state how far rounding can move the score *)

(** Half the weight of the last place of the numbers between 1 and 2:
    [2^-53]. *)
Definition unit_roundoff : Q := 1 # 9007199254740992.

(** The value of [cutoff], the float64 nearest to one tenth. *)
Definition cutoff_value : Q := 3602879701896397 # 36028797018963968.

Definition fin_value (x : float) : Q :=
  match x with
  | Fin q => q
  | _ => 0
  end.

(** The sorted errors that stay finite: the leading ones up to the cutoff. *)
Fixpoint below_cutoff (s : list Q) : list Q :=
  match s with
  | [] => []
  | q :: s' => if Qle_bool q cutoff_value then q :: below_cutoff s' else []
  end.

(** The rounded accuracy values [1/n, 2/n, ..., n/n]. *)
Definition accuracy_values (n : nat) : list Q :=
  map (fun k => fin_value (round (qn k / qn n))) (seq 1 n).

(** The running maximum the loop over [mpre] computes, started at [a]. *)
Fixpoint running_max (a : Q) (l : list Q) : list Q :=
  match l with
  | [] => []
  | x :: l' => let y := if Qltb x a then a else x in y :: running_max y l'
  end.

(** The rounded terms [(rec_i - rec_{i-1}) * pre_i] that are summed. *)
Fixpoint step_terms (prev : Q) (rs ps : list Q) : list float :=
  match rs, ps with
  | r :: rs', p :: ps' =>
      (if negb (Qeq_bool r prev)
       then [fmul64 (fsub64 (Fin r) (Fin prev)) (Fin p)] else [])
      ++ step_terms r rs' ps'
  | _, _ => []
  end.

(** The score of a finite array computed without rounding, against the
    same cutoff. *)
Definition exact_score (A : list Q) : Q :=
  let ds := below_cutoff (qsort A) in
  let P := map (fun c => c / qn (length A)) (1 :: qcount 1 (length ds - 1)) in
  step_sum 0 (ds ++ [cutoff_value]) (P ++ [last P 0]) * 10.

(** How far rounding can move the score of an array of [n] errors. *)
Definition tolerance (n : nat) : Q := (60 * qn n + 61) * unit_roundoff.

(** [near k s x]: the float [x] is a non-negative number within [k]
    roundoffs of [s]. *)
Definition near (k : nat) (s : Q) (x : float) : Prop :=
  exists v, x = Fin v /\ 0 <= v /\
            s - qn k * unit_roundoff <= v /\
            v <= s + qn k * unit_roundoff.

(** [close m i]: the non-negative [m] is within one roundoff of the
    fraction [i]. *)
Definition close (m i : Q) : Prop :=
  0 <= i /\ i <= 1 /\ 0 <= m /\
  i - unit_roundoff <= m /\ m <= i + unit_roundoff.

End Auc64.

(** ** A model of the NumPy arrays the geometric metrics use *)

Module Np.

Local Open Scope nat_scope.

(** Python exceptions the functions can raise. *)
Inductive exn : Type :=
| AssertionError
| IndexError
| ValueError
| AxisError
| LinAlgError.

Inductive result (A : Type) : Type :=
| Ok (a : A)
| Raise (e : exn).
Arguments Ok {A} a.
Arguments Raise {A} e.

Definition bind {A B : Type} (r : result A) (k : A -> result B) : result B :=
  match r with
  | Ok a => k a
  | Raise e => Raise e
  end.

Notation "x <- r ;; k" := (bind r (fun x => k))
  (at level 61, r at next level, right associativity).

Definition py_assert (b : bool) : result unit :=
  if b then Ok tt else Raise AssertionError.

(** An n-dimensional array: its shape and its elements in row-major order. *)
Record ndarray (A : Type) : Type := mkarr {
  shape : list nat;
  data : list A
}.
Arguments mkarr {A} shape data.
Arguments shape {A} n.
Arguments data {A} n.

Definition prod (s : list nat) : nat := fold_right Nat.mul 1%nat s.

Definition size {A} (a : ndarray A) : nat := prod (shape a).
Definition ndim {A} (a : ndarray A) : nat := length (shape a).

(** The element list has one entry per index. *)
Definition wf {A} (a : ndarray A) : Prop := length (data a) = size a.

(** Row-major offset of a multi-index, and the multi-index of an offset. *)
Fixpoint ravel (s idx : list nat) : nat :=
  match s, idx with
  | _ :: s', i :: idx' => i * prod s' + ravel s' idx'
  | _, _ => 0
  end.

Fixpoint unravel (s : list nat) (k : nat) : list nat :=
  match s with
  | [] => []
  | _ :: s' => (k / prod s') :: unravel s' (k mod prod s')
  end.

(** A multi-index within the bounds of a shape. *)
Definition valid_index (idx s : list nat) : Prop := Forall2 lt idx s.

Definition at_index {A} (dflt : A) (s : list nat) (d : list A)
  (idx : list nat) : A :=
  nth (ravel s idx) d dflt.

Definition tabulate {A} (s : list nat) (f : list nat -> A) : ndarray A :=
  mkarr s (map (fun k => f (unravel s k)) (seq 0 (prod s))).

Definition np_map {A B} (f : A -> B) (a : ndarray A) : ndarray B :=
  mkarr (shape a) (map f (data a)).

(** [a.shape[i]] and [a.shape[-k]] (for [k >= 1]) on the shape tuple. *)
Definition shape_at {A} (a : ndarray A) (i : nat) : result nat :=
  match nth_error (shape a) i with
  | Some d => Ok d
  | None => Raise IndexError
  end.

Definition shape_from_end {A} (a : ndarray A) (k : nat) : result nat :=
  if (k <=? ndim a)%nat then Ok (nth (ndim a - k) (shape a) 0%nat)
  else Raise IndexError.

(** [a.shape[-2::]]; slicing never raises. *)
Definition shape_last2 {A} (a : ndarray A) : list nat :=
  skipn (ndim a - 2) (shape a).

(** [a.reshape(dims)]; [None] stands for the placeholder [-1]. *)
Definition np_reshape {A} (a : ndarray A) (dims : list (option nat))
  : result (ndarray A) :=
  let known := fold_right (fun d p => match d with Some n => n * p | None => p end)%nat
                          1%nat dims in
  let holes := length (filter (fun d => match d with None => true | _ => false end)
                              dims) in
  match holes with
  | O =>
      if (known =? size a)%nat
      then Ok (mkarr (map (fun d => match d with Some n => n | None => 0%nat end) dims)
                     (data a))
      else Raise ValueError
  | S O =>
      if negb (known =? 0)%nat && (size a mod known =? 0)%nat
      then Ok (mkarr (map (fun d => match d with
                                    | Some n => n
                                    | None => (size a / known)%nat
                                    end) dims)
                     (data a))
      else Raise ValueError
  | _ => Raise ValueError
  end.

(** *** Broadcasting *)

(** Shapes are aligned at their last dimension; a dimension of size 1
    stretches to the other one. *)
Fixpoint broadcast_rev (r1 r2 : list nat) : option (list nat) :=
  match r1, r2 with
  | [], r => Some r
  | r, [] => Some r
  | d1 :: r1', d2 :: r2' =>
      match broadcast_rev r1' r2' with
      | None => None
      | Some r =>
          if (d1 =? d2)%nat then Some (d1 :: r)
          else if (d1 =? 1)%nat then Some (d2 :: r)
          else if (d2 =? 1)%nat then Some (d1 :: r)
          else None
      end
  end.

Definition broadcast_shapes (s1 s2 : list nat) : option (list nat) :=
  option_map (@rev nat) (broadcast_rev (rev s1) (rev s2)).

(** The index into an operand of shape [s] for the output index [idx]. *)
Definition bindex (s idx : list nat) : list nat :=
  map2 (fun d i => if (d =? 1)%nat then 0%nat else i)
       s (skipn (length idx - length s) idx).

Local Open Scope R_scope.

Definition get (a : ndarray R) (idx : list nat) : R :=
  at_index 0 (shape a) (data a) idx.

Definition broadcast2 (f : R -> R -> R) (a b : ndarray R)
  : result (ndarray R) :=
  match broadcast_shapes (shape a) (shape b) with
  | Some s =>
      Ok (tabulate s (fun idx =>
            f (get a (bindex (shape a) idx)) (get b (bindex (shape b) idx))))
  | None => Raise ValueError
  end.

Definition np_add := broadcast2 Rplus.
Definition np_sub := broadcast2 Rminus.
Definition np_mul := broadcast2 Rmult.

(** *** Linear algebra *)

Definition Rsum (l : list R) : R := fold_right Rplus 0 l.

Definition Rsum_upto (n : nat) (f : nat -> R) : R := Rsum (map f (seq 0 n)).

(** [a.T]: all axes reversed. *)
Definition np_T (a : ndarray R) : ndarray R :=
  tabulate (rev (shape a)) (fun idx => get a (rev idx)).

(** Splits a shape into its batch dimensions and its last two. *)
Definition split_last2 (s : list nat) : option (list nat * nat * nat) :=
  match rev s with
  | c :: r :: b => Some (rev b, r, c)
  | _ => None
  end.

(** [a @ b].  A 1-D operand is promoted to a matrix and the added
    dimension is dropped from the result; the batch dimensions broadcast. *)
Definition np_matmul (a b : ndarray R) : result (ndarray R) :=
  match shape a, shape b with
  | [], _ | _, [] => Raise ValueError
  | _, _ =>
      let sa := if (ndim a =? 1)%nat then 1%nat :: shape a else shape a in
      let sb := if (ndim b =? 1)%nat then shape b ++ [1%nat] else shape b in
      match split_last2 sa, split_last2 sb with
      | Some (ba, r, k), Some (bb, k', c) =>
          if (k =? k')%nat then
            match broadcast_shapes ba bb with
            | Some bs =>
                let full :=
                  tabulate (bs ++ [r; c]) (fun idx =>
                    let bi := firstn (length bs) idx in
                    let i := nth (length bs) idx 0%nat in
                    let j := nth (S (length bs)) idx 0%nat in
                    Rsum_upto k (fun l =>
                      at_index 0 sa (data a) (bindex ba bi ++ [i; l])
                      * at_index 0 sb (data b) (bindex bb bi ++ [l; j]))) in
                Ok (mkarr (bs ++ (if (ndim a =? 1)%nat then [] else [r])
                              ++ (if (ndim b =? 1)%nat then [] else [c]))
                          (data full))
            | None => Raise ValueError
            end
          else Raise ValueError
      | _, _ => Raise ValueError
      end
  end.

(** [a.sum(axis)] *)
Definition np_sum_axis (axis : nat) (a : ndarray R) : result (ndarray R) :=
  if (axis <? ndim a)%nat then
    let s := shape a in
    Ok (tabulate (firstn axis s ++ skipn (S axis) s) (fun idx =>
          Rsum_upto (nth axis s 0%nat) (fun j =>
            get a (firstn axis idx ++ j :: skipn axis idx))))
  else Raise AxisError.

(** A float result that may be NaN. *)
Inductive fval : Type :=
| Num (r : R)
| NaN.

Definition getv (a : ndarray fval) (idx : list nat) : fval :=
  at_index NaN (shape a) (data a) idx.

(** [a.mean(axis)]: the sum over the axis divided by its length; over an
    axis of length 0 NumPy computes 0/0, which is NaN. *)
Definition np_mean_axis (axis : nat) (a : ndarray R) : result (ndarray fval) :=
  s <- np_sum_axis axis a ;;
  let n := nth axis (shape a) 0%nat in
  Ok (np_map (fun x => if (n =? 0)%nat then NaN else Num (x / INR n)) s).

(** [a.mean()] over all elements. *)
Definition np_mean (a : ndarray R) : fval :=
  if (size a =? 0)%nat then NaN else Num (Rsum (data a) / INR (size a)).

(** [np.trace(a, axis1=1, axis2=2)] *)
Definition np_trace12 (a : ndarray R) : result (ndarray R) :=
  match shape a with
  | n :: r :: c :: rest =>
      Ok (tabulate (n :: rest) (fun idx =>
            Rsum_upto (Nat.min r c) (fun i =>
              get a (hd 0%nat idx :: i :: i :: tl idx))))
  | _ => Raise AxisError
  end.

Definition Reqb (x y : R) : bool := if Req_dec_T x y then true else false.

(** Entry [(i, j)] of the adjugate of the 3x3 matrix [m]. *)
Definition adj33 (m : nat -> nat -> R) (i j : nat) : R :=
  m ((j + 1) mod 3)%nat ((i + 1) mod 3)%nat * m ((j + 2) mod 3)%nat ((i + 2) mod 3)%nat
  - m ((j + 1) mod 3)%nat ((i + 2) mod 3)%nat * m ((j + 2) mod 3)%nat ((i + 1) mod 3)%nat.

Definition det33 (m : nat -> nat -> R) : R :=
  m 0%nat 0%nat * adj33 m 0%nat 0%nat
  + m 0%nat 1%nat * adj33 m 1%nat 0%nat
  + m 0%nat 2%nat * adj33 m 2%nat 0%nat.

(** [np.linalg.inv] on a stack of 3x3 matrices, the only shape that
    reaches it after [reshape(-1, 3, 3)]; a singular matrix in the stack
    raises [LinAlgError].  Singular is meant exactly, a zero determinant.
    NumPy raises when the elimination meets a pivot that is exactly
    zero, as it does on a row or a column of zeros; on other singular
    matrices rounding can leave a tiny pivot and a huge inverse instead,
    which the exact arithmetic of this model does not show. *)
Definition np_linalg_inv (a : ndarray R) : result (ndarray R) :=
  match shape a with
  | [n; 3%nat; 3%nat] =>
      let mat k := fun i j => get a [k; i; j] in
      if existsb (fun k => Reqb (det33 (mat k)) 0) (seq 0 n)
      then Raise LinAlgError
      else Ok (tabulate [n; 3%nat; 3%nat] (fun idx =>
                 let k := nth 0 idx 0%nat in
                 adj33 (mat k) (nth 1 idx 0%nat) (nth 2 idx 0%nat)
                 / det33 (mat k)))
  | _ => Raise LinAlgError
  end.

(** *** Element-wise functions *)

(** [np.clip(x, a_min, a_max)] is [minimum(a_max, maximum(x, a_min))]. *)
Definition np_clip (lo hi x : R) : R := Rmin hi (Rmax x lo).

(** [np.arccos]: NaN outside [[-1, 1]] (NumPy warns, it does not raise). *)
Definition np_arccos (x : R) : fval :=
  if Rle_dec (-1) x then
    if Rle_dec x 1 then Num (acos x) else NaN
  else NaN.

Definition np_degrees (v : fval) : fval :=
  match v with
  | Num r => Num (r * (180 / PI))
  | NaN => NaN
  end.

(** *** The nearest-neighbour query of [scipy.spatial.cKDTree] *)

(** [cKDTree(pts).query(x, k=1)[0]]: for every row of [x], the Euclidean
    distance to the nearest row of [pts].  For an empty tree SciPy reports
    infinite distances; [adi] queries as many points as the tree holds, so
    that case only occurs with no query points, and the stand-in [0] is
    never produced there. *)
Definition ckdtree_query (pts x : ndarray R) : result (ndarray R) :=
  match shape pts, shape x with
  | [n; m], [q; m'] =>
      if (m =? m')%nat then
        Ok (tabulate [q] (fun idx =>
              let i := hd 0%nat idx in
              let dist j :=
                sqrt (Rsum_upto m (fun c => (get x [i; c] - get pts [j; c]) ^ 2)) in
              match map dist (seq 0 n) with
              | [] => 0
              | d :: ds => fold_left Rmin ds d
              end))
      else Raise ValueError
  | _, _ => Raise ValueError
  end.

(** *** Values that may stop being finite *)

(** The result of a division may be an infinity or NaN.  Those are kept
    as one value, [NonFinite]: subtraction, squaring, addition, square
    root and division by a count all give an infinity or NaN again when
    an operand is one, so which of them it is never matters below. *)
Inductive efloat : Type :=
| Finite (r : R)
| NonFinite.

(** [a / b]: division by zero gives an infinity or NaN (NumPy warns, it
    does not raise). *)
Definition ediv (a b : R) : efloat :=
  if Req_dec_T b 0 then NonFinite else Finite (a / b).

Definition elift2 (f : R -> R -> R) (x y : efloat) : efloat :=
  match x, y with
  | Finite a, Finite b => Finite (f a b)
  | _, _ => NonFinite
  end.

Definition eadd := elift2 Rplus.
Definition esub := elift2 Rminus.
Definition emul := elift2 Rmult.

(** [np.sqrt]: NaN on a negative number. *)
Definition esqrt (x : efloat) : efloat :=
  match x with
  | Finite a => if Rlt_dec a 0 then NonFinite else Finite (sqrt a)
  | NonFinite => NonFinite
  end.

Definition esum (l : list efloat) : efloat := fold_right eadd (Finite 0) l.

Definition getx (a : ndarray efloat) (idx : list nat) : efloat :=
  at_index NonFinite (shape a) (data a) idx.

(** Element-wise operation with broadcasting, for any element types. *)
Definition broadcast2_with {A B C : Type} (da : A) (db : B) (f : A -> B -> C)
  (a : ndarray A) (b : ndarray B) : result (ndarray C) :=
  match broadcast_shapes (shape a) (shape b) with
  | Some s =>
      Ok (tabulate s (fun idx =>
            f (at_index da (shape a) (data a) (bindex (shape a) idx))
              (at_index db (shape b) (data b) (bindex (shape b) idx))))
  | None => Raise ValueError
  end.

Definition np_divide (a b : ndarray R) : result (ndarray efloat) :=
  broadcast2_with 0 0 ediv a b.

Definition np_esub (a b : ndarray efloat) : result (ndarray efloat) :=
  broadcast2_with NonFinite NonFinite esub a b.

(** [a[:, j]]: needs two dimensions and [j] within the second. *)
Definition np_take_axis1 (a : ndarray R) (j : nat) : result (ndarray R) :=
  match shape a with
  | d0 :: d1 :: rest =>
      if (j <? d1)%nat
      then Ok (tabulate (d0 :: rest) (fun idx =>
                 get a (hd 0%nat idx :: j :: tl idx)))
      else Raise IndexError
  | _ => Raise IndexError
  end.

Definition np_zeros (s : list nat) : ndarray efloat :=
  tabulate s (fun _ => Finite 0).

(** Whether a value of shape [s] can be assigned to a vector of length
    [n]: its last dimension is [n] or 1 and the dimensions before are 1
    (or it is a scalar). *)
Definition fits_vector (n : nat) (s : list nat) : bool :=
  match rev s with
  | [] => true
  | l :: lead =>
      ((l =? n) || (l =? 1))%nat && forallb (fun d => (d =? 1)%nat) lead
  end.

(** [a[:, c] = v] for the two-dimensional [a] that [reproj] allocates;
    the value is broadcast along the rows. *)
Definition np_set_column (a : ndarray efloat) (c : nat) (v : ndarray efloat)
  : result (ndarray efloat) :=
  match shape a with
  | [n; k] =>
      if (c <? k)%nat then
        if fits_vector n (shape v) then
          Ok (tabulate [n; k] (fun idx =>
                if (nth 1 idx 0%nat =? c)%nat
                then nth (if (last (shape v) 1%nat =? 1)%nat then 0%nat
                          else nth 0 idx 0%nat)
                         (data v) NonFinite
                else getx a idx))
        else Raise ValueError
      else Raise IndexError
  | _ => Raise IndexError
  end.

(** [np.linalg.norm(a, axis=1)]: the square root of the sum of squares
    along axis 1. *)
Definition np_norm_axis1 (a : ndarray efloat) : result (ndarray efloat) :=
  match shape a with
  | d0 :: d1 :: rest =>
      Ok (tabulate (d0 :: rest) (fun idx =>
            esqrt (esum (map (fun j =>
                               let x := getx a (hd 0%nat idx :: j :: tl idx) in
                               emul x x)
                             (seq 0 d1)))))
  | _ => Raise AxisError
  end.

(** [a.mean()]: over no element it is 0/0, NaN. *)
Definition np_emean (a : ndarray efloat) : efloat :=
  if (size a =? 0)%nat then NonFinite
  else elift2 Rdiv (esum (data a)) (Finite (INR (size a))).

End Np.

(** ** The pose error functions *)

Module PoseError.
Import Np.

Local Open Scope nat_scope.

(** Equality of shape tuples. *)
Fixpoint shape_eqb (s1 s2 : list nat) : bool :=
  match s1, s2 with
  | [], [] => true
  | d1 :: s1', d2 :: s2' => (d1 =? d2) && shape_eqb s1' s2'
  | _, _ => false
  end.

(** [transform_pts_Rt_batch(pts, R, t)]:
    [assert pts.shape[1] == 3; return R @ pts.T + t.reshape((-1, 3, 1))]. *)
Definition transform_pts_Rt_batch (pts Rot t : ndarray R)
  : result (ndarray R) :=
  d <- shape_at pts 1 ;;
  _ <- py_assert (d =? 3) ;;
  m <- np_matmul Rot (np_T pts) ;;
  t' <- np_reshape t [None; Some 3; Some 1] ;;
  np_add m t'.

(** [transform_pts_Rt(pts, R, t)]:
    [assert pts.shape[1] == 3; return (R @ pts.T + t.reshape((3, 1))).T]. *)
Definition transform_pts_Rt (pts Rot t : ndarray R) : result (ndarray R) :=
  d <- shape_at pts 1 ;;
  _ <- py_assert (d =? 3) ;;
  m <- np_matmul Rot (np_T pts) ;;
  t' <- np_reshape t [Some 3; Some 1] ;;
  pts_t <- np_add m t' ;;
  Ok (np_T pts_t).

(** [add]: the two assertions on [R_est.shape], the two batched
    transforms, then [np.sqrt(((pts_est - pts_gt)**2).sum(1)).mean(1)].
    The square root is only taken of sums of squares, where the real
    square root and [np.sqrt] agree. *)
Definition add (R_est t_est R_gt t_gt pts : ndarray R)
  : result (ndarray fval) :=
  d1 <- shape_from_end R_est 1 ;;
  _ <- py_assert (d1 =? 3) ;;
  d2 <- shape_from_end R_est 2 ;;
  _ <- py_assert (d2 =? 3) ;;
  pts_est <- transform_pts_Rt_batch pts R_est t_est ;;
  pts_gt <- transform_pts_Rt_batch pts R_gt t_gt ;;
  diff <- np_sub pts_est pts_gt ;;
  sq <- np_sum_axis 1 (np_map (fun x => (x ^ 2)%R) diff) ;;
  np_mean_axis 1 (np_map sqrt sq).

(** [adi]: both point sets transformed, a k-d tree over [pts_est] queried
    with [pts_gt], and the mean of the nearest-neighbour distances. *)
Definition adi (R_est t_est R_gt t_gt pts : ndarray R) : result fval :=
  pts_est <- transform_pts_Rt pts R_est t_est ;;
  pts_gt <- transform_pts_Rt pts R_gt t_gt ;;
  nn_dists <- ckdtree_query pts_est pts_gt ;;
  Ok (np_mean nn_dists).

(** [re]: [assert R_est.shape[-2::] == (3, 3)], then
    [(trace(R_est.reshape(-1,3,3) @ inv(R_gt.reshape(-1,3,3))) - 1.0) * 0.5],
    clipped to [-1, 1], through arccos, in degrees. *)
Definition re (R_est R_gt : ndarray R) : result (ndarray fval) :=
  _ <- py_assert (shape_eqb (shape_last2 R_est) [3; 3]) ;;
  a <- np_reshape R_est [None; Some 3; Some 3] ;;
  b <- np_reshape R_gt [None; Some 3; Some 3] ;;
  b_inv <- np_linalg_inv b ;;
  m <- np_matmul a b_inv ;;
  tr <- np_trace12 m ;;
  let error_cos := np_map (fun x => ((x - 1) * (5 / 10))%R) tr in
  let error_cos := np_map (np_clip (-1) 1) error_cos in
  Ok (np_map (fun x => np_degrees (np_arccos x)) error_cos).

(** [te]: [assert t_est.size == t_gt.size == 3], then
    [np.abs(t_gt - t_est).mean()]. *)
Definition te (t_est t_gt : ndarray R) : result fval :=
  _ <- py_assert ((size t_est =? size t_gt) && (size t_gt =? 3)) ;;
  d <- np_sub t_gt t_est ;;
  Ok (np_mean (np_map Rabs d)).

(** [quat_re]: [np.degrees(np.arccos((q1 * q2).sum(1)))]. *)
Definition quat_re (q1 q2 : ndarray R) : result (ndarray fval) :=
  inn_prod <- np_mul q1 q2 ;;
  s <- np_sum_axis 1 inn_prod ;;
  Ok (np_map (fun x => np_degrees (np_arccos x)) s).

(** [reproj]: both point sets transformed and projected through [K],
    the perspective division column by column into the [n x 2] arrays
    [est] and [gt], then [np.linalg.norm(est - gt, axis=1).mean()].  The
    arrays are allocated as float32; like all rounding, the narrowing is
    not modelled. *)
Definition reproj (K R_est t_est R_gt t_gt pts : ndarray R)
  : result efloat :=
  pts_est <- transform_pts_Rt pts R_est t_est ;;
  pts_gt <- transform_pts_Rt pts R_gt t_gt ;;
  pixels_est <- np_matmul K (np_T pts_est) ;;
  let pixels_est := np_T pixels_est in
  pixels_gt <- np_matmul K (np_T pts_gt) ;;
  let pixels_gt := np_T pixels_gt in
  n <- shape_at pts 0 ;;
  let est := np_zeros [n; 2] in
  x <- np_take_axis1 pixels_est 0 ;;
  z <- np_take_axis1 pixels_est 2 ;;
  q <- np_divide x z ;;
  est <- np_set_column est 0 q ;;
  y <- np_take_axis1 pixels_est 1 ;;
  z <- np_take_axis1 pixels_est 2 ;;
  q <- np_divide y z ;;
  est <- np_set_column est 1 q ;;
  let gt := np_zeros [n; 2] in
  x <- np_take_axis1 pixels_gt 0 ;;
  z <- np_take_axis1 pixels_gt 2 ;;
  q <- np_divide x z ;;
  gt <- np_set_column gt 0 q ;;
  y <- np_take_axis1 pixels_gt 1 ;;
  z <- np_take_axis1 pixels_gt 2 ;;
  q <- np_divide y z ;;
  gt <- np_set_column gt 1 q ;;
  d <- np_esub est gt ;;
  nrm <- np_norm_axis1 d ;;
  Ok (np_emean nrm).

(** *** Notions used to state the properties *)

Local Open Scope R_scope.

(** Entry [(i, j)] of a 3 x 3 array. *)
Definition mat33 (a : ndarray R) (i j : nat) : R := get a [i; j].

(** The cosine argument [(trace(R_est . inv(R_gt)) - 1) * 0.5] of a pair of
    3 x 3 matrices, written out. *)
Definition cos_arg (R_est R_gt : ndarray R) : R :=
  (Rsum_upto 3 (fun i =>
     Rsum_upto 3 (fun l =>
       mat33 R_est i l * (adj33 (mat33 R_gt) l i / det33 (mat33 R_gt))))
   - 1) * (5 / 10).

(** A valid rotation: a 3 x 3 array with orthonormal rows and
    determinant one. *)
Definition is_rotation (a : ndarray R) : Prop :=
  shape a = [3; 3]%nat /\
  (forall i j, (i < 3)%nat -> (j < 3)%nat ->
     Rsum_upto 3 (fun k => mat33 a i k * mat33 a j k)
     = if (i =? j)%nat then 1 else 0) /\
  det33 (mat33 a) = 1.

(** [a.flat[i]]: the [i]-th element in row-major order. *)
Definition flat (a : ndarray R) (i : nat) : R := nth i (data a) 0.

(** Coordinate [c] of [Rot . pts[m] + t], for a translation [t] of three
    elements in any shape (a 3-vector or a 3 x 1 column). *)
Definition posed (Rot t pts : ndarray R) (m c : nat) : R :=
  Rsum_upto 3 (fun k => get Rot [c; k] * get pts [m; k]) + flat t c.

(** A single pose as a batch of one. *)
Definition batch_of_one (a : ndarray R) : ndarray R :=
  mkarr (1%nat :: shape a) (data a).

(** Sample matrices: the identity and a quarter turn about the z axis. *)
Definition identity3 : list R := [1; 0; 0; 0; 1; 0; 0; 0; 1].

Definition quarter_turn_z : list R := [0; -1; 0; 1; 0; 0; 0; 0; 1].

(** [a[n]] for [n] within the first axis: the [n]-th slice of a stack. *)
Definition np_index0 (a : ndarray R) (n : nat) : ndarray R :=
  let s := tl (shape a) in
  mkarr s (firstn (prod s) (skipn (n * prod s) (data a))).

(** Coordinate [c] of [Rot[n] . pts[m] + t[n]] for pose [n] of a batch. *)
Definition posed_batch (Rot t pts : ndarray R) (n m c : nat) : R :=
  Rsum_upto 3 (fun k => get Rot [n; c; k] * get pts [m; k])
  + flat t (n * 3 + c).

(** A batch of two rotations. *)
Definition two_poses : list R := identity3 ++ quarter_turn_z.

(** Coordinate [c] of the homogeneous pixel [K . (Rot . pts[m] + t)]. *)
Definition projected (K Rot t pts : ndarray R) (m c : nat) : R :=
  Rsum_upto 3 (fun k => get K [c; k] * posed Rot t pts m k).

(** The pixel distance between the two projections of point [m]. *)
Definition pixel_distance (K R_est t_est R_gt t_gt pts : ndarray R) (m : nat)
  : R :=
  sqrt ((projected K R_est t_est pts m 0 / projected K R_est t_est pts m 2
         - projected K R_gt t_gt pts m 0 / projected K R_gt t_gt pts m 2) ^ 2
        + (projected K R_est t_est pts m 1 / projected K R_est t_est pts m 2
           - projected K R_gt t_gt pts m 1 / projected K R_gt t_gt pts m 2) ^ 2).

(** What [reproj] computes for point [m] before averaging. *)
Definition reproj_point (K R_est t_est R_gt t_gt pts : ndarray R) (m : nat)
  : efloat :=
  let pe := projected K R_est t_est pts m in
  let pg := projected K R_gt t_gt pts m in
  let dx := esub (ediv (pe 0%nat) (pe 2%nat)) (ediv (pg 0%nat) (pg 2%nat)) in
  let dy := esub (ediv (pe 1%nat) (pe 2%nat)) (ediv (pg 1%nat) (pg 2%nat)) in
  esqrt (esum [emul dx dx; emul dy dy]).

(** The zero translation. *)
Definition zero3 : list R := [0; 0; 0].

End PoseError.

(** ** Facts about the accuracy-curve summarizer *)

Module AucFacts.
Import Auc.
Local Open Scope Q_scope.

(** *** Sorting keeps the elements *)

Lemma insert_sorted_Forall (P : float -> Prop) x l :
  P x -> Forall P l -> Forall P (insert_sorted x l).
Proof.
  intros Hx Hl. induction Hl as [|y l Hy Hl IH]; simpl.
  - constructor; [exact Hx | constructor].
  - destruct (sort_leb x y).
    + constructor; [exact Hx | constructor; assumption].
    + constructor; assumption.
Qed.

Lemma np_sort_Forall (P : float -> Prop) l :
  Forall P l -> Forall P (np_sort l).
Proof.
  induction 1 as [|x l Hx Hl IH]; simpl.
  - constructor.
  - apply insert_sorted_Forall; assumption.
Qed.



(** *** The undefined result *)

Lemma count_true_none (d : list float) :
  Forall (fun x => isfinite x = false) d ->
  count_true (map isfinite d) = 0%nat.
Proof.
  induction 1 as [|x d Hx Hd IH]; simpl; [reflexivity|].
  unfold count_true in *. simpl. rewrite Hx. exact IH.
Qed.

Lemma auc_nan_of_no_finite errors :
  Forall (fun x => isfinite x = false) (clamp_cutoff (np_sort errors)) ->
  compute_auc_posecnn errors = NaN.
Proof.
  intros H. unfold compute_auc_posecnn.
  rewrite (count_true_none _ H).
  simpl (0 =? 0)%nat. rewrite orb_true_r. reflexivity.
Qed.

Lemma clamp_no_finite d :
  Forall (fun x => fgtb x cutoff = true \/ isfinite x = false) d ->
  Forall (fun x => isfinite x = false) (clamp_cutoff d).
Proof.
  induction 1 as [|x d Hx Hd IH]; simpl; constructor; [|exact IH].
  destruct Hx as [Hx|Hx].
  - rewrite Hx. reflexivity.
  - destruct (fgtb x cutoff); [reflexivity | exact Hx].
Qed.

(** C4. [compute_auc_posecnn] returns NaN whenever the input array is
    empty, or no finite error remains once every error above the 0.1
    cutoff has been set to infinity. *)
Theorem auc_undefined_when_nothing_finite (errors : list float) :
  errors = [] \/
  Forall (fun x => isfinite x = false) (clamp_cutoff (np_sort errors)) ->
  compute_auc_posecnn errors = NaN.
Proof.
  intros [-> | H].
  - reflexivity.
  - apply auc_nan_of_no_finite, H.
Qed.

Lemma auc_undefined_when_nothing_finite_witness :
  compute_auc_posecnn [] = NaN /\
  compute_auc_posecnn [Fin (3 # 10); NaN; NInf; Fin (1 # 5)] = NaN.
Proof.
  split.
  - apply (auc_undefined_when_nothing_finite []). left. reflexivity.
  - apply (auc_undefined_when_nothing_finite
             [Fin (3 # 10); NaN; NInf; Fin (1 # 5)]).
    right. vm_compute. repeat constructor.
Defined.

(** C1, as the code has it.  When every error exceeds the 0.1 cutoff,
    all of them are set to infinity and dropped, and the function returns
    NaN (not the score 0.0). *)
Theorem auc_all_above_cutoff_is_nan (errors : list float) :
  Forall (fun x => fgtb x cutoff = true) errors ->
  compute_auc_posecnn errors = NaN.
Proof.
  intros H. apply auc_nan_of_no_finite, clamp_no_finite.
  apply np_sort_Forall.
  eapply Forall_impl; [|exact H]. intros x Hx. left. exact Hx.
Qed.

Lemma auc_all_above_cutoff_is_nan_witness :
  compute_auc_posecnn [Fin (1 # 5); Fin 3; PInf] = NaN.
Proof.
  apply (auc_all_above_cutoff_is_nan [Fin (1 # 5); Fin 3; PInf]).
  repeat constructor.
Defined.

(** C1 as stated fails: on the one-element array [0.2], whose only error
    is non-negative and above the cutoff, the result is NaN and so is not
    the number 0.0. *)
Lemma auc_all_above_cutoff_not_zero :
  Forall (fun x => fgtb (Fin 0) x = false /\ fgtb x cutoff = true)
         [Fin (1 # 5)] /\
  compute_auc_posecnn [Fin (1 # 5)] = NaN /\
  ~ (exists q, compute_auc_posecnn [Fin (1 # 5)] = Fin q /\ q == 0).
Proof.
  split; [repeat constructor|].
  split; [reflexivity|].
  intros [q [H _]]. vm_compute in H. discriminate H.
Qed.


(** *** Sorting finite arrays *)

Lemma sort_leb_Fin a b : sort_leb (Fin a) (Fin b) = Qle_bool a b.
Proof. unfold sort_leb, fgtb, Qltb. now rewrite negb_involutive. Qed.

Lemma insert_sorted_Fin x l :
  insert_sorted (Fin x) (map Fin l) = map Fin (qinsert x l).
Proof.
  induction l as [|y l IH]; [reflexivity|].
  cbn [map insert_sorted qinsert].
  rewrite sort_leb_Fin. destruct (Qle_bool x y); [reflexivity|].
  cbn [map]. now rewrite IH.
Qed.

Lemma np_sort_Fin l : np_sort (map Fin l) = map Fin (qsort l).
Proof.
  induction l as [|x l IH]; simpl; [reflexivity|].
  now rewrite IH, insert_sorted_Fin.
Qed.

Lemma qinsert_Forall (P : Q -> Prop) x l :
  P x -> Forall P l -> Forall P (qinsert x l).
Proof.
  intros Hx Hl. induction Hl as [|y l Hy Hl IH]; simpl.
  - now constructor.
  - destruct (Qle_bool x y); constructor; auto.
Qed.

Lemma Qle_bool_false a b : Qle_bool a b = false -> b <= a.
Proof.
  intros H. destruct (Qlt_le_dec a b) as [Hlt|Hle]; [|exact Hle].
  apply Qlt_le_weak in Hlt. apply Qle_bool_iff in Hlt. congruence.
Qed.

Lemma qinsert_sorted x l :
  StronglySorted Qle l -> StronglySorted Qle (qinsert x l).
Proof.
  induction 1 as [|y l Hl IH Hy]; simpl.
  - constructor; constructor.
  - destruct (Qle_bool x y) eqn:E.
    + apply Qle_bool_iff in E. constructor.
      * now constructor.
      * constructor; [exact E|].
        eapply Forall_impl; [|exact Hy]. intros z Hz.
        now apply Qle_trans with y.
    + constructor; [exact IH|].
      apply qinsert_Forall; [|exact Hy]. now apply Qle_bool_false.
Qed.

Lemma qsort_sorted l : StronglySorted Qle (qsort l).
Proof.
  induction l as [|x l IH]; simpl; [constructor|].
  now apply qinsert_sorted.
Qed.

Lemma qinsert_length x l : length (qinsert x l) = S (length l).
Proof.
  induction l as [|y l IH]; simpl; [reflexivity|].
  destruct (Qle_bool x y); simpl; [reflexivity | now rewrite IH].
Qed.

Lemma qsort_length l : length (qsort l) = length l.
Proof.
  induction l as [|x l IH]; simpl; [reflexivity|].
  now rewrite qinsert_length, IH.
Qed.

(** *** Clamping and masking a sorted finite array *)

Lemma clamp_cutoff_cons x d :
  clamp_cutoff (x :: d) =
  (if fgtb x cutoff then PInf else x) :: clamp_cutoff d.
Proof. reflexivity. Qed.

Lemma fgtb_cutoff q : fgtb (Fin q) cutoff = negb (Qle_bool q (1 # 10)).
Proof. reflexivity. Qed.

Lemma clamp_all_above s :
  Forall (fun q => Qle_bool q (1 # 10) = false) s ->
  clamp_cutoff (map Fin s) = repeat PInf (length s).
Proof.
  induction 1 as [|q s Hq Hs IH]; [reflexivity|].
  cbn [map length repeat]. rewrite clamp_cutoff_cons, fgtb_cutoff, Hq, IH.
  reflexivity.
Qed.

Lemma clamp_sorted s :
  StronglySorted Qle s ->
  clamp_cutoff (map Fin s) =
  map Fin (below_cutoff s)
  ++ repeat PInf (length s - length (below_cutoff s)).
Proof.
  induction 1 as [|q s Hs IH Hq]; [reflexivity|].
  cbn [below_cutoff]. destruct (Qle_bool q (1 # 10)) eqn:E.
  - cbn [map app length Nat.sub].
    rewrite clamp_cutoff_cons, fgtb_cutoff, E, IH. reflexivity.
  - rewrite clamp_all_above; [simpl; reflexivity|].
    constructor; [exact E|].
    eapply Forall_impl; [|exact Hq]. intros z Hz.
    destruct (Qle_bool z (1 # 10)) eqn:Ez; [|reflexivity].
    apply Qle_bool_iff in Ez.
    assert (Hc : q <= 1 # 10) by (now apply Qle_trans with z).
    apply Qle_bool_iff in Hc. congruence.
Qed.

Lemma mask_select_none {A : Type} (a : list A) m :
  mask_select a (repeat false m) = [].
Proof.
  revert a. induction m as [|m IH]; intros [|x a]; simpl; auto.
Qed.

Lemma mask_finite_prefix {A : Type} (k : list Q) (m : nat) (a : list A) :
  length a = (length k + m)%nat ->
  mask_select a (map isfinite (map Fin k ++ repeat PInf m)) =
  firstn (length k) a.
Proof.
  revert a. induction k as [|q k IH]; intros a Ha; simpl in *.
  - rewrite map_repeat. simpl. apply mask_select_none.
  - destruct a as [|x a]; [discriminate|]. simpl. f_equal.
    apply IH. now injection Ha.
Qed.

Lemma count_true_prefix (k : list Q) (m : nat) :
  count_true (map isfinite (map Fin k ++ repeat PInf m)) = length k.
Proof.
  unfold count_true. induction k as [|q k IH]; simpl.
  - induction m as [|m IHm]; simpl; auto.
  - now rewrite IH.
Qed.

Lemma below_cutoff_length s : (length (below_cutoff s) <= length s)%nat.
Proof.
  induction s as [|q s IH]; simpl; [lia|].
  destruct (Qle_bool q (1 # 10)); simpl; lia.
Qed.


(** *** The accuracy values *)

Lemma qn_pos n : (0 < n)%nat -> 0 < qn n.
Proof.
  intros H. unfold qn, Qlt. simpl. lia.
Qed.

Lemma fdiv_of_nat c n :
  (0 < n)%nat -> fdiv (Fin c) (of_nat n) = Fin (c / qn n).
Proof.
  intros H. unfold fdiv, of_nat. fold (qn n).
  destruct (Qeq_bool (qn n) 0) eqn:E; [|reflexivity].
  apply Qeq_bool_iff in E. pose proof (qn_pos n H) as Hp.
  rewrite E in Hp. now apply Qlt_irrefl in Hp.
Qed.

Lemma cumsum_ones c m :
  cumsum_from (Fin c) (repeat (Fin 1) m) = map Fin (qcount c m).
Proof.
  revert c. induction m as [|m IH]; intros c; simpl; [reflexivity|].
  now rewrite IH.
Qed.

Lemma accuracy_values n :
  (0 < n)%nat ->
  map (fun x => fdiv x (of_nat n)) (np_cumsum (np_ones n)) =
  map Fin (map (fun c => c / qn n) (1 :: qcount 1 (n - 1))).
Proof.
  intros H. destruct n as [|m]; [lia|].
  unfold np_ones. cbn [repeat np_cumsum]. rewrite cumsum_ones.
  replace (S m - 1)%nat with m by lia.
  change (Fin 1 :: map Fin (qcount 1 m)) with (map Fin (1 :: qcount 1 m)).
  rewrite !map_map. apply map_ext. intros c. now apply fdiv_of_nat.
Qed.

Lemma firstn_qcount c k m :
  (k <= m)%nat -> firstn k (qcount c m) = qcount c k.
Proof.
  revert c m. induction k as [|k IH]; intros c m H; [reflexivity|].
  destruct m as [|m]; [lia|]. simpl. f_equal. apply IH. lia.
Qed.

Lemma qcount_length c m : length (qcount c m) = m.
Proof.
  revert c. induction m as [|m IH]; intros c; simpl; [reflexivity|].
  now rewrite IH.
Qed.

(** *** The running maximum leaves a non-decreasing sequence alone *)

Lemma set_nth_same i m : set_nth i (nth i m NaN) m = m.
Proof.
  revert i. induction m as [|x m IH]; intros [|i]; simpl; auto.
  now rewrite IH.
Qed.

Lemma fold_left_fixed {A B : Type} (f : A -> B -> A) (l : list B) (a : A) :
  (forall b, In b l -> f a b = a) -> fold_left f l a = a.
Proof.
  induction l as [|b l IH]; intros H; simpl; [reflexivity|].
  rewrite (H b) by now left. apply IH. intros b' Hb'. apply H. now right.
Qed.

Lemma running_max_loop_fixed m :
  (forall i, (1 <= i < length m)%nat ->
             fgtb (nth (i - 1) m NaN) (nth i m NaN) = false) ->
  running_max_loop m = m.
Proof.
  intros H. unfold running_max_loop. apply fold_left_fixed.
  intros i Hi. apply in_seq in Hi.
  unfold py_max. rewrite H by lia. apply set_nth_same.
Qed.

Lemma sorted_no_descent (L : list Q) :
  Sorted Qle L ->
  forall i, (1 <= i < length L)%nat ->
  fgtb (nth (i - 1) (map Fin L) NaN) (nth i (map Fin L) NaN) = false.
Proof.
  induction 1 as [|a L HL IH Ha]; intros i Hi; simpl in Hi; [lia|].
  destruct i as [|[|j]]; [lia| |].
  - destruct L as [|b L]; simpl in Hi; [lia|].
    inversion Ha as [|? ? Hab]; subst. simpl. unfold Qltb.
    apply Qle_bool_iff in Hab. now rewrite Hab.
  - specialize (IH (S j)). simpl in IH. rewrite Nat.sub_0_r in IH.
    simpl. apply IH. lia.
Qed.

Lemma accuracy_curve_sorted (N c : Q) (m : nat) :
  0 < N ->
  Sorted Qle (map (fun x => x / N) (c :: qcount c m)
              ++ [last (map (fun x => x / N) (c :: qcount c m)) 0]).
Proof.
  intros HN. revert c. induction m as [|m IH]; intros c.
  - simpl. repeat constructor. apply Qle_refl.
  - specialize (IH (c + 1)).
    change (map (fun x => x / N) (c :: qcount c (S m)))
      with (c / N :: map (fun x => x / N) ((c + 1) :: qcount (c + 1) m)).
    cbn [app].
    replace (last (c / N :: map (fun x => x / N) ((c + 1) :: qcount (c + 1) m)) 0)
      with (last (map (fun x => x / N) ((c + 1) :: qcount (c + 1) m)) 0)
      by reflexivity.
    constructor; [exact IH|].
    cbn [map app]. constructor.
    unfold Qdiv. apply Qmult_le_compat_r.
    + lra.
    + apply Qlt_le_weak, Qinv_lt_0_compat, HN.
Qed.


(** *** The integration step *)

Lemma nth_after_prefix (Pr : list Q) x l :
  nth (length Pr) (map Fin (Pr ++ x :: l)) NaN = Fin x.
Proof.
  induction Pr as [|a Pr IH]; simpl; [reflexivity | exact IH].
Qed.

Lemma where_take_terms (rs ps Pr Pp : list Q) (prev pp : Q) :
  length Pr = length Pp ->
  length rs = length ps ->
  let mrec := map Fin (Pr ++ prev :: rs) in
  let mpre := map Fin (Pp ++ pp :: ps) in
  let ids :=
    map S (where_from (length Pr)
             (map2 fneqb (map Fin rs) (removelast (map Fin (prev :: rs))))) in
  map2 fmul (map2 fsub (take mrec ids) (take mrec (map pred ids)))
       (take mpre ids)
  = map Fin (step_terms prev rs ps).
Proof.
  revert ps Pr Pp prev pp.
  induction rs as [|r rs IH]; intros ps Pr Pp prev pp HP Hl; [reflexivity|].
  destruct ps as [|p ps]; [discriminate|].
  injection Hl as Hl.
  specialize (IH ps (Pr ++ [prev]) (Pp ++ [pp]) r p).
  rewrite !length_app in IH. cbn [length] in IH.
  rewrite !Nat.add_1_r in IH. rewrite <- !app_assoc in IH. cbn [app] in IH.
  specialize (IH (f_equal S HP) Hl). cbn zeta in IH.
  cbn zeta.
  change (removelast (map Fin (prev :: r :: rs)))
    with (Fin prev :: removelast (map Fin (r :: rs))).
  cbn [map map2 where_from step_terms].
  change (fneqb (Fin r) (Fin prev)) with (negb (Qeq_bool r prev)).
  destruct (negb (Qeq_bool r prev)).
  - cbn [map take map2 pred app].
    unfold take in IH |- *. cbn [map map2 pred].
    change (map Fin (r :: rs)) with (Fin r :: map Fin rs) in IH.
    rewrite IH. f_equal.
    pose proof (nth_after_prefix (Pr ++ [prev]) r rs) as H1.
    rewrite length_app, Nat.add_1_r, <- app_assoc in H1. cbn [app length] in H1.
    rewrite H1.
    rewrite nth_after_prefix.
    pose proof (nth_after_prefix (Pp ++ [pp]) p ps) as H2.
    rewrite length_app, Nat.add_1_r, <- app_assoc in H2. cbn [app length] in H2.
    rewrite <- HP in H2. rewrite H2. reflexivity.
  - cbn [app]. change (map Fin (r :: rs)) with (Fin r :: map Fin rs) in IH.
    exact IH.
Qed.

Lemma np_sum_Fin_from (ts : list Q) (a : Q) :
  fold_left fadd (map Fin ts) (Fin a) = Fin (fold_left Qplus ts a).
Proof.
  revert a. induction ts as [|t ts IH]; intros a; simpl; [reflexivity|].
  apply IH.
Qed.


Lemma step_terms_sum prev rs ps a :
  fold_left Qplus (step_terms prev rs ps) a == a + step_sum prev rs ps.
Proof.
  revert prev ps a. induction rs as [|r rs IH]; intros prev ps a.
  - simpl. lra.
  - destruct ps as [|p ps]; [simpl; lra|].
    cbn [step_terms step_sum]. rewrite fold_left_app.
    destruct (Qeq_bool r prev) eqn:E; cbn [negb fold_left].
    + apply Qeq_bool_iff in E. rewrite IH.
      assert (H0 : (r - prev) * p == 0) by (rewrite E; ring).
      rewrite H0. lra.
    + rewrite IH. lra.
Qed.

(** *** The closed form of the integral *)

Lemma step_sum_closed (N t : Q) (ds : list Q) :
  ~ N == 0 ->
  forall (prev c : Q) (m : nat),
  length ds = S m ->
  N * step_sum prev (ds ++ [t])
        (map (fun x => x / N) (c :: qcount c m)
         ++ [last (map (fun x => x / N) (c :: qcount c m)) 0])
  == (t - prev) * c + qsum (map (fun d => t - d) (removelast ds)).
Proof.
  intros HN. induction ds as [|d ds IH]; intros prev c m Hl; [discriminate|].
  destruct ds as [|d2 ds].
  - injection Hl as Hl. subst m. simpl. field. exact HN.
  - destruct m as [|m]; [discriminate|].
    assert (Hl' : length (d2 :: ds) = S m) by (simpl in *; lia).
    specialize (IH d (c + 1) m Hl').
    change (removelast (d :: d2 :: ds)) with (d :: removelast (d2 :: ds)).
    change (map (fun x => x / N) (c :: qcount c (S m)))
      with (c / N :: map (fun x => x / N) ((c + 1) :: qcount (c + 1) m)).
    replace (last (c / N :: map (fun x => x / N) ((c + 1) :: qcount (c + 1) m)) 0)
      with (last (map (fun x => x / N) ((c + 1) :: qcount (c + 1) m)) 0)
      by reflexivity.
    cbn [app step_sum map qsum fold_right].
    cbn [app] in IH.
    rewrite Qmult_plus_distr_r, IH. unfold qsum. field. exact HN.
Qed.

Lemma qsum_nonneg (l : list Q) : Forall (fun x => 0 <= x) l -> 0 <= qsum l.
Proof.
  induction 1 as [|x l Hx Hl IH]; [apply Qle_refl|].
  cbn [qsum fold_right]. unfold qsum in IH. cbv beta in Hx. lra.
Qed.

Lemma Forall_removelast {A : Type} (P : A -> Prop) l :
  Forall P l -> Forall P (removelast l).
Proof.
  induction 1 as [|x l Hx Hl IH]; simpl; [constructor|].
  destruct l; [constructor|]. constructor; assumption.
Qed.

Lemma dominates_sum (t : Q) la lb :
  dominates la lb ->
  Forall (fun a => a <= t) la ->
  lb <> [] ->
  qsum (map (fun d => t - d) (removelast lb))
  <= qsum (map (fun d => t - d) (removelast la)).
Proof.
  induction 1 as [la | a b la lb Hab Hd IH]; intros Hla Hne; [congruence|].
  inversion Hla as [|? ? Ha Hla']; subst.
  destruct lb as [|b2 lb].
  - simpl. apply qsum_nonneg.
    apply Forall_map. apply (Forall_removelast _ (a :: la)).
    eapply Forall_impl; [|exact Hla]. intros x Hx. simpl in Hx. lra.
  - inversion Hd as [|a2 ? la2 ? Hab2 Hd2]; subst.
    change (removelast (b :: b2 :: lb)) with (b :: removelast (b2 :: lb)).
    change (removelast (a :: a2 :: la2)) with (a :: removelast (a2 :: la2)).
    cbn [map qsum fold_right].
    assert (H := IH Hla' ltac:(discriminate)). unfold qsum in H. lra.
Qed.


(** *** The value on a finite array *)

Lemma last_map_Fin (P : list Q) :
  P <> [] -> last (map Fin P) NaN = Fin (last P 0).
Proof.
  induction P as [|a P IH]; intros H; [congruence|].
  destruct P as [|b P]; [reflexivity|].
  change (last (map Fin (a :: b :: P)) NaN) with (last (map Fin (b :: P)) NaN).
  change (last (a :: b :: P) 0) with (last (b :: P) 0).
  apply IH. discriminate.
Qed.

Lemma auc_finite_eval (A : list Q) :
  below_cutoff (qsort A) <> [] ->
  compute_auc_posecnn (map Fin A) =
  Fin (fold_left Qplus (finite_terms A) 0 * 10).
Proof.
  intros Hne.
  set (ds := below_cutoff (qsort A)) in *.
  set (n := length A).
  assert (Hk : (1 <= length ds <= n)%nat).
  { split.
    - destruct ds; [congruence | simpl; lia].
    - unfold ds, n. rewrite <- (qsort_length A). apply below_cutoff_length. }
  set (m := (n - length ds)%nat).
  set (D := map Fin ds ++ repeat PInf m).
  assert (HD : clamp_cutoff (np_sort (map Fin A)) = D).
  { rewrite np_sort_Fin, (clamp_sorted _ (qsort_sorted A)).
    unfold D, m, ds, n. now rewrite qsort_length. }
  assert (HlD : length D = n).
  { unfold D, m. rewrite length_app, length_map, repeat_length. lia. }
  set (P := map (fun c => c / qn n) (1 :: qcount 1 (length ds - 1))).
  unfold compute_auc_posecnn. cbv zeta. rewrite HD, HlD.
  rewrite accuracy_values by lia.
  assert (H1 : mask_select D (map isfinite D) = map Fin ds).
  { unfold D. rewrite mask_finite_prefix
      by (rewrite length_app, length_map, repeat_length; lia).
    rewrite <- (length_map Fin ds) at 1.
    now rewrite firstn_app, firstn_all, Nat.sub_diag, app_nil_r. }
  assert (H2 : mask_select
                 (map Fin (map (fun c => c / qn n) (1 :: qcount 1 (n - 1))))
                 (map isfinite D) = map Fin P).
  { unfold D. rewrite mask_finite_prefix
      by (rewrite !length_map; cbn [length]; rewrite qcount_length;
          unfold m; lia).
    rewrite !firstn_map. unfold P. do 2 f_equal.
    destruct (length ds) as [|k] eqn:Ek; [lia|]. cbn [firstn].
    rewrite firstn_qcount by lia. now replace (S k - 1)%nat with k by lia. }
  assert (H3 : count_true (map isfinite D) = length ds).
  { unfold D. apply count_true_prefix. }
  rewrite H1, H2, H3, length_map, HlD.
  replace (n =? 0)%nat with false by (symmetry; apply Nat.eqb_neq; lia).
  replace (length ds =? 0)%nat with false
    by (symmetry; apply Nat.eqb_neq; lia).
  cbn [orb].
  rewrite last_map_Fin by (unfold P; discriminate).
  change ([Fin 0] ++ map Fin P ++ [Fin (last P 0)])
    with (Fin 0 :: map Fin P ++ map Fin [last P 0]).
  rewrite <- map_app.
  change (Fin 0 :: map Fin (P ++ [last P 0]))
    with (map Fin (0 :: P ++ [last P 0])).
  change ([Fin 0] ++ map Fin ds ++ [cutoff])
    with (Fin 0 :: map Fin ds ++ map Fin [1 # 10]).
  rewrite <- map_app.
  change (Fin 0 :: map Fin (ds ++ [1 # 10]))
    with (map Fin ([] ++ 0 :: ds ++ [1 # 10])).
  rewrite running_max_loop_fixed.
  2:{ rewrite length_map. apply sorted_no_descent.
      constructor.
      - apply accuracy_curve_sorted. apply qn_pos. lia.
      - unfold P. cbn [map app]. constructor.
        unfold Qdiv. apply Qmult_le_0_compat; [lra|].
        apply Qlt_le_weak, Qinv_lt_0_compat, qn_pos. lia. }
  change (map Fin (0 :: P ++ [last P 0]))
    with (map Fin ([] ++ 0 :: P ++ [last P 0])).
  change (tl (map Fin ([] ++ 0 :: ds ++ [1 # 10])))
    with (map Fin (ds ++ [1 # 10])).
  change (removelast (map Fin ([] ++ 0 :: ds ++ [1 # 10])))
    with (removelast (map Fin (0 :: ds ++ [1 # 10]))).
  unfold np_where. change 0%nat with (@length Q []) at 1 2 3.
  rewrite where_take_terms.
  - unfold np_sum. rewrite np_sum_Fin_from. reflexivity.
  - reflexivity.
  - unfold P. rewrite !length_app, !length_map. cbn [length].
    rewrite qcount_length. lia.
Qed.


Lemma auc_finite_closed (A : list Q) :
  below_cutoff (qsort A) <> [] ->
  qn (length A) * fold_left Qplus (finite_terms A) 0 ==
  (1 # 10)
  + qsum (map (fun d => (1 # 10) - d) (removelast (below_cutoff (qsort A)))).
Proof.
  intros Hne. unfold finite_terms. cbv zeta.
  set (ds := below_cutoff (qsort A)) in *.
  assert (Hk : (1 <= length ds <= length A)%nat).
  { split.
    - destruct ds; [congruence | simpl; lia].
    - unfold ds. rewrite <- (qsort_length A). apply below_cutoff_length. }
  assert (HN : 0 < qn (length A)) by (apply qn_pos; lia).
  rewrite step_terms_sum, Qplus_0_l.
  rewrite (step_sum_closed (qn (length A)) (1 # 10) ds).
  - lra.
  - intros E. rewrite E in HN. now apply Qlt_irrefl in HN.
  - lia.
Qed.

Lemma auc_nan_below_cutoff_nil (B : list Q) :
  below_cutoff (qsort B) = [] -> compute_auc_posecnn (map Fin B) = NaN.
Proof.
  intros E. apply auc_nan_of_no_finite.
  rewrite np_sort_Fin, (clamp_sorted _ (qsort_sorted B)), E.
  cbn [map app]. apply Forall_forall. intros x Hx.
  apply repeat_spec in Hx. now subst x.
Qed.

Lemma below_cutoff_bound s : Forall (fun a => a <= 1 # 10) (below_cutoff s).
Proof.
  induction s as [|q s IH]; simpl; [constructor|].
  destruct (Qle_bool q (1 # 10)) eqn:E; constructor; [|exact IH].
  now apply Qle_bool_iff.
Qed.

Lemma below_cutoff_dominates sa sb :
  Forall2 Qle sa sb -> dominates (below_cutoff sa) (below_cutoff sb).
Proof.
  induction 1 as [|a b sa sb Hab H IH]; simpl; [constructor|].
  destruct (Qle_bool b (1 # 10)) eqn:Eb; [|constructor].
  apply Qle_bool_iff in Eb.
  assert (Ha : a <= 1 # 10) by (now apply Qle_trans with b).
  apply Qle_bool_iff in Ha. rewrite Ha. now constructor.
Qed.

Lemma Forall2_fleb_Fin sa sb :
  Forall2 (fun a b => fleb a b = true) (map Fin sa) (map Fin sb) ->
  Forall2 Qle sa sb.
Proof.
  revert sb. induction sa as [|a sa IH]; intros [|b sb] H;
    inversion H; subst; constructor.
  - now apply Qle_bool_iff.
  - now apply IH.
Qed.

(** In exact arithmetic the score is monotone.  For two finite error
    arrays of equal length such that the i-th smallest error of [A] is at
    most the i-th smallest error of [B], and with the score of [B]
    defined, both scores are numbers and the score of [A] is at least the
    score of [B].  (No sign condition on the errors is needed for this.) *)
Theorem auc_monotone (A B : list Q) :
  length A = length B ->
  Forall2 (fun a b => fleb a b = true)
          (np_sort (map Fin A)) (np_sort (map Fin B)) ->
  compute_auc_posecnn (map Fin B) <> NaN ->
  exists x y,
    compute_auc_posecnn (map Fin A) = Fin x /\
    compute_auc_posecnn (map Fin B) = Fin y /\
    y <= x.
Proof.
  intros Hlen Hle HB.
  rewrite !np_sort_Fin in Hle. apply Forall2_fleb_Fin in Hle.
  assert (HneB : below_cutoff (qsort B) <> []).
  { intros E. apply HB. now apply auc_nan_below_cutoff_nil. }
  pose proof (below_cutoff_dominates _ _ Hle) as Hdom.
  assert (HneA : below_cutoff (qsort A) <> []).
  { inversion Hdom; [congruence | discriminate]. }
  exists (fold_left Qplus (finite_terms A) 0 * 10),
         (fold_left Qplus (finite_terms B) 0 * 10).
  split; [now apply auc_finite_eval|].
  split; [now apply auc_finite_eval|].
  pose proof (auc_finite_closed A HneA) as EA.
  pose proof (auc_finite_closed B HneB) as EB.
  pose proof (dominates_sum (1 # 10) _ _ Hdom (below_cutoff_bound _) HneB)
    as Hsum.
  rewrite <- Hlen in EB.
  assert (HN : 0 < qn (length A)).
  { apply qn_pos. destruct A; [now elim HneA | simpl; lia]. }
  assert (H : qn (length A) * fold_left Qplus (finite_terms B) 0
              <= qn (length A) * fold_left Qplus (finite_terms A) 0).
  { rewrite EA, EB. lra. }
  apply Qmult_le_l in H; [|exact HN]. lra.
Qed.

Lemma auc_monotone_witness :
  exists x y,
    compute_auc_posecnn (map Fin [5 # 100; 2 # 100; 3 # 10]) = Fin x /\
    compute_auc_posecnn (map Fin [1 # 1; 4 # 100; 8 # 100]) = Fin y /\
    y <= x.
Proof.
  apply (auc_monotone [5 # 100; 2 # 100; 3 # 10] [1 # 1; 4 # 100; 8 # 100]).
  - reflexivity.
  - vm_compute. repeat constructor.
  - vm_compute. discriminate.
Defined.

(** *** When the score is defined, and its value *)

Lemma qinsert_In a x l : In a (qinsert x l) <-> a = x \/ In a l.
Proof.
  induction l as [|y l IH]; simpl.
  - intuition congruence.
  - destruct (Qle_bool x y); simpl; [intuition congruence|].
    rewrite IH. intuition congruence.
Qed.

Lemma qsort_In a l : In a (qsort l) <-> In a l.
Proof.
  induction l as [|x l IH]; simpl; [reflexivity|].
  rewrite qinsert_In, IH. intuition congruence.
Qed.

Lemma below_cutoff_nonempty (A : list Q) :
  below_cutoff (qsort A) <> [] <-> exists a, In a A /\ a <= 1 # 10.
Proof.
  pose proof (qsort_sorted A) as Hs. split.
  - intros H. destruct (qsort A) as [|q s] eqn:E; [now elim H|].
    simpl in H. destruct (Qle_bool q (1 # 10)) eqn:Eq; [|now elim H].
    exists q. split.
    + apply qsort_In. rewrite E. now left.
    + now apply Qle_bool_iff.
  - intros [a [Ha Hle]]. apply qsort_In in Ha.
    destruct (qsort A) as [|q s]; [destruct Ha|].
    assert (Hq : q <= 1 # 10).
    { destruct Ha as [->|Ha]; [exact Hle|].
      inversion Hs as [|? ? _ Hall]; subst.
      rewrite Forall_forall in Hall.
      apply Qle_trans with a; [now apply Hall | exact Hle]. }
    apply Qle_bool_iff in Hq. simpl. rewrite Hq. discriminate.
Qed.

(** X1.  On a finite error array the score is defined (not NaN) exactly
    when at least one error is within the 0.1 cutoff. *)
Theorem auc_defined_iff_some_error_within_cutoff (A : list Q) :
  compute_auc_posecnn (map Fin A) <> NaN <->
  exists a, In a A /\ a <= 1 # 10.
Proof.
  rewrite <- below_cutoff_nonempty. split.
  - intros H E. apply H. now apply auc_nan_below_cutoff_nil.
  - intros H. rewrite auc_finite_eval by exact H. discriminate.
Qed.

Lemma auc_score_value (A : list Q) :
  (exists a, In a A /\ a <= 1 # 10) ->
  exists x,
    compute_auc_posecnn (map Fin A) = Fin x /\
    x * qn (length A) ==
    1 + 10 * qsum (map (fun d => (1 # 10) - d)
                       (removelast (below_cutoff (qsort A)))).
Proof.
  intros H. apply below_cutoff_nonempty in H.
  exists (fold_left Qplus (finite_terms A) 0 * 10).
  split; [now apply auc_finite_eval|].
  pose proof (auc_finite_closed A H) as E.
  rewrite <- Qmult_assoc, (Qmult_comm 10), Qmult_assoc.
  rewrite (Qmult_comm _ (qn (length A))), E. ring.
Qed.

(** X2.  When some error is within the cutoff, the score times the array
    length is [1 + 10 * sum (0.1 - d)], the sum running over the sorted
    errors within the cutoff except the largest of them: the step rule
    weighs each interval by the accuracy at its right end, so the largest
    error within the cutoff does not enter the score. *)
Theorem auc_closed_form (A : list Q) :
  (exists a, In a A /\ a <= 1 # 10) ->
  exists x,
    compute_auc_posecnn (map Fin A) = Fin x /\
    x * qn (length A) ==
    1 + 10 * qsum (map (fun d => (1 # 10) - d)
                       (removelast (below_cutoff (qsort A)))).
Proof. exact (auc_score_value A). Qed.

Lemma auc_closed_form_witness :
  exists x,
    compute_auc_posecnn (map Fin [5 # 100; 3 # 10; 2 # 100]) = Fin x /\
    x * qn 3 ==
    1 + 10 * qsum (map (fun d => (1 # 10) - d)
                       (removelast (below_cutoff (qsort [5 # 100; 3 # 10; 2 # 100])))).
Proof.
  apply (auc_closed_form [5 # 100; 3 # 10; 2 # 100]).
  exists (5 # 100). split; [now left | discriminate].
Defined.

Lemma qsum_terms_bounds (l : list Q) :
  Forall (fun d => 0 <= d /\ d <= 1 # 10) l ->
  0 <= qsum (map (fun d => (1 # 10) - d) l) /\
  qsum (map (fun d => (1 # 10) - d) l) <= (1 # 10) * qn (length l).
Proof.
  induction 1 as [|d l [H0 H1] Hl [IH0 IH1]].
  - split; vm_compute; discriminate.
  - cbn [map qsum fold_right length]. unfold qsum in *.
    assert (E : qn (S (length l)) == qn (length l) + 1).
    { unfold qn. rewrite Nat2Z.inj_succ, <- Z.add_1_r, inject_Z_plus.
      reflexivity. }
    rewrite E. split; lra.
Qed.

Lemma removelast_length {A : Type} (l : list A) :
  l <> [] -> S (length (removelast l)) = length l.
Proof.
  induction l as [|x l IH]; intros H; [congruence|].
  destruct l as [|y l]; [reflexivity|].
  change (removelast (x :: y :: l)) with (x :: removelast (y :: l)).
  cbn [length]. f_equal. apply IH. discriminate.
Qed.

Lemma below_cutoff_incl (s : list Q) a : In a (below_cutoff s) -> In a s.
Proof.
  induction s as [|q s IH]; simpl; [auto|].
  destruct (Qle_bool q (1 # 10)); simpl; [|intros []].
  intros [H|H]; auto.
Qed.

Lemma In_removelast {A : Type} (l : list A) a :
  In a (removelast l) -> In a l.
Proof.
  induction l as [|x l IH]; simpl; [auto|].
  destruct l as [|y l]; [intros []|].
  intros [H|H]; auto.
Qed.

(** X3.  For non-negative finite errors with at least one within the
    cutoff, the score computed in exact arithmetic is greater than 0 and
    at most 1: a defined score is never 0. *)
Theorem auc_score_positive_at_most_one (A : list Q) :
  Forall (fun a => 0 <= a) A ->
  (exists a, In a A /\ a <= 1 # 10) ->
  exists x,
    compute_auc_posecnn (map Fin A) = Fin x /\
    0 < x /\ x <= 1.
Proof.
  intros Hpos H. destruct (auc_score_value A H) as [x [Ex Hx]].
  apply below_cutoff_nonempty in H.
  set (ds := below_cutoff (qsort A)) in *.
  assert (Hb : Forall (fun d => 0 <= d /\ d <= 1 # 10) (removelast ds)).
  { apply Forall_forall. intros d Hd. apply In_removelast in Hd. split.
    - rewrite Forall_forall in Hpos. apply Hpos, qsort_In.
      now apply below_cutoff_incl.
    - pose proof (below_cutoff_bound (qsort A)) as Hc.
      rewrite Forall_forall in Hc. now apply Hc. }
  destruct (qsum_terms_bounds _ Hb) as [S0 S1].
  assert (Hk : (S (length (removelast ds)) <= length A)%nat).
  { rewrite removelast_length by exact H. unfold ds.
    rewrite <- (qsort_length A). apply below_cutoff_length. }
  assert (Hq : qn (length (removelast ds)) + 1 <= qn (length A)).
  { unfold qn. rewrite <- (inject_Z_plus _ 1), <- Zle_Qle. lia. }
  assert (HN : 0 < qn (length A)).
  { apply qn_pos. lia. }
  exists x. split; [exact Ex|]. split.
  - assert (Hlt : 0 * qn (length A) < x * qn (length A)).
    { rewrite Hx. lra. }
    apply Qmult_lt_r in Hlt; [exact Hlt | exact HN].
  - assert (Hle : x * qn (length A) <= 1 * qn (length A)).
    { rewrite Hx. lra. }
    apply Qmult_le_r in Hle; [exact Hle | exact HN].
Qed.

Lemma auc_score_positive_at_most_one_witness :
  exists x,
    compute_auc_posecnn (map Fin [5 # 100; 3 # 10; 0; 2 # 100]) = Fin x /\
    0 < x /\ x <= 1.
Proof.
  apply (auc_score_positive_at_most_one [5 # 100; 3 # 10; 0; 2 # 100]).
  - repeat constructor; discriminate.
  - exists 0. split; [simpl; tauto | discriminate].
Defined.

Lemma qsort_zeros n : qsort (repeat 0 n) = repeat 0 n.
Proof.
  induction n as [|n IH]; [reflexivity|].
  cbn [repeat qsort fold_right]. fold (qsort (repeat 0 n)). rewrite IH.
  destruct n; reflexivity.
Qed.

Lemma below_cutoff_zeros n : below_cutoff (repeat 0 n) = repeat 0 n.
Proof.
  induction n as [|n IH]; [reflexivity|].
  cbn [repeat below_cutoff]. now rewrite IH.
Qed.

Lemma qsum_tenths n :
  qsum (map (fun d => (1 # 10) - d) (repeat 0 n)) == (1 # 10) * qn n.
Proof.
  induction n as [|n IH]; [reflexivity|].
  cbn [repeat map qsum fold_right]. unfold qsum in IH. rewrite IH.
  unfold qn. rewrite Nat2Z.inj_succ, <- Z.add_1_r, inject_Z_plus. ring.
Qed.

(** X4.  On a non-empty array of zero errors the score is 1. *)
Theorem auc_all_zero_is_one (n : nat) :
  (0 < n)%nat ->
  exists x, compute_auc_posecnn (map Fin (repeat 0 n)) = Fin x /\ x == 1.
Proof.
  intros Hn.
  assert (H : exists a, In a (repeat 0 n) /\ a <= 1 # 10).
  { exists 0. split; [|discriminate]. destruct n; [lia | now left]. }
  destruct (auc_score_value _ H) as [x [Ex Hx]].
  exists x. split; [exact Ex|].
  rewrite repeat_length, qsort_zeros, below_cutoff_zeros in Hx.
  destruct n as [|m]; [lia|].
  assert (Hr : removelast (repeat 0 (S m)) = repeat (0 : Q) m).
  { clear. induction m as [|m IH]; [reflexivity|].
    change (repeat 0 (S (S m))) with (0 :: repeat (0 : Q) (S m)).
    change (removelast (0 :: repeat (0 : Q) (S m)))
      with (0 :: removelast (repeat (0 : Q) (S m))).
    now rewrite IH. }
  rewrite Hr, qsum_tenths in Hx.
  assert (E : qn (S m) == qn m + 1).
  { unfold qn. rewrite Nat2Z.inj_succ, <- Z.add_1_r, inject_Z_plus.
    reflexivity. }
  assert (HN : 0 < qn (S m)) by (apply qn_pos; lia).
  assert (Hx' : x * qn (S m) == 1 * qn (S m)) by (rewrite Hx, E; ring).
  apply Qmult_inj_r in Hx'; [exact Hx'|].
  intros E0. rewrite E0 in HN. now apply Qlt_irrefl in HN.
Qed.

Lemma auc_all_zero_is_one_witness :
  exists x, compute_auc_posecnn (map Fin (repeat 0 3)) = Fin x /\ x == 1.
Proof.
  apply (auc_all_zero_is_one 3). lia.
Defined.

(** *** The score in float64 arithmetic *)

(** In float64 the order of two scores can come out reversed.  The
    arrays [0.005, 0.2, 0.2] and [0.1, 0.2, 0.2] have equal length and
    non-negative entries, the first is below the second rank by rank,
    and both scores are defined; computed without rounding the two
    scores are equal, but the float64 score of the first array is one
    unit in the last place below that of the second. *)
Lemma auc_order_reversed_by_rounding :
  let A := map Auc64.lit [5 # 1000; 2 # 10; 2 # 10] in
  let B := map Auc64.lit [1 # 10; 2 # 10; 2 # 10] in
  length A = length B /\
  Forall (fun a => fleb (Fin 0) a = true) (A ++ B) /\
  Forall2 (fun a b => fleb a b = true) (np_sort A) (np_sort B) /\
  Auc64.compute_auc_posecnn A = Fin (1501199875790165 # 4503599627370496) /\
  Auc64.compute_auc_posecnn B = Fin (6004799503160661 # 18014398509481984) /\
  (1501199875790165 # 4503599627370496) <
  (6004799503160661 # 18014398509481984).
Proof.
  cbv zeta. split; [reflexivity|].
  split; [repeat constructor|].
  split; [vm_compute; repeat constructor|].
  split; [vm_compute; reflexivity|].
  split; [vm_compute; reflexivity|].
  reflexivity.
Qed.

(** *** Rounding to binary64 *)

Lemma round_half_even_error (y : Q) :
  y - (1 # 2) <= inject_Z (Auc64.round_half_even y) <= y + (1 # 2).
Proof.
  unfold Auc64.round_half_even.
  pose proof (Qfloor_le y) as H1. pose proof (Qlt_floor y) as H2.
  rewrite inject_Z_plus in H2. change (inject_Z 1) with 1 in H2.
  destruct (Qcompare (y - inject_Z (Qfloor y)) (1 # 2)) eqn:E.
  - apply Qeq_alt in E.
    destruct (Z.even (Qfloor y)); [|rewrite inject_Z_plus; change (inject_Z 1) with 1];
      lra.
  - apply Qlt_alt in E. lra.
  - apply Qgt_alt in E. rewrite inject_Z_plus. change (inject_Z 1) with 1. lra.
Qed.

Lemma round_half_even_integer (y : Q) (k : Z) :
  y == inject_Z k -> Auc64.round_half_even y = k.
Proof.
  intros E. unfold Auc64.round_half_even.
  rewrite (Qfloor_comp _ _ E), Qfloor_Z.
  assert (H' : Qcompare (y - inject_Z k) (1 # 2) = Lt).
  { apply (proj1 (Qlt_alt _ _)). lra. }
  now rewrite H'.
Qed.

Lemma two_pow_pos (e : Z) : 0 < 2 ^ e.
Proof. apply Qpower_0_lt. reflexivity. Qed.

Lemma two_pow_succ (e : Z) : 2 ^ (e + 1) == 2 * 2 ^ e.
Proof. rewrite Qpower_plus by discriminate. change (2 ^ 1) with 2. ring. Qed.

Lemma two_pow_Z (a : Z) : (0 <= a)%Z -> inject_Z (2 ^ a) == 2 ^ a.
Proof. intros H. now rewrite Zpower_Qpower. Qed.

(** [ilog2] is the floor of the binary logarithm. *)
Lemma ilog2_spec (q : Q) :
  0 < q -> 2 ^ Auc64.ilog2 q <= q /\ q < 2 ^ (Auc64.ilog2 q + 1).
Proof.
  intros Hq. destruct q as [n d].
  assert (Hn : (0 < n)%Z) by (unfold Qlt in Hq; simpl in Hq; lia).
  unfold Auc64.ilog2. cbn [Qnum Qden].
  set (a := Z.log2 n). set (b := Z.log2 (Zpos d)).
  pose proof (Z.log2_spec n Hn) as [Ha1 Ha2].
  pose proof (Z.log2_spec (Zpos d) ltac:(lia)) as [Hb1 Hb2].
  fold a in Ha1, Ha2. fold b in Hb1, Hb2.
  pose proof (Z.log2_nonneg n) as Ha0. pose proof (Z.log2_nonneg (Zpos d)) as Hb0.
  fold a in Ha0. fold b in Hb0.
  rewrite Zle_Qle, two_pow_Z in Ha1 by assumption.
  rewrite Zlt_Qlt, <- Z.add_1_r, two_pow_Z, two_pow_succ in Ha2 by lia.
  rewrite Zle_Qle, two_pow_Z in Hb1 by assumption.
  rewrite Zlt_Qlt, <- Z.add_1_r, two_pow_Z, two_pow_succ in Hb2 by lia.
  pose proof (two_pow_pos a) as PA. pose proof (two_pow_pos b) as PB.
  assert (El : 2 ^ (a - b) * 2 ^ b == 2 ^ a).
  { rewrite <- Qpower_plus by discriminate. now replace (a - b + b)%Z with a by lia. }
  assert (Eq : (n # d) * inject_Z (Zpos d) == inject_Z n).
  { rewrite (Qmake_Qdiv n d). field. discriminate. }
  pose proof (two_pow_pos (a - b)) as PL.
  set (L := 2 ^ (a - b)) in *. set (A := 2 ^ a) in *. set (B := 2 ^ b) in *.
  set (D := inject_Z (Zpos d)) in *. set (N := inject_Z n) in *.
  set (x := n # d) in *.
  assert (HD : 0 < D) by lra.
  (* x < 2 L  and  L < 2 x *)
  assert (U : x < 2 * L).
  { apply (Qmult_lt_r _ _ D HD). rewrite Eq.
    apply Qlt_le_trans with (2 * A); [exact Ha2|].
    rewrite <- El. rewrite <- !Qmult_assoc. apply Qmult_le_l; [reflexivity|].
    apply Qmult_le_l; [exact PL | exact Hb1]. }
  assert (Lo : L < 2 * x).
  { apply (Qmult_lt_r _ _ D HD).
    apply Qlt_le_trans with (L * (2 * B)).
    - apply Qmult_lt_l; [exact PL | exact Hb2].
    - rewrite <- Qmult_assoc, Eq.
      setoid_replace (L * (2 * B)) with (2 * A) by (rewrite <- El; ring).
      apply Qmult_le_l; [reflexivity | exact Ha1]. }
  destruct (Qle_bool L x) eqn:E.
  - apply Qle_bool_iff in E. split; [exact E|].
    rewrite two_pow_succ. exact U.
  - assert (Hlt : x < L).
    { apply Qnot_le_lt. intros H. apply Qle_bool_iff in H. congruence. }
    replace (a - b - 1 + 1)%Z with (a - b)%Z by lia. split; [|exact Hlt].
    assert (E2 : 2 * 2 ^ (a - b - 1) == L).
    { rewrite <- two_pow_succ. unfold L. now replace (a - b - 1 + 1)%Z with (a - b)%Z by lia. }
    lra.
Qed.


Lemma round_compat (p q : Q) : p == q -> Auc64.round p = Auc64.round q.
Proof. intros E. unfold Auc64.round. now rewrite (Qred_complete p q E). Qed.

Lemma round_zero : Auc64.round 0 = Fin 0.
Proof. reflexivity. Qed.

(** Below 2 the last place weighs at most [2^-52], so rounding moves a
    number by at most [2^-53]; it stays non-negative and finite. *)
Lemma round_small (q : Q) :
  0 <= q -> q < 2 ->
  exists v, Auc64.round q = Fin v /\ 0 <= v /\ q - Auc64.unit_roundoff <= v /\ v <= q + Auc64.unit_roundoff.
Proof.
  intros H0 H2. unfold Auc64.round.
  pose proof (Qred_correct q) as Er. set (q' := Qred q) in *.
  destruct (Qeq_bool q' 0) eqn:Ez.
  - apply Qeq_bool_iff in Ez. exists 0. unfold Auc64.unit_roundoff.
    split; [reflexivity|]. lra.
  - assert (Hpos : 0 < q').
    { apply Qnot_le_lt. intros Hle.
      assert (E0 : q' == 0) by lra.
      apply Qeq_bool_iff in E0. congruence. }
    cbv zeta. unfold Auc64.last_place.
    assert (Ea : Qabs q' == q') by (apply Qabs_pos; lra).
    assert (Hap : 0 < Qabs q') by lra.
    destruct (ilog2_spec (Qabs q') Hap) as [L1 L2].
    set (fl := Auc64.ilog2 (Qabs q')) in *.
    assert (Hfl : (fl < 1)%Z).
    { apply (Qpower_lt_compat_l_inv 2); [|reflexivity].
      change (2 ^ 1) with 2. lra. }
    set (e := Z.max (fl - (Auc64.prec - 1)) Auc64.emin).
    assert (He : (e <= -52)%Z) by (unfold e, Auc64.prec, Auc64.emin; lia).
    pose proof (round_half_even_error (q' * 2 ^ (- e))) as [M1 M2].
    set (m := Auc64.round_half_even (q' * 2 ^ (- e))) in *.
    pose proof (two_pow_pos e) as PE. pose proof (two_pow_pos (- e)) as PI.
    assert (EI : 2 ^ (- e) * 2 ^ e == 1).
    { rewrite <- Qpower_plus by discriminate.
      now replace (- e + e)%Z with 0%Z by lia. }
    assert (Hm0 : (0 <= m)%Z).
    { assert (Hy : 0 <= q' * 2 ^ (- e)) by (apply Qmult_le_0_compat; lra).
      assert (Hq : inject_Z (-1) < inject_Z m).
      { change (inject_Z (-1)) with (-1). lra. }
      rewrite <- Zlt_Qlt in Hq. lia. }
    assert (Hmu : (m <= 2 ^ (1 - e))%Z).
    { assert (Hy : q' * 2 ^ (- e) < 2 * 2 ^ (- e)).
      { apply Qmult_lt_r; [exact PI | lra]. }
      assert (Hq : inject_Z m < inject_Z (2 ^ (1 - e) + 1)).
      { rewrite inject_Z_plus, two_pow_Z by lia.
        replace (1 - e)%Z with (- e + 1)%Z by lia. rewrite two_pow_succ.
        change (inject_Z 1) with 1. lra. }
      rewrite <- Zlt_Qlt in Hq. lia. }
    assert (Hov : (Auc64.emax <=? Z.log2 (Z.abs m) + e)%Z = false).
    { apply Z.leb_gt. rewrite Z.abs_eq by exact Hm0.
      pose proof (Z.log2_le_mono _ _ Hmu) as Hl.
      rewrite Z.log2_pow2 in Hl by lia. unfold Auc64.emax. lia. }
    rewrite Hov. cbn [andb].
    exists (Qred (inject_Z m * 2 ^ e)).
    split; [reflexivity|]. rewrite Qred_correct.
    assert (Hu : 2 ^ e <= 2 * Auc64.unit_roundoff).
    { apply Qle_trans with (2 ^ (-52)).
      - apply Qpower_le_compat_l; [exact He | discriminate].
      - vm_compute. discriminate. }
    assert (Eq' : q' * 2 ^ (- e) * 2 ^ e == q').
    { rewrite <- Qmult_assoc, EI. ring. }
    assert (B1 : (q' * 2 ^ (- e) - (1 # 2)) * 2 ^ e <= inject_Z m * 2 ^ e).
    { apply Qmult_le_compat_r; lra. }
    assert (B2 : inject_Z m * 2 ^ e <= (q' * 2 ^ (- e) + (1 # 2)) * 2 ^ e).
    { apply Qmult_le_compat_r; lra. }
    assert (B0 : 0 <= inject_Z m * 2 ^ e).
    { apply Qmult_le_0_compat; [|lra].
      change 0 with (inject_Z 0). now rewrite <- Zle_Qle. }
    set (X := inject_Z m * 2 ^ e) in *.
    set (Y := q' * 2 ^ (- e)) in *. set (E := 2 ^ e) in *.
    assert (B1' : Y * E - (1 # 2) * E <= X) by lra.
    assert (B2' : X <= Y * E + (1 # 2) * E) by lra.
    rewrite Eq' in B1', B2'.
    split; [exact B0|]. split; lra.
Qed.

Lemma Qred_inject_Z (z : Z) : Qred (inject_Z z) = inject_Z z.
Proof.
  unfold Qred, inject_Z.
  pose proof (Z.ggcd_gcd z 1) as Hg.
  pose proof (Z.ggcd_correct_divisors z 1) as Hd.
  destruct (Z.ggcd z 1) as [g [aa bb]]. cbn [fst snd] in *.
  rewrite Z.gcd_1_r in Hg. subst g. destruct Hd as [Ha Hb].
  rewrite Z.mul_1_l in Ha, Hb. now subst.
Qed.

(** Integers below [2^53] are binary64 numbers. *)
Lemma round_int (z : Z) :
  (0 < z < 2 ^ 53)%Z -> Auc64.round (inject_Z z) = Fin (inject_Z z).
Proof.
  intros [Hz0 Hz1]. unfold Auc64.round. rewrite Qred_inject_Z.
  replace (Qeq_bool (inject_Z z) 0) with false.
  2:{ symmetry. apply not_true_is_false. intros E.
      apply Qeq_bool_iff in E. unfold Qeq in E. simpl in E. lia. }
  cbv zeta.
  assert (Hfl : Auc64.ilog2 (Qabs (inject_Z z)) = Z.log2 z).
  { unfold Qabs, inject_Z. rewrite Z.abs_eq by lia.
    unfold Auc64.ilog2. cbn [Qnum Qden]. change (Z.log2 1) with 0%Z.
    rewrite Z.sub_0_r.
    replace (Qle_bool (2 ^ Z.log2 z) (z # 1)) with true; [reflexivity|].
    symmetry. apply Qle_bool_iff. rewrite <- two_pow_Z by apply Z.log2_nonneg.
    change (z # 1) with (inject_Z z). rewrite <- Zle_Qle.
    now apply Z.log2_spec. }
  unfold Auc64.last_place. rewrite Hfl.
  set (a := Z.log2 z).
  assert (Ha : (0 <= a < 53)%Z).
  { split; [apply Z.log2_nonneg|]. apply Z.log2_lt_pow2; lia. }
  replace (Z.max (a - (Auc64.prec - 1)) Auc64.emin) with (a - 52)%Z
    by (unfold Auc64.prec, Auc64.emin; lia).
  set (K := (z * 2 ^ (52 - a))%Z).
  assert (EK : inject_Z z * 2 ^ (- (a - 52)) == inject_Z K).
  { unfold K. rewrite inject_Z_mult, two_pow_Z by lia.
    now replace (- (a - 52))%Z with (52 - a)%Z by lia. }
  rewrite (round_half_even_integer _ K EK).
  assert (HK : (0 < K)%Z) by (unfold K; apply Z.mul_pos_pos; [lia|apply Z.pow_pos_nonneg; lia]).
  replace (Auc64.emax <=? Z.log2 (Z.abs K) + (a - 52))%Z with false.
  2:{ symmetry. apply Z.leb_gt. rewrite Z.abs_eq by lia. unfold K.
      rewrite Z.log2_mul_pow2 by lia. fold a. unfold Auc64.emax. lia. }
  cbn [andb]. f_equal.
  rewrite <- (Qred_inject_Z z). apply Qred_complete.
  rewrite <- EK. rewrite <- Qmult_assoc, <- Qpower_plus by discriminate.
  replace (- (a - 52) + (a - 52))%Z with 0%Z by lia. change (2 ^ 0) with 1. ring.
Qed.

(** *** The float64 run on a finite array *)

Lemma cutoff64_value : Auc64.cutoff = Fin Auc64.cutoff_value.
Proof. vm_compute. reflexivity. Qed.

Lemma fgtb_cutoff64 q :
  fgtb (Fin q) Auc64.cutoff = negb (Qle_bool q Auc64.cutoff_value).
Proof. rewrite cutoff64_value. reflexivity. Qed.

Lemma clamp64_all_above s :
  Forall (fun q => Qle_bool q Auc64.cutoff_value = false) s ->
  Auc64.clamp_cutoff (map Fin s) = repeat PInf (length s).
Proof.
  induction 1 as [|q s Hq Hs IH]; [reflexivity|].
  cbn [map length repeat]. unfold Auc64.clamp_cutoff in *. cbn [map].
  rewrite fgtb_cutoff64, Hq, IH. reflexivity.
Qed.

Lemma clamp64_sorted s :
  StronglySorted Qle s ->
  Auc64.clamp_cutoff (map Fin s) =
  map Fin (Auc64.below_cutoff s)
  ++ repeat PInf (length s - length (Auc64.below_cutoff s)).
Proof.
  induction 1 as [|q s Hs IH Hq]; [reflexivity|].
  cbn [Auc64.below_cutoff].
  destruct (Qle_bool q Auc64.cutoff_value) eqn:E.
  - cbn [map app length Nat.sub]. unfold Auc64.clamp_cutoff in *. cbn [map].
    rewrite fgtb_cutoff64, E, IH. reflexivity.
  - rewrite clamp64_all_above; [simpl; reflexivity|].
    constructor; [exact E|].
    eapply Forall_impl; [|exact Hq]. intros z Hz.
    destruct (Qle_bool z Auc64.cutoff_value) eqn:Ez; [|reflexivity].
    apply Qle_bool_iff in Ez.
    assert (Hc : q <= Auc64.cutoff_value) by (now apply Qle_trans with z).
    apply Qle_bool_iff in Hc. congruence.
Qed.

Lemma below64_length s : (length (Auc64.below_cutoff s) <= length s)%nat.
Proof.
  induction s as [|q s IH]; simpl; [lia|].
  destruct (Qle_bool q Auc64.cutoff_value); simpl; lia.
Qed.

Lemma below64_bound s :
  Forall (fun a => a <= Auc64.cutoff_value) (Auc64.below_cutoff s).
Proof.
  induction s as [|q s IH]; simpl; [constructor|].
  destruct (Qle_bool q Auc64.cutoff_value) eqn:E; constructor; [|exact IH].
  now apply Qle_bool_iff.
Qed.

Lemma below64_dominates sa sb :
  Forall2 Qle sa sb ->
  dominates (Auc64.below_cutoff sa) (Auc64.below_cutoff sb).
Proof.
  induction 1 as [|a b sa sb Hab H IH]; simpl; [constructor|].
  destruct (Qle_bool b Auc64.cutoff_value) eqn:Eb; [|constructor].
  apply Qle_bool_iff in Eb.
  assert (Ha : a <= Auc64.cutoff_value) by (now apply Qle_trans with b).
  apply Qle_bool_iff in Ha. rewrite Ha. now constructor.
Qed.

Lemma below64_incl (s : list Q) a : In a (Auc64.below_cutoff s) -> In a s.
Proof.
  induction s as [|q s IH]; simpl; [auto|].
  destruct (Qle_bool q Auc64.cutoff_value); simpl; [|intros []].
  intros [H|H]; auto.
Qed.

Lemma below64_sorted s :
  StronglySorted Qle s -> StronglySorted Qle (Auc64.below_cutoff s).
Proof.
  induction 1 as [|q s Hs IH Hq]; simpl; [constructor|].
  destruct (Qle_bool q Auc64.cutoff_value); constructor; [exact IH|].
  apply Forall_forall. intros x Hx. rewrite Forall_forall in Hq.
  apply Hq. now apply below64_incl.
Qed.

(** The running sum of ones and the division by the length. *)

Lemma qn_succ k : qn k + 1 == qn (S k).
Proof.
  unfold qn. rewrite Nat2Z.inj_succ, <- Z.add_1_r, inject_Z_plus. reflexivity.
Qed.

Lemma round_qn k :
  (0 < k)%nat -> (Z.of_nat k < 2 ^ 53)%Z -> Auc64.round (qn k) = Fin (qn k).
Proof. intros H0 H1. apply round_int. lia. Qed.

Lemma cumsum64_ones k m :
  (Z.of_nat (k + m) < 2 ^ 53)%Z ->
  Auc64.cumsum_from (Fin (qn k)) (repeat (Fin 1) m) =
  map (fun j => Fin (qn j)) (seq (S k) m).
Proof.
  revert k. induction m as [|m IH]; intros k H; [reflexivity|].
  cbn [repeat Auc64.cumsum_from seq map].
  assert (E : Auc64.fadd64 (Fin (qn k)) (Fin 1) = Fin (qn (S k))).
  { unfold Auc64.fadd64. cbn [fadd Auc64.f64].
    rewrite (round_compat _ _ (qn_succ k)). apply round_qn; lia. }
  rewrite E. f_equal. apply IH. lia.
Qed.

Lemma qn_ratio_bounds k n :
  (k <= n)%nat -> (0 < n)%nat -> 0 <= qn k / qn n /\ qn k / qn n <= 1.
Proof.
  intros Hk Hn. pose proof (qn_pos n Hn) as HN.
  assert (H0 : 0 <= qn k).
  { unfold qn. change 0 with (inject_Z 0). rewrite <- Zle_Qle. lia. }
  assert (H1 : qn k <= qn n).
  { unfold qn. rewrite <- Zle_Qle. lia. }
  split.
  - apply Qle_shift_div_l; [exact HN | lra].
  - apply Qle_shift_div_r; [exact HN | lra].
Qed.

Lemma round_ratio k n :
  (k <= n)%nat -> (0 < n)%nat ->
  Auc64.round (qn k / qn n) = Fin (Auc64.fin_value (Auc64.round (qn k / qn n))).
Proof.
  intros Hk Hn. destruct (qn_ratio_bounds k n Hk Hn) as [H0 H1].
  destruct (round_small (qn k / qn n) H0 ltac:(lra)) as [v [E _]].
  now rewrite E.
Qed.

Lemma accuracy64_values n :
  (0 < n)%nat -> (Z.of_nat n < 2 ^ 53)%Z ->
  map (fun x => Auc64.fdiv64 x (Auc64.f64 (of_nat n)))
      (Auc64.np_cumsum (np_ones n)) =
  map Fin (Auc64.accuracy_values n).
Proof.
  intros H0 H1. destruct n as [|m]; [lia|].
  unfold np_ones. cbn [repeat Auc64.np_cumsum].
  change (Fin 1) with (Fin (qn 1)) at 1 2.
  rewrite cumsum64_ones by lia.
  change (Fin (qn 1) :: map (fun j => Fin (qn j)) (seq 2 m))
    with (map (fun j => Fin (qn j)) (seq 1 (S m))).
  unfold Auc64.accuracy_values. rewrite !map_map.
  apply map_ext_in. intros k Hk. apply in_seq in Hk.
  unfold Auc64.fdiv64, of_nat. fold (qn (S m)). cbn [Auc64.f64].
  rewrite round_qn by lia.
  change (Fin (qn (S m))) with (of_nat (S m)).
  rewrite fdiv_of_nat by lia. cbn [Auc64.f64].
  apply round_ratio; lia.
Qed.

(** The loop over [mpre] computes the running maximum. *)

Lemma set_nth_after_prefix (Pr : list Q) (v : float) x l :
  set_nth (length Pr) v (map Fin (Pr ++ x :: l)) = map Fin Pr ++ v :: map Fin l.
Proof.
  induction Pr as [|a Pr IH]; simpl; [reflexivity | now rewrite IH].
Qed.

Lemma running_max_from (Pre : list Q) (a : Q) (rest : list Q) :
  fold_left
    (fun m i => set_nth i (py_max (nth i m NaN) (nth (i - 1) m NaN)) m)
    (seq (S (length Pre)) (length rest)) (map Fin (Pre ++ a :: rest))
  = map Fin (Pre ++ a :: Auc64.running_max a rest).
Proof.
  revert Pre a. induction rest as [|x xs IH]; intros Pre a; [reflexivity|].
  cbn [length seq fold_left Auc64.running_max].
  replace (S (length Pre) - 1)%nat with (length Pre) by lia.
  rewrite nth_after_prefix.
  pose proof (nth_after_prefix (Pre ++ [a]) x xs) as Hx.
  rewrite length_app, Nat.add_1_r, <- app_assoc in Hx. cbn [app] in Hx.
  rewrite Hx.
  set (y := if Qltb x a then a else x).
  assert (Ey : py_max (Fin x) (Fin a) = Fin y).
  { unfold py_max, y. cbn [fgtb]. now destruct (Qltb x a). }
  rewrite Ey.
  pose proof (set_nth_after_prefix (Pre ++ [a]) (Fin y) x xs) as Hs.
  rewrite length_app, Nat.add_1_r, <- app_assoc in Hs. cbn [app] in Hs.
  rewrite Hs.
  specialize (IH (Pre ++ [a]) y).
  rewrite length_app, Nat.add_1_r in IH.
  rewrite <- !app_assoc in IH. cbn [app] in IH.
  rewrite <- IH. f_equal.
  rewrite !map_app. cbn [map]. now rewrite <- app_assoc.
Qed.

Lemma running_max_loop_value (a : Q) (L : list Q) :
  running_max_loop (map Fin (a :: L)) = map Fin (a :: Auc64.running_max a L).
Proof.
  unfold running_max_loop. rewrite length_map.
  replace (length (a :: L) - 1)%nat with (length L) by (cbn [length]; lia).
  apply (running_max_from [] a L).
Qed.

(** The terms that are summed. *)

Lemma where_take_terms64 (rs ps Pr Pp : list Q) (prev pp : Q) :
  length Pr = length Pp ->
  length rs = length ps ->
  let mrec := map Fin (Pr ++ prev :: rs) in
  let mpre := map Fin (Pp ++ pp :: ps) in
  let ids :=
    map S (where_from (length Pr)
             (map2 fneqb (map Fin rs) (removelast (map Fin (prev :: rs))))) in
  map2 Auc64.fmul64
       (map2 Auc64.fsub64 (take mrec ids) (take mrec (map pred ids)))
       (take mpre ids)
  = Auc64.step_terms prev rs ps.
Proof.
  revert ps Pr Pp prev pp.
  induction rs as [|r rs IH]; intros ps Pr Pp prev pp HP Hl; [reflexivity|].
  destruct ps as [|p ps]; [discriminate|].
  injection Hl as Hl.
  specialize (IH ps (Pr ++ [prev]) (Pp ++ [pp]) r p).
  rewrite !length_app in IH. cbn [length] in IH.
  rewrite !Nat.add_1_r in IH. rewrite <- !app_assoc in IH. cbn [app] in IH.
  specialize (IH (f_equal S HP) Hl). cbn zeta in IH.
  cbn zeta.
  change (removelast (map Fin (prev :: r :: rs)))
    with (Fin prev :: removelast (map Fin (r :: rs))).
  cbn [map map2 where_from Auc64.step_terms].
  change (fneqb (Fin r) (Fin prev)) with (negb (Qeq_bool r prev)).
  destruct (negb (Qeq_bool r prev)).
  - cbn [map take map2 pred app].
    unfold take in IH |- *. cbn [map map2 pred].
    change (map Fin (r :: rs)) with (Fin r :: map Fin rs) in IH.
    rewrite IH. f_equal.
    pose proof (nth_after_prefix (Pr ++ [prev]) r rs) as H1.
    rewrite length_app, Nat.add_1_r, <- app_assoc in H1. cbn [app length] in H1.
    rewrite H1.
    rewrite nth_after_prefix.
    pose proof (nth_after_prefix (Pp ++ [pp]) p ps) as H2.
    rewrite length_app, Nat.add_1_r, <- app_assoc in H2. cbn [app length] in H2.
    rewrite <- HP in H2. rewrite H2. reflexivity.
  - cbn [app]. change (map Fin (r :: rs)) with (Fin r :: map Fin rs) in IH.
    exact IH.
Qed.

Lemma accuracy64_length n : length (Auc64.accuracy_values n) = n.
Proof. unfold Auc64.accuracy_values. now rewrite length_map, length_seq. Qed.

Lemma auc64_finite_eval (A : list Q) :
  Auc64.below_cutoff (qsort A) <> [] ->
  (Z.of_nat (length A) < 2 ^ 53)%Z ->
  let ds := Auc64.below_cutoff (qsort A) in
  let Pk := firstn (length ds) (Auc64.accuracy_values (length A)) in
  Auc64.compute_auc_posecnn (map Fin A) =
  Auc64.fmul64
    (Auc64.np_sum (Auc64.step_terms 0 (ds ++ [Auc64.cutoff_value])
                     (Auc64.running_max 0 (Pk ++ [last Pk 0]))))
    (Fin 10).
Proof.
  intros Hne Hn ds Pk. fold ds in Hne.
  set (n := length A) in *.
  assert (Hk : (1 <= length ds <= n)%nat).
  { split.
    - destruct ds; [congruence | simpl; lia].
    - unfold ds, n. rewrite <- (qsort_length A). apply below64_length. }
  set (m := (n - length ds)%nat).
  set (D := map Fin ds ++ repeat PInf m).
  assert (HD : Auc64.clamp_cutoff (np_sort (map Fin A)) = D).
  { rewrite np_sort_Fin, (clamp64_sorted _ (qsort_sorted A)).
    unfold D, m, ds, n. now rewrite qsort_length. }
  assert (HlD : length D = n).
  { unfold D, m. rewrite length_app, length_map, repeat_length. lia. }
  unfold Auc64.compute_auc_posecnn. cbv zeta. rewrite HD, HlD.
  rewrite accuracy64_values by lia.
  assert (H1 : mask_select D (map isfinite D) = map Fin ds).
  { unfold D. rewrite mask_finite_prefix
      by (rewrite length_app, length_map, repeat_length; lia).
    rewrite <- (length_map Fin ds) at 1.
    now rewrite firstn_app, firstn_all, Nat.sub_diag, app_nil_r. }
  assert (H2 : mask_select (map Fin (Auc64.accuracy_values n))
                 (map isfinite D) = map Fin Pk).
  { unfold D. rewrite mask_finite_prefix
      by (rewrite length_map, accuracy64_length; unfold m; lia).
    now rewrite firstn_map. }
  assert (H3 : count_true (map isfinite D) = length ds).
  { unfold D. apply count_true_prefix. }
  assert (HPk : Pk <> []).
  { intros E. apply (f_equal (@length Q)) in E. unfold Pk in E.
    rewrite length_firstn, accuracy64_length in E. simpl in E. lia. }
  rewrite H1, H2, H3, length_map, HlD.
  replace (n =? 0)%nat with false by (symmetry; apply Nat.eqb_neq; lia).
  replace (length ds =? 0)%nat with false
    by (symmetry; apply Nat.eqb_neq; lia).
  cbn [orb].
  rewrite last_map_Fin by exact HPk.
  change ([Fin 0] ++ map Fin Pk ++ [Fin (last Pk 0)])
    with (Fin 0 :: map Fin Pk ++ map Fin [last Pk 0]).
  rewrite <- map_app.
  change (Fin 0 :: map Fin (Pk ++ [last Pk 0]))
    with (map Fin (0 :: Pk ++ [last Pk 0])).
  rewrite cutoff64_value.
  change ([Fin 0] ++ map Fin ds ++ [Fin Auc64.cutoff_value])
    with (Fin 0 :: map Fin ds ++ map Fin [Auc64.cutoff_value]).
  rewrite <- map_app.
  change (Fin 0 :: map Fin (ds ++ [Auc64.cutoff_value]))
    with (map Fin ([] ++ 0 :: ds ++ [Auc64.cutoff_value])).
  rewrite running_max_loop_value.
  change (map Fin (0 :: Auc64.running_max 0 (Pk ++ [last Pk 0])))
    with (map Fin ([] ++ 0 :: Auc64.running_max 0 (Pk ++ [last Pk 0]))).
  change (tl (map Fin ([] ++ 0 :: ds ++ [Auc64.cutoff_value])))
    with (map Fin (ds ++ [Auc64.cutoff_value])).
  change (removelast (map Fin ([] ++ 0 :: ds ++ [Auc64.cutoff_value])))
    with (removelast (map Fin (0 :: ds ++ [Auc64.cutoff_value]))).
  unfold np_where. change 0%nat with (@length Q []) at 1 2 3.
  rewrite where_take_terms64.
  - reflexivity.
  - reflexivity.
  - assert (Hr : forall a l, length (Auc64.running_max a l) = length l).
    { intros a l. revert a. induction l as [|x l IH]; intros a;
        [reflexivity|]. cbn [Auc64.running_max length]. now rewrite IH. }
    rewrite Hr, !length_app. unfold Pk.
    rewrite length_firstn, accuracy64_length. cbn [length]. lia.
Qed.

(** *** Rounding errors of sums *)

Lemma qn_nonneg k : 0 <= qn k.
Proof. unfold qn. change 0 with (inject_Z 0). rewrite <- Zle_Qle. lia. Qed.

Lemma qn_le j k : (j <= k)%nat -> qn j <= qn k.
Proof. intros H. unfold qn. rewrite <- Zle_Qle. lia. Qed.

Lemma qn_add j k : qn (j + k) == qn j + qn k.
Proof. unfold qn. now rewrite Nat2Z.inj_add, inject_Z_plus. Qed.

Lemma roundoff_pos : 0 < Auc64.unit_roundoff.
Proof. reflexivity. Qed.

(** Up to [2^52] roundoffs stay below one half. *)
Lemma roundoffs_small k :
  (Z.of_nat k <= 2 ^ 52)%Z -> qn k * Auc64.unit_roundoff <= 1 # 2.
Proof.
  intros H.
  assert (Hq : qn k <= inject_Z (2 ^ 52)) by (unfold qn; now rewrite <- Zle_Qle).
  apply Qle_trans with (inject_Z (2 ^ 52) * Auc64.unit_roundoff).
  - apply Qmult_le_compat_r; [exact Hq | discriminate].
  - vm_compute. discriminate.
Qed.

Lemma near_weaken k k' s x : Auc64.near k s x -> (k <= k')%nat -> Auc64.near k' s x.
Proof.
  intros [v [E [H0 [H1 H2]]]] Hk. exists v. split; [exact E|].
  pose proof (qn_le _ _ Hk) as Hq. pose proof roundoff_pos as Hu.
  assert (Hm : qn k * Auc64.unit_roundoff <= qn k' * Auc64.unit_roundoff).
  { apply Qmult_le_compat_r; lra. }
  split; [exact H0|]. split; lra.
Qed.

Lemma near_compat k s s' x : s == s' -> Auc64.near k s x -> Auc64.near k s' x.
Proof.
  intros Es [v [E [H0 [H1 H2]]]]. exists v. split; [exact E|].
  split; [exact H0|]. split; lra.
Qed.

Lemma near_exact v : 0 <= v -> Auc64.near 0 v (Fin v).
Proof.
  intros H. exists v. split; [reflexivity|]. split; [exact H|].
  change (qn 0) with 0. split; lra.
Qed.

Lemma near_add k1 k2 s1 s2 x1 x2 :
  Auc64.near k1 s1 x1 -> Auc64.near k2 s2 x2 ->
  s1 + s2 <= 1 -> (Z.of_nat (k1 + k2) <= 2 ^ 52)%Z ->
  Auc64.near (k1 + k2 + 1) (s1 + s2) (Auc64.fadd64 x1 x2).
Proof.
  intros [v1 [E1 [P1 [L1 U1]]]] [v2 [E2 [P2 [L2 U2]]]] Hs Hk. subst x1 x2.
  pose proof (roundoffs_small _ Hk) as Hr. rewrite qn_add in Hr.
  unfold Auc64.fadd64. cbn [fadd Auc64.f64].
  destruct (round_small (v1 + v2)) as [v [E [P [L U]]]]; [lra | lra |].
  exists v. split; [exact E|]. split; [exact P|].
  rewrite !qn_add. change (qn 1) with 1. split; lra.
Qed.

Lemma qsum_cons x l : qsum (x :: l) = x + qsum l.
Proof. reflexivity. Qed.

Lemma qsum_app l1 l2 : qsum (l1 ++ l2) == qsum l1 + qsum l2.
Proof.
  induction l1 as [|x l1 IH]; cbn [app]; [unfold qsum at 2; simpl; lra|].
  rewrite !qsum_cons, IH. lra.
Qed.

Lemma near_fold (vs : list Q) :
  forall acc k s,
  Auc64.near k s acc -> 0 <= s -> Forall (fun v => 0 <= v) vs ->
  s + qsum vs <= 1 -> (Z.of_nat (k + length vs) <= 2 ^ 52)%Z ->
  Auc64.near (k + length vs) (s + qsum vs) (fold_left Auc64.fadd64 (map Fin vs) acc).
Proof.
  induction vs as [|v vs IH]; intros acc k s Ha Hs Hv Hb Hk.
  - cbn [map fold_left length]. rewrite Nat.add_0_r.
    apply (near_compat k s); [unfold qsum; simpl; lra | exact Ha].
  - inversion Hv as [|? ? Hv0 Hv']; subst. cbv beta in Hv0.
    pose proof (qsum_nonneg vs Hv') as Hq.
    rewrite qsum_cons in Hb. cbn [map fold_left length].
    assert (Hstep : Auc64.near (k + 1) (s + v) (Auc64.fadd64 acc (Fin v))).
    { replace (k + 1)%nat with (k + 0 + 1)%nat by lia.
      apply near_add; [exact Ha | now apply near_exact | lra | lia]. }
    assert (Hs' : 0 <= s + v) by lra.
    assert (Hb' : s + v + qsum vs <= 1) by lra.
    assert (Hk' : (Z.of_nat (k + 1 + length vs) <= 2 ^ 52)%Z)
      by (cbn [length] in Hk; lia).
    specialize (IH _ _ _ Hstep Hs' Hv' Hb' Hk').
    replace (k + S (length vs))%nat with (k + 1 + length vs)%nat by lia.
    apply (near_compat _ (s + v + qsum vs)); [rewrite qsum_cons; lra | exact IH].
Qed.

Lemma qsum_In_le (l : list Q) x :
  Forall (fun v => 0 <= v) l -> In x l -> x <= qsum l.
Proof.
  induction 1 as [|y l Hy Hl IH]; intros Hin; [destruct Hin|].
  cbv beta in Hy. pose proof (qsum_nonneg l Hl) as Hq. rewrite qsum_cons.
  destruct Hin as [->|Hin]; [lra|]. specialize (IH Hin). lra.
Qed.

Lemma qsum_map2_plus (l1 l2 : list Q) :
  length l1 = length l2 -> qsum (map2 Qplus l1 l2) == qsum l1 + qsum l2.
Proof.
  revert l2. induction l1 as [|x l1 IH]; intros [|y l2] H; try discriminate.
  - unfold qsum; simpl; lra.
  - cbn [map2]. rewrite !qsum_cons, IH by (simpl in H; lia). lra.
Qed.

Lemma map2_length {A B C : Type} (f : A -> B -> C) l1 l2 :
  length l1 = length l2 -> length (map2 f l1 l2) = length l1.
Proof.
  revert l2. induction l1 as [|x l1 IH]; intros [|y l2] H; try discriminate;
    [reflexivity|]. cbn [map2 length]. f_equal. apply IH. simpl in H. lia.
Qed.

Lemma map2_plus_nonneg (l1 l2 : list Q) :
  Forall (fun v => 0 <= v) l1 -> Forall (fun v => 0 <= v) l2 ->
  Forall (fun v => 0 <= v) (map2 Qplus l1 l2).
Proof.
  intros H1. revert l2. induction H1 as [|x l1 Hx H1 IH]; intros l2 H2;
    [constructor|].
  destruct H2 as [|y l2 Hy H2]; [constructor|].
  cbn [map2]. constructor; [cbv beta in *; lra | now apply IH].
Qed.

(** One pass of the eight running sums over a block of eight numbers. *)
Lemma lanes_step k (Ss : list Q) (r : list float) (cs : list Q) :
  Forall2 (Auc64.near k) Ss r ->
  Forall (fun v => 0 <= v) Ss -> Forall (fun v => 0 <= v) cs ->
  qsum Ss + qsum cs <= 1 -> (Z.of_nat k <= 2 ^ 52)%Z ->
  Forall2 (Auc64.near (k + 1)) (map2 Qplus Ss cs) (map2 Auc64.fadd64 r (map Fin cs)).
Proof.
  intros HF. revert cs.
  induction HF as [|s x Ss r Hsx HF IH]; intros cs HS HC Hb Hk; [constructor|].
  destruct HC as [|c cs Hc HC]; [constructor|].
  inversion HS as [|? ? Hs0 HS']; subst. cbv beta in Hs0, Hc.
  pose proof (qsum_nonneg Ss HS') as Q1. pose proof (qsum_nonneg cs HC) as Q2.
  rewrite !qsum_cons in Hb.
  cbn [map map2]. constructor.
  - replace (k + 1)%nat with (k + 0 + 1)%nat by lia.
    apply near_add; [exact Hsx | now apply near_exact | lra | lia].
  - apply IH; [exact HS' | exact HC | lra | exact Hk].
Qed.

Lemma firstn_plus {A : Type} (a b : nat) (l : list A) :
  firstn (a + b) l = firstn a l ++ firstn b (skipn a l).
Proof.
  revert l. induction a as [|a IH]; intros l; [reflexivity|].
  destruct l as [|x l]; [now rewrite !firstn_nil|].
  cbn [Nat.add firstn skipn app]. now rewrite IH.
Qed.

Lemma firstn_nonneg (l : list Q) k :
  Forall (fun v => 0 <= v) l -> Forall (fun v => 0 <= v) (firstn k l).
Proof.
  intros H. revert k. induction H as [|x l Hx H IH]; intros [|k];
    cbn [firstn]; constructor; auto.
Qed.

Lemma skipn_nonneg (l : list Q) k :
  Forall (fun v => 0 <= v) l -> Forall (fun v => 0 <= v) (skipn k l).
Proof.
  intros H. revert k. induction H as [|x l Hx H IH]; intros [|k];
    cbn [skipn]; try constructor; auto.
Qed.

Lemma qsum_firstn_skipn (l : list Q) k :
  qsum (firstn k l) + qsum (skipn k l) == qsum l.
Proof. rewrite <- qsum_app. now rewrite firstn_skipn. Qed.

Lemma qsum_firstn_le (l : list Q) k :
  Forall (fun v => 0 <= v) l -> qsum (firstn k l) <= qsum l.
Proof.
  intros H. pose proof (qsum_firstn_skipn l k) as E.
  pose proof (qsum_nonneg _ (skipn_nonneg l k H)). lra.
Qed.

(** The passes over the blocks [1 .. c] of an array, after the first
    block has started the eight running sums. *)
Lemma lanes_loop (vs : list Q) (c : nat) :
  Forall (fun v => 0 <= v) vs -> qsum vs <= 1 ->
  (8 * (c + 1) <= length vs)%nat -> (Z.of_nat c <= 2 ^ 52)%Z ->
  exists Ss,
    Forall2 (Auc64.near c) Ss
      (fold_left (fun r i => map2 Auc64.fadd64 r
                               (firstn 8 (skipn (8 * i) (map Fin vs))))
                 (seq 1 c) (firstn 8 (map Fin vs))) /\
    length Ss = 8%nat /\ Forall (fun v => 0 <= v) Ss /\
    qsum Ss == qsum (firstn (8 * (c + 1)) vs).
Proof.
  intros Hv Hb. induction c as [|c IH]; intros Hl Hk.
  - exists (firstn 8 vs). cbn [seq fold_left]. rewrite firstn_map.
    split; [|split; [|split]].
    + assert (H : Forall (fun v => 0 <= v) (firstn 8 vs))
        by now apply firstn_nonneg.
      induction H as [|x l Hx H IHl]; cbn [map]; constructor;
        [now apply near_exact | exact IHl].
    + rewrite length_firstn. lia.
    + now apply firstn_nonneg.
    + reflexivity.
  - destruct IH as [Ss [HF [HL [HS HQ]]]]; [lia | lia |].
    rewrite seq_S, fold_left_app. cbn [fold_left Nat.add].
    set (cs := firstn 8 (skipn (8 * S c) vs)).
    assert (Ecs : firstn 8 (skipn (8 * S c) (map Fin vs)) = map Fin cs).
    { unfold cs. now rewrite skipn_map, firstn_map. }
    rewrite Ecs.
    assert (Hcs : length cs = 8%nat).
    { unfold cs. rewrite length_firstn, length_skipn. lia. }
    assert (HC : Forall (fun v => 0 <= v) cs).
    { unfold cs. now apply firstn_nonneg, skipn_nonneg. }
    assert (E2 : qsum (firstn (8 * (S c + 1)) vs) == qsum Ss + qsum cs).
    { replace (8 * (S c + 1))%nat with (8 * (c + 1) + 8)%nat by lia.
      rewrite firstn_plus, qsum_app, HQ.
      replace (8 * (c + 1))%nat with (8 * S c)%nat by lia. reflexivity. }
    exists (map2 Qplus Ss cs).
    split; [|split; [|split]].
    + replace (S c) with (c + 1)%nat at 1 by lia.
      apply lanes_step; try assumption; [|lia].
      rewrite <- E2. apply Qle_trans with (qsum vs); [|exact Hb].
      now apply qsum_firstn_le.
    + rewrite map2_length; lia.
    + now apply map2_plus_nonneg.
    + rewrite qsum_map2_plus by lia. now rewrite E2.
Qed.

Ltac near_sum A N M :=
  pose proof (near_add _ _ _ _ _ _ N M) as A;
  match type of A with
  | ?P -> ?Q -> _ =>
      let h1 := fresh in
      let h2 := fresh in
      assert (h1 : P) by lra; assert (h2 : Q) by lia;
      specialize (A h1 h2); clear h1 h2
  end.

(** A block of 8 to 128 numbers. *)
Lemma sum_block_near (vs : list Q) :
  (8 <= length vs)%nat ->
  Forall (fun v => 0 <= v) vs -> qsum vs <= 1 ->
  (Z.of_nat (length vs) <= 2 ^ 52)%Z ->
  Auc64.near (length vs - 1) (qsum vs) (Auc64.sum_block (map Fin vs)).
Proof.
  intros Hn Hv Hb Hk. unfold Auc64.sum_block. cbv zeta. rewrite length_map.
  set (n := length vs) in *.
  pose proof (Nat.div_mod n 8 ltac:(lia)) as Hdm.
  pose proof (Nat.mod_upper_bound n 8 ltac:(lia)) as Hmod.
  set (q := (n / 8)%nat) in *. set (rm := (n mod 8)%nat) in *.
  assert (Ebody : (n - rm = 8 * q)%nat) by lia.
  rewrite Ebody.
  assert (Eq : (8 * q / 8 = q)%nat).
  { rewrite Nat.mul_comm. apply Nat.div_mul. lia. }
  rewrite Eq.
  assert (Hq : (1 <= q)%nat) by lia.
  set (c := (q - 1)%nat).
  destruct (lanes_loop vs c Hv Hb) as [Ss [HF [HL [HS HQ]]]];
    [unfold c; fold n; lia | unfold c; lia |].
  replace (8 * (c + 1))%nat with (8 * q)%nat in HQ by (unfold c; lia).
  match type of HF with Forall2 _ _ ?t => remember t as r eqn:Er end.
  clear Er.
  destruct Ss as [|s0 [|s1 [|s2 [|s3 [|s4 [|s5 [|s6 [|s7 [|? ?]]]]]]]]];
    try discriminate HL.
  inversion HF as [|? x0 ? r0 N0 F0]; subst.
  inversion F0 as [|? x1 ? r1 N1 F1]; subst.
  inversion F1 as [|? x2 ? r2 N2 F2]; subst.
  inversion F2 as [|? x3 ? r3 N3 F3]; subst.
  inversion F3 as [|? x4 ? r4 N4 F4]; subst.
  inversion F4 as [|? x5 ? r5 N5 F5]; subst.
  inversion F5 as [|? x6 ? r6 N6 F6]; subst.
  inversion F6 as [|? x7 ? r7 N7 F7]; subst.
  inversion F7; subst.
  cbn [nth].
  assert (P : 0 <= s0 /\ 0 <= s1 /\ 0 <= s2 /\ 0 <= s3 /\
              0 <= s4 /\ 0 <= s5 /\ 0 <= s6 /\ 0 <= s7).
  { repeat match goal with
           | H : Forall _ (_ :: _) |- _ => inversion H; subst; clear H
           end. cbv beta in *. tauto. }
  destruct P as [P0 [P1 [P2 [P3 [P4 [P5 [P6 P7]]]]]]].
  pose proof (qsum_firstn_le vs (8 * q) Hv) as Hle.
  rewrite <- HQ in Hle. rewrite !qsum_cons in Hle, HQ.
  change (qsum []) with 0 in Hle, HQ.
  assert (Hc : (Z.of_nat (8 * c + 8) <= 2 ^ 52)%Z) by (unfold c; lia).
  near_sum A01 N0 N1. near_sum A23 N2 N3.
  near_sum A45 N4 N5. near_sum A67 N6 N7.
  near_sum A03 A01 A23. near_sum A47 A45 A67.
  near_sum A07 A03 A47.
  rewrite skipn_map.
  set (tl := skipn (8 * q) vs).
  assert (Htl : length tl = rm).
  { unfold tl. rewrite length_skipn. fold n. lia. }
  pose proof (qsum_firstn_skipn vs (8 * q)) as Esplit. fold tl in Esplit.
  pose proof (qsum_nonneg tl (skipn_nonneg vs (8 * q) Hv)) as Htl0.
  set (S8 := s0 + s1 + (s2 + s3) + (s4 + s5 + (s6 + s7))) in *.
  assert (ES : S8 + qsum tl == qsum vs).
  { rewrite <- Esplit, <- HQ. unfold S8. ring. }
  eapply near_weaken.
  - apply (near_compat _ (S8 + qsum tl)); [exact ES|].
    apply near_fold.
    + exact A07.
    + unfold S8. lra.
    + now apply skipn_nonneg.
    + rewrite ES. exact Hb.
    + rewrite Htl. unfold c. lia.
  - rewrite Htl. unfold c. lia.
Qed.

(** [a.sum()] on non-negative numbers: fewer than two roundoffs per
    number. *)
Lemma pairwise_sum_near (fuel : nat) :
  forall vs : list Q,
  (length vs <= fuel)%nat ->
  Forall (fun v => 0 <= v) vs -> qsum vs <= 1 ->
  (Z.of_nat (2 * length vs) <= 2 ^ 52)%Z ->
  Auc64.near (2 * length vs - 1) (qsum vs) (Auc64.pairwise_sum fuel (map Fin vs)).
Proof.
  induction fuel as [|fuel IH]; intros vs Hf Hv Hb Hk.
  - destruct vs; [|simpl in Hf; lia]. cbn. now apply near_exact.
  - cbn [Auc64.pairwise_sum]. rewrite length_map.
    destruct (length vs <? 8)%nat eqn:E8.
    + apply Nat.ltb_lt in E8.
      eapply near_weaken.
      * apply (near_compat _ (0 + qsum vs)); [lra|].
        apply near_fold; [now apply near_exact | lra | exact Hv | lra | lia].
      * destruct vs; simpl; lia.
    + apply Nat.ltb_ge in E8.
      destruct (length vs <=? 128)%nat eqn:E128.
      * eapply near_weaken; [apply sum_block_near; try assumption; lia | lia].
      * apply Nat.leb_gt in E128.
        set (n := length vs) in *.
        set (n2 := (n / 2 - (n / 2) mod 8)%nat).
        pose proof (Nat.div_mod n 2 ltac:(lia)) as Hdm.
        pose proof (Nat.mod_upper_bound n 2 ltac:(lia)) as Hm2.
        pose proof (Nat.mod_upper_bound (n / 2) 8 ltac:(lia)) as Hm8.
        assert (Hn2 : (1 <= n2 /\ n2 < n)%nat) by (unfold n2; lia).
        rewrite firstn_map, skipn_map.
        assert (L1 : length (firstn n2 vs) = n2)
          by (rewrite length_firstn; fold n; lia).
        assert (L2 : length (skipn n2 vs) = (n - n2)%nat)
          by (rewrite length_skipn; reflexivity).
        pose proof (qsum_firstn_skipn vs n2) as Es.
        pose proof (qsum_nonneg _ (firstn_nonneg vs n2 Hv)) as Q1.
        pose proof (qsum_nonneg _ (skipn_nonneg vs n2 Hv)) as Q2.
        assert (N1 := IH (firstn n2 vs)). rewrite L1 in N1.
        assert (N2 := IH (skipn n2 vs)). rewrite L2 in N2.
        specialize (N1 ltac:(lia) (firstn_nonneg vs n2 Hv) ltac:(lra) ltac:(lia)).
        specialize (N2 ltac:(lia) (skipn_nonneg vs n2 Hv) ltac:(lra) ltac:(lia)).
        eapply near_weaken.
        -- apply (near_compat _ (qsum (firstn n2 vs) + qsum (skipn n2 vs)));
             [exact Es|].
           apply near_add; [exact N1 | exact N2 | lra | lia].
        -- lia.
Qed.

Lemma np_sum64_near (vs : list Q) :
  Forall (fun v => 0 <= v) vs -> qsum vs <= 1 ->
  (Z.of_nat (2 * length vs) <= 2 ^ 52)%Z ->
  Auc64.near (2 * length vs) (qsum vs) (Auc64.np_sum (map Fin vs)).
Proof.
  intros Hv Hb Hk. unfold Auc64.np_sum. rewrite length_map.
  eapply near_weaken; [apply pairwise_sum_near; try assumption; lia | lia].
Qed.

(** *** Rounding errors of the accuracy values and of the terms *)

Lemma accuracy_close (n : nat) :
  (0 < n)%nat ->
  forall (m z : nat) (c : Q),
  c == qn z -> (z + m <= n)%nat ->
  Forall2 Auc64.close
    (map (fun j => Auc64.fin_value (Auc64.round (qn j / qn n))) (seq (S z) m))
    (map (fun x => x / qn n) (qcount c m)).
Proof.
  intros Hn. induction m as [|m IH]; intros z c Hc Hz; [constructor|].
  cbn [seq map qcount]. constructor.
  - destruct (qn_ratio_bounds (S z) n ltac:(lia) Hn) as [H0 H1].
    destruct (round_small (qn (S z) / qn n) H0 ltac:(lra)) as [v [E [P [L U]]]].
    rewrite E. cbn [Auc64.fin_value].
    assert (Ec : (c + 1) / qn n == qn (S z) / qn n).
    { rewrite Hc, qn_succ. reflexivity. }
    unfold Auc64.close. rewrite Ec. repeat split; assumption.
  - apply IH; [|lia]. rewrite Hc. apply qn_succ.
Qed.

Lemma running_max_close (L I : list Q) :
  Forall2 Auc64.close L I ->
  forall a ia,
  Sorted Qle (ia :: I) -> 0 <= a ->
  ia - Auc64.unit_roundoff <= a -> a <= ia + Auc64.unit_roundoff ->
  Forall2 Auc64.close (Auc64.running_max a L) I.
Proof.
  induction 1 as [|x i L I Hxi HF IH]; intros a ia HS Ha La Ua;
    [constructor|].
  inversion HS as [|? ? HS' Hd]; subst. inversion Hd as [|? ? Hle]; subst.
  unfold Auc64.close in Hxi. destruct Hxi as [I0 [I1 [X0 [LX UX]]]].
  cbn [Auc64.running_max].
  assert (Hy : Auc64.close (if Qltb x a then a else x) i).
  { unfold Qltb. destruct (Qle_bool a x) eqn:E; cbn [negb].
    - repeat split; assumption.
    - apply Qle_bool_false in E. repeat split; try assumption; lra. }
  constructor; [exact Hy|].
  destruct Hy as [_ [_ [Y0 [LY UY]]]].
  now apply (IH _ i).
Qed.

Lemma Forall2_last {A B : Type} (R : A -> B -> Prop) l1 l2 d1 d2 :
  Forall2 R l1 l2 -> l1 <> [] -> R (last l1 d1) (last l2 d2).
Proof.
  induction 1 as [|x y l1 l2 Hxy HF IH]; intros Hne; [congruence|].
  destruct HF as [|x' y' l1 l2 Hxy' HF]; [exact Hxy|].
  change (R (last (x' :: l1) d1) (last (y' :: l2) d2)).
  apply IH. discriminate.
Qed.

Lemma product_bound (x y a b : Q) :
  - a <= x -> x <= a -> - b <= y -> y <= b ->
  - (a * b) <= x * y /\ x * y <= a * b.
Proof.
  intros X1 X2 Y1 Y2. apply Qabs_Qle_condition. rewrite Qabs_Qmult.
  apply Qmult_le_compat_nonneg.
  - split; [apply Qabs_nonneg|]. apply Qabs_Qle_condition. split; assumption.
  - split; [apply Qabs_nonneg|]. apply Qabs_Qle_condition. split; assumption.
Qed.

(** One term [(r - prev) * p]: two roundings, of the difference and of
    the product, and the rounding already in [p]. *)
Lemma term_near (r prev m i : Q) :
  0 <= prev -> prev <= r -> r <= 1 -> Auc64.close m i ->
  exists v,
    Auc64.fmul64 (Auc64.fsub64 (Fin r) (Fin prev)) (Fin m) = Fin v /\
    0 <= v /\
    (r - prev) * i - 4 * Auc64.unit_roundoff <= v /\
    v <= (r - prev) * i + 4 * Auc64.unit_roundoff.
Proof.
  intros Hp Hr H1 [I0 [I1 [M0 [LM UM]]]].
  pose proof roundoff_pos as Hu.
  assert (Hu1 : Auc64.unit_roundoff <= 1 # 4) by (vm_compute; discriminate).
  unfold Auc64.fmul64, Auc64.fsub64, fsub. cbn [fneg fadd Auc64.f64].
  destruct (round_small (r + - prev)) as [d [Ed [D0 [LD UD]]]]; [lra | lra |].
  rewrite Ed. cbn [fmul Auc64.f64].
  set (u := Auc64.unit_roundoff) in *.
  set (D := r - prev) in *.
  assert (HD0 : 0 <= D) by (unfold D; lra).
  assert (HD1 : D <= 1) by (unfold D; lra).
  assert (LD' : D - u <= d) by (unfold D; lra).
  assert (UD' : d <= D + u) by (unfold D; lra).
  destruct (product_bound D (m - i) 1 u) as [A1 A2]; try lra.
  destruct (product_bound (d - D) i u 1) as [B1 B2]; try lra.
  destruct (product_bound (d - D) (m - i) u u) as [C1 C2]; try lra.
  assert (Uu : u * u <= (1 # 4) * u) by (apply Qmult_le_compat_r; lra).
  assert (E : d * m == D * i + D * (m - i) + (d - D) * i + (d - D) * (m - i))
    by ring.
  assert (Di : 0 <= D * i <= 1).
  { split; [apply Qmult_le_0_compat; lra|].
    apply Qle_trans with (1 * 1); [|lra].
    apply Qmult_le_compat_nonneg; split; lra. }
  assert (P0 : 0 <= d * m) by (apply Qmult_le_0_compat; lra).
  destruct (round_small (d * m)) as [v [Ev [V0 [LV UV]]]]; [lra | lra |].
  fold u in LV, UV.
  exists v. split; [exact Ev|]. split; [exact V0|]. split; lra.
Qed.

Lemma step_terms64_near (rs : list Q) :
  forall (prev : Q) (M I : list Q),
  Forall2 Auc64.close M I -> 0 <= prev ->
  Sorted Qle (prev :: rs) -> Forall (fun r => r <= 1) rs ->
  exists vs,
    Auc64.step_terms prev rs M = map Fin vs /\
    Forall (fun v => 0 <= v) vs /\
    (length vs <= length rs)%nat /\
    step_sum prev rs I - 4 * qn (length rs) * Auc64.unit_roundoff <= qsum vs /\
    qsum vs <= step_sum prev rs I + 4 * qn (length rs) * Auc64.unit_roundoff.
Proof.
  pose proof roundoff_pos as Hu.
  induction rs as [|r rs IH]; intros prev M I HF Hp HS H1.
  - exists []. cbn [Auc64.step_terms step_sum length]. change (qn 0) with 0.
    change (qsum []) with 0.
    split; [reflexivity|]. split; [constructor|].
    split; [lia|]. split; lra.
  - inversion HS as [|? ? HS' Hd]; subst. inversion Hd as [|? ? Hle]; subst.
    inversion H1 as [|? ? Hr1 H1']; subst. cbv beta in Hr1.
    pose proof (qn_nonneg (length rs)) as Hq.
    assert (Hqu : 0 <= qn (length rs) * Auc64.unit_roundoff)
      by (apply Qmult_le_0_compat; lra).
    assert (Eq : qn (length (r :: rs)) == qn (length rs) + 1).
    { cbn [length]. now rewrite <- qn_succ. }
    destruct HF as [|m i M I Hmi HF].
    + exists []. cbn [Auc64.step_terms step_sum]. change (qsum []) with 0.
      rewrite Eq.
      split; [reflexivity|]. split; [constructor|].
      split; [cbn [length]; lia|]. split; lra.
    + destruct (IH r M I HF ltac:(lra) HS' H1')
        as [vs [Evs [Pvs [Lvs [Lo Up]]]]].
      cbn [Auc64.step_terms step_sum]. rewrite Evs.
      destruct (Qeq_bool r prev) eqn:E; cbn [negb app].
      * apply Qeq_bool_iff in E.
        exists vs. split; [reflexivity|]. split; [exact Pvs|].
        split; [cbn [length]; lia|].
        assert (Z : (r - prev) * i == 0) by (rewrite E; ring).
        rewrite Eq, Z. split; lra.
      * destruct (term_near r prev m i Hp Hle Hr1 Hmi)
          as [v [Ev [V0 [LV UV]]]].
        rewrite Ev. exists (v :: vs).
        split; [reflexivity|]. split; [now constructor|].
        split; [cbn [length]; lia|].
        rewrite qsum_cons, Eq. split; lra.
Qed.

(** *** The score without rounding *)

Lemma auc64_nan_below_cutoff_nil (B : list Q) :
  Auc64.below_cutoff (qsort B) = [] ->
  Auc64.compute_auc_posecnn (map Fin B) = NaN.
Proof.
  intros E. unfold Auc64.compute_auc_posecnn. cbv zeta.
  rewrite np_sort_Fin, (clamp64_sorted _ (qsort_sorted B)), E.
  cbn [map app length Nat.sub].
  rewrite count_true_none.
  - simpl (0 =? 0)%nat. now rewrite orb_true_r.
  - apply Forall_forall. intros x Hx. apply repeat_spec in Hx. now subst x.
Qed.

Lemma cutoff_value_bounds : 0 < Auc64.cutoff_value /\ Auc64.cutoff_value <= 11 # 100.
Proof. split; [reflexivity | vm_compute; discriminate]. Qed.

Lemma exact_score_closed (A : list Q) :
  Auc64.below_cutoff (qsort A) <> [] ->
  qn (length A) * Auc64.exact_score A ==
  10 * (Auc64.cutoff_value
        + qsum (map (fun d => Auc64.cutoff_value - d)
                    (removelast (Auc64.below_cutoff (qsort A))))).
Proof.
  intros Hne. unfold Auc64.exact_score. cbv zeta.
  set (ds := Auc64.below_cutoff (qsort A)) in *.
  assert (Hk : (1 <= length ds <= length A)%nat).
  { split.
    - destruct ds; [congruence | simpl; lia].
    - unfold ds. rewrite <- (qsort_length A). apply below64_length. }
  assert (HN : 0 < qn (length A)) by (apply qn_pos; lia).
  rewrite Qmult_assoc.
  rewrite (step_sum_closed (qn (length A)) Auc64.cutoff_value ds).
  - ring.
  - intros E. rewrite E in HN. now apply Qlt_irrefl in HN.
  - lia.
Qed.

Lemma qsum_gap_bounds (t : Q) (l : list Q) :
  Forall (fun d => 0 <= d /\ d <= t) l ->
  0 <= qsum (map (fun d => t - d) l) /\
  qsum (map (fun d => t - d) l) <= t * qn (length l).
Proof.
  induction 1 as [|d l [H0 H1] Hl [IH0 IH1]].
  - change (qsum (map (fun d => t - d) [])) with 0. change (qn (length [])) with 0.
    split; lra.
  - cbn [map length]. rewrite qsum_cons.
    assert (E : qn (S (length l)) == qn (length l) + 1) by now rewrite qn_succ.
    rewrite E. split; lra.
Qed.

(** For non-negative errors the exact integral lies between 0 and the
    cutoff. *)
Lemma exact_integral_bounds (A : list Q) :
  Forall (fun a => 0 <= a) A ->
  Auc64.below_cutoff (qsort A) <> [] ->
  0 <= Auc64.exact_score A /\ Auc64.exact_score A <= 10 * Auc64.cutoff_value.
Proof.
  intros Hpos Hne. pose proof (exact_score_closed A Hne) as E.
  set (ds := Auc64.below_cutoff (qsort A)) in *.
  assert (Hb : Forall (fun d => 0 <= d /\ d <= Auc64.cutoff_value)
                      (removelast ds)).
  { apply Forall_forall. intros d Hd. apply In_removelast in Hd. split.
    - rewrite Forall_forall in Hpos. apply Hpos, qsort_In.
      now apply below64_incl.
    - pose proof (below64_bound (qsort A)) as Hc.
      rewrite Forall_forall in Hc. now apply Hc. }
  destruct (qsum_gap_bounds _ _ Hb) as [S0 S1].
  assert (Hk : (S (length (removelast ds)) <= length A)%nat).
  { rewrite removelast_length by exact Hne. unfold ds.
    rewrite <- (qsort_length A). apply below64_length. }
  assert (Hq : qn (length (removelast ds)) + 1 <= qn (length A)).
  { rewrite qn_succ. apply qn_le. lia. }
  assert (HN : 0 < qn (length A)) by (apply qn_pos; lia).
  destruct cutoff_value_bounds as [C0 C1].
  set (c := Auc64.cutoff_value) in *. set (N := qn (length A)) in *.
  set (X := Auc64.exact_score A) in *.
  set (G := qsum (map (fun d => c - d) (removelast ds))) in *.
  set (K := qn (length (removelast ds))) in *.
  assert (CK : c * K + c <= c * N).
  { setoid_replace (c * K + c) with (c * (K + 1)) by ring.
    apply Qmult_le_l; assumption. }
  split.
  - assert (H : N * 0 <= N * X) by (rewrite E; lra).
    apply Qmult_le_l in H; assumption.
  - assert (H : N * X <= N * (10 * c)).
    { rewrite E. setoid_replace (N * (10 * c)) with (10 * (c * N)) by ring. lra. }
    apply Qmult_le_l in H; assumption.
Qed.

(** Without rounding the score is monotone. *)
Lemma exact_score_monotone (A B : list Q) :
  length A = length B ->
  Forall2 Qle (qsort A) (qsort B) ->
  Auc64.below_cutoff (qsort B) <> [] ->
  Auc64.below_cutoff (qsort A) <> [] /\
  Auc64.exact_score B <= Auc64.exact_score A.
Proof.
  intros Hlen Hle HneB.
  pose proof (below64_dominates _ _ Hle) as Hdom.
  assert (HneA : Auc64.below_cutoff (qsort A) <> []).
  { inversion Hdom; [congruence | discriminate]. }
  split; [exact HneA|].
  pose proof (exact_score_closed A HneA) as EA.
  pose proof (exact_score_closed B HneB) as EB.
  pose proof (dominates_sum Auc64.cutoff_value _ _ Hdom (below64_bound _) HneB)
    as Hsum.
  rewrite <- Hlen in EB.
  assert (HN : 0 < qn (length A)).
  { apply qn_pos. destruct A; [now elim HneA | simpl; lia]. }
  assert (H : qn (length A) * Auc64.exact_score B
              <= qn (length A) * Auc64.exact_score A).
  { rewrite EA, EB. lra. }
  apply Qmult_le_l in H; assumption.
Qed.

(** *** The float64 score against the exact score *)

Lemma sorted_between (l : list Q) :
  StronglySorted Qle l ->
  forall a c,
  Forall (fun x => a <= x) l -> Forall (fun x => x <= c) l -> a <= c ->
  Sorted Qle (a :: l ++ [c]).
Proof.
  induction 1 as [|x l Hl IH Hx]; intros a c Ha Hc Hac.
  - cbn [app]. repeat constructor. exact Hac.
  - inversion Ha as [|? ? Hax Ha']; subst.
    inversion Hc as [|? ? Hxc Hc']; subst. cbv beta in Hax, Hxc.
    cbn [app]. constructor; [|constructor; exact Hax].
    apply IH; assumption.
Qed.

Lemma firstn_seq_prefix (k a n : nat) :
  (k <= n)%nat -> firstn k (seq a n) = seq a k.
Proof.
  revert a n. induction k as [|k IH]; intros a n H; [reflexivity|].
  destruct n as [|n]; [lia|]. cbn [seq firstn]. f_equal. apply IH. lia.
Qed.

Lemma roundoffs_tiny k :
  (Z.of_nat k <= 2 ^ 41)%Z -> qn k * Auc64.unit_roundoff <= 1 # 4096.
Proof.
  intros H.
  assert (Hq : qn k <= inject_Z (2 ^ 41)) by (unfold qn; now rewrite <- Zle_Qle).
  apply Qle_trans with (inject_Z (2 ^ 41) * Auc64.unit_roundoff).
  - apply Qmult_le_compat_r; [exact Hq | discriminate].
  - vm_compute. discriminate.
Qed.

Lemma running_max_nil_or_length a l :
  length (Auc64.running_max a l) = length l.
Proof.
  revert a. induction l as [|x l IH]; intros a; [reflexivity|].
  cbn [Auc64.running_max length]. now rewrite IH.
Qed.

(** On non-negative errors the float64 score is a number within the
    tolerance of the exact score. *)
Lemma float64_score_near (A : list Q) :
  Forall (fun a => 0 <= a) A ->
  Auc64.below_cutoff (qsort A) <> [] ->
  (Z.of_nat (length A) <= 2 ^ 40)%Z ->
  exists x,
    Auc64.compute_auc_posecnn (map Fin A) = Fin x /\
    Auc64.exact_score A - Auc64.tolerance (length A) <= x /\
    x <= Auc64.exact_score A + Auc64.tolerance (length A).
Proof.
  intros Hpos Hne Hlen.
  rewrite auc64_finite_eval by (assumption || lia). cbv zeta.
  destruct (exact_integral_bounds A Hpos Hne) as [X0 X1].
  unfold Auc64.exact_score in X0, X1 |- *. cbv zeta in X0, X1 |- *.
  set (ds := Auc64.below_cutoff (qsort A)) in *.
  set (n := length A) in *.
  assert (Hk : (1 <= length ds <= n)%nat).
  { split.
    - destruct ds; [congruence | simpl; lia].
    - unfold ds, n. rewrite <- (qsort_length A). apply below64_length. }
  assert (Hn : (0 < n)%nat) by lia.
  set (Pk := firstn (length ds) (Auc64.accuracy_values n)).
  set (P := map (fun c => c / qn n) (1 :: qcount 1 (length ds - 1))) in *.
  destruct cutoff_value_bounds as [C0 C1].
  pose proof roundoff_pos as Hu.
  (* the accuracy values *)
  assert (HPk : Forall2 Auc64.close Pk P).
  { unfold Pk, P, Auc64.accuracy_values.
    rewrite firstn_map, firstn_seq_prefix by lia.
    destruct (length ds) as [|k'] eqn:Ek; [lia|].
    replace (S k' - 1)%nat with k' by lia.
    change (1 :: qcount 1 k') with (qcount 0 (S k')).
    apply accuracy_close; [exact Hn | reflexivity | lia]. }
  assert (HPne : Pk <> []).
  { intros E. apply (f_equal (@length Q)) in E. unfold Pk in E.
    rewrite length_firstn, accuracy64_length in E. simpl in E. lia. }
  assert (HL : Forall2 Auc64.close (Pk ++ [last Pk 0]) (P ++ [last P 0])).
  { apply Forall2_app; [exact HPk|]. constructor; [|constructor].
    now apply Forall2_last. }
  assert (HI : Sorted Qle (0 :: P ++ [last P 0])).
  { constructor.
    - apply accuracy_curve_sorted. now apply qn_pos.
    - unfold P. cbn [map app]. constructor.
      unfold Qdiv. apply Qmult_le_0_compat; [lra|].
      apply Qlt_le_weak, Qinv_lt_0_compat, qn_pos. exact Hn. }
  pose proof (running_max_close _ _ HL 0 0 HI ltac:(lra) ltac:(lra) ltac:(lra))
    as HM.
  (* the terms *)
  assert (HS : Sorted Qle (0 :: ds ++ [Auc64.cutoff_value])).
  { apply sorted_between.
    - apply below64_sorted, qsort_sorted.
    - apply Forall_forall. intros x Hx. rewrite Forall_forall in Hpos.
      apply Hpos, qsort_In. now apply below64_incl.
    - apply below64_bound.
    - lra. }
  assert (H1 : Forall (fun r => r <= 1) (ds ++ [Auc64.cutoff_value])).
  { apply Forall_app. split.
    - eapply Forall_impl; [|apply below64_bound]. intros x Hx. cbv beta in Hx. lra.
    - constructor; [lra | constructor]. }
  destruct (step_terms64_near _ 0 _ _ HM ltac:(lra) HS H1)
    as [vs [Evs [Pvs [Lvs [Lo Up]]]]].
  rewrite Evs.
  set (S := step_sum 0 (ds ++ [Auc64.cutoff_value]) (P ++ [last P 0])) in *.
  set (L := length (ds ++ [Auc64.cutoff_value])) in *.
  assert (HLn : (L <= n + 1)%nat).
  { unfold L. rewrite length_app. cbn [length]. lia. }
  pose proof (roundoffs_tiny L ltac:(lia)) as HLu.
  pose proof (qn_nonneg L) as HL0.
  set (u := Auc64.unit_roundoff) in *.
  assert (HLu0 : 0 <= qn L * u) by (apply Qmult_le_0_compat; lra).
  (* the sum *)
  assert (Hsum : qsum vs <= 1) by lra.
  destruct (np_sum64_near vs Pvs Hsum ltac:(lia)) as [s [Es [S0 [LS US]]]].
  fold u in LS, US.
  rewrite Es.
  assert (Hv : qn (2 * length vs) * u <= 2 * (qn L * u)).
  { assert (E2 : qn (2 * length vs) == 2 * qn (length vs)).
    { replace (2 * length vs)%nat with (length vs + length vs)%nat by lia.
      rewrite qn_add. ring. }
    rewrite E2.
    assert (Hq : qn (length vs) * u <= qn L * u).
    { apply Qmult_le_compat_r; [now apply qn_le | lra]. }
    lra. }
  (* the final product *)
  unfold Auc64.fmul64. cbn [fmul Auc64.f64].
  destruct (round_small (s * 10)) as [x [Ex [X0' [LX UX]]]]; [lra | lra |].
  fold u in LX, UX.
  exists x. split; [exact Ex|].
  assert (HT : 60 * (qn L * u) + u <= Auc64.tolerance n).
  { unfold Auc64.tolerance. fold u.
    assert (Hq : qn L <= qn n + 1).
    { setoid_replace (qn n + 1) with (qn (n + 1)) by (rewrite qn_add; reflexivity).
      now apply qn_le. }
    assert (Hm : qn L * u <= (qn n + 1) * u)
      by (apply Qmult_le_compat_r; lra).
    lra. }
  split; lra.
Qed.

(** C5.  In float64 the score is monotone up to rounding.  For two arrays
    of non-negative finite errors of equal length [n] (at most [2^40]),
    the i-th smallest error of [A] at most the i-th smallest error of
    [B], and the score of [B] defined: both float64 scores are numbers,
    each within [(60 n + 61) * 2^-53] of the score computed without
    rounding; the scores without rounding are in order; so the float64
    score of [A] is at least that of [B] minus twice that tolerance. *)
Theorem auc_monotone_up_to_rounding (A B : list Q) :
  length A = length B ->
  (Z.of_nat (length A) <= 2 ^ 40)%Z ->
  Forall (fun a => 0 <= a) A ->
  Forall (fun b => 0 <= b) B ->
  Forall2 (fun a b => fleb a b = true)
          (np_sort (map Fin A)) (np_sort (map Fin B)) ->
  Auc64.compute_auc_posecnn (map Fin B) <> NaN ->
  exists x y,
    Auc64.compute_auc_posecnn (map Fin A) = Fin x /\
    Auc64.compute_auc_posecnn (map Fin B) = Fin y /\
    Qabs (x - Auc64.exact_score A) <= Auc64.tolerance (length A) /\
    Qabs (y - Auc64.exact_score B) <= Auc64.tolerance (length A) /\
    Auc64.exact_score B <= Auc64.exact_score A /\
    y - 2 * Auc64.tolerance (length A) <= x.
Proof.
  intros Hlen Hn HA HB Hle HBdef.
  rewrite !np_sort_Fin in Hle. apply Forall2_fleb_Fin in Hle.
  assert (HneB : Auc64.below_cutoff (qsort B) <> []).
  { intros E. apply HBdef. now apply auc64_nan_below_cutoff_nil. }
  destruct (exact_score_monotone A B Hlen Hle HneB) as [HneA Hex].
  destruct (float64_score_near A HA HneA Hn) as [x [Ex [Lx Ux]]].
  destruct (float64_score_near B HB HneB ltac:(lia)) as [y [Ey [Ly Uy]]].
  rewrite <- Hlen in Ly, Uy.
  exists x, y. split; [exact Ex|]. split; [exact Ey|].
  split; [apply Qabs_Qle_condition; split; lra|].
  split; [apply Qabs_Qle_condition; split; lra|].
  split; [exact Hex | lra].
Qed.

Lemma auc_monotone_up_to_rounding_witness :
  let A := [5764607523034235 # 1152921504606846976;
            3602879701896397 # 18014398509481984;
            3602879701896397 # 18014398509481984] in
  let B := [3602879701896397 # 36028797018963968;
            3602879701896397 # 18014398509481984;
            3602879701896397 # 18014398509481984] in
  exists x y,
    Auc64.compute_auc_posecnn (map Fin A) = Fin x /\
    Auc64.compute_auc_posecnn (map Fin B) = Fin y /\
    Qabs (x - Auc64.exact_score A) <= Auc64.tolerance (length A) /\
    Qabs (y - Auc64.exact_score B) <= Auc64.tolerance (length A) /\
    Auc64.exact_score B <= Auc64.exact_score A /\
    y - 2 * Auc64.tolerance (length A) <= x.
Proof.
  cbv zeta.
  apply (auc_monotone_up_to_rounding
           [5764607523034235 # 1152921504606846976;
            3602879701896397 # 18014398509481984;
            3602879701896397 # 18014398509481984]
           [3602879701896397 # 36028797018963968;
            3602879701896397 # 18014398509481984;
            3602879701896397 # 18014398509481984]).
  - reflexivity.
  - vm_compute. discriminate.
  - repeat constructor; discriminate.
  - repeat constructor; discriminate.
  - vm_compute. repeat constructor.
  - vm_compute. discriminate.
Defined.

End AucFacts.

(** ** Facts about the array model *)

Module NpFacts.
Import Np.

Local Open Scope nat_scope.

Lemma ravel_lt idx s : valid_index idx s -> ravel s idx < prod s.
Proof.
  induction 1 as [|i d idx s Hi H IH]; simpl; [lia|].
  fold (prod s). nia.
Qed.

Lemma unravel_ravel idx s :
  valid_index idx s -> unravel s (ravel s idx) = idx.
Proof.
  induction 1 as [|i d idx s Hi H IH]; simpl; [reflexivity|].
  pose proof (ravel_lt idx s H) as Hr. fold (prod s).
  assert (Hp : prod s <> 0) by lia.
  rewrite Nat.div_add_l by exact Hp.
  rewrite (Nat.div_small _ _ Hr), Nat.add_0_r.
  rewrite Nat.add_comm, Nat.Div0.mod_add, (Nat.mod_small _ _ Hr).
  now rewrite IH.
Qed.

Lemma tabulate_shape {A} s (f : list nat -> A) : shape (tabulate s f) = s.
Proof. reflexivity. Qed.

Lemma tabulate_wf {A} s (f : list nat -> A) : wf (tabulate s f).
Proof. unfold wf, size, tabulate. simpl. now rewrite length_map, length_seq. Qed.

Lemma at_index_tabulate {A} (dflt : A) s (f : list nat -> A) idx :
  valid_index idx s ->
  at_index dflt s (data (tabulate s f)) idx = f idx.
Proof.
  intros H. unfold at_index, tabulate. simpl.
  pose proof (ravel_lt idx s H) as Hr.
  rewrite (nth_indep _ dflt (f (unravel s 0))).
  2:{ now rewrite length_map, length_seq. }
  rewrite (map_nth (fun k => f (unravel s k)) (seq 0 (prod s)) 0).
  rewrite seq_nth by exact Hr. simpl. now rewrite unravel_ravel.
Qed.

Lemma get_tabulate s (f : list nat -> R) idx :
  valid_index idx s -> get (tabulate s f) idx = f idx.
Proof. intros H. unfold get. rewrite tabulate_shape. now apply at_index_tabulate. Qed.

Lemma bindex_valid idx s : valid_index idx s -> bindex s idx = idx.
Proof.
  intros H. unfold bindex.
  rewrite (Forall2_length H), Nat.sub_diag. simpl.
  induction H as [|i d idx s Hi H IH]; simpl; [reflexivity|].
  rewrite IH. destruct (Nat.eqb_spec d 1); [|reflexivity].
  f_equal. lia.
Qed.

Lemma broadcast_rev_same r : broadcast_rev r r = Some r.
Proof.
  induction r as [|d r IH]; simpl; [reflexivity|].
  now rewrite IH, Nat.eqb_refl.
Qed.

Lemma broadcast_shapes_same s : broadcast_shapes s s = Some s.
Proof.
  unfold broadcast_shapes. rewrite broadcast_rev_same. simpl.
  now rewrite rev_involutive.
Qed.

Lemma np_map_shape {A B} (f : A -> B) a : shape (np_map f a) = shape a.
Proof. reflexivity. Qed.


End NpFacts.

(** ** Facts about the pose error functions *)

Module PoseFacts.
Import Np NpFacts PoseError.

Local Open Scope nat_scope.

(** Case analysis on an index below 3. *)
Ltac index_cases i := destruct i as [|[|[|i]]]; try lia.

(** Evaluates an absolute value whose sign is known. *)
Ltac eval_Rabs := unfold Rabs; destruct (Rcase_abs _); lra.

Lemma valid3 n c m N C M :
  n < N -> c < C -> m < M -> valid_index [n; c; m] [N; C; M].
Proof. intros; repeat constructor; assumption. Qed.

Lemma valid2 i j I J : i < I -> j < J -> valid_index [i; j] [I; J].
Proof. intros; repeat constructor; assumption. Qed.

Lemma valid1 i I : i < I -> valid_index [i] [I].
Proof. intros; repeat constructor; assumption. Qed.

Lemma reshape_batch_translation (t : ndarray R) N :
  size t = N * 3 ->
  np_reshape t [None; Some 3; Some 1] = Ok (mkarr [N; 3; 1] (data t)).
Proof.
  intros Hs. unfold np_reshape. rewrite Hs.
  cbn [fold_right filter length map].
  replace (3 * (1 * 1)) with 3 by reflexivity.
  rewrite Nat.Div0.mod_mul, Nat.div_mul by discriminate.
  reflexivity.
Qed.

Lemma broadcast_stretch_last N C M :
  broadcast_shapes [N; C; M] [N; C; 1] = Some [N; C; M].
Proof.
  unfold broadcast_shapes. cbn [rev app broadcast_rev].
  rewrite !Nat.eqb_refl. cbn [option_map].
  destruct (Nat.eqb_spec M 1) as [->|HM]; reflexivity.
Qed.

Local Open Scope R_scope.

(** The batched transform on well-shaped inputs: the value and its layout.
    The translations may come in any shape holding [N * 3] elements. *)
Lemma transform_batch_value (pts Rot t : ndarray R) (N M : nat) :
  shape pts = [M; 3%nat] ->
  shape Rot = [N; 3%nat; 3%nat] ->
  size t = (N * 3)%nat ->
  exists out,
    transform_pts_Rt_batch pts Rot t = Ok out /\
    shape out = [N; 3%nat; M] /\
    wf out /\
    forall n c m, (n < N)%nat -> (c < 3)%nat -> (m < M)%nat ->
      get out [n; c; m] =
      Rsum_upto 3 (fun k => get Rot [n; c; k] * get pts [m; k])
      + flat t (n * 3 + c).
Proof.
  intros Hp HR Ht.
  unfold transform_pts_Rt_batch, shape_at. rewrite Hp. cbn [nth_error bind].
  cbn [Nat.eqb py_assert bind].
  unfold np_matmul, ndim, np_T. rewrite HR, Hp, tabulate_shape. cbn [rev app].
  cbn [length Nat.eqb split_last2 rev app].
  cbn [broadcast_shapes rev broadcast_rev option_map app length bind].
  rewrite (reshape_batch_translation t N Ht). cbn [bind].
  unfold np_add, broadcast2. cbn [shape].
  rewrite broadcast_stretch_last.
  eexists. split; [reflexivity|]. split; [reflexivity|].
  split; [apply tabulate_wf|].
  intros n c m Hn Hc Hm.
  rewrite get_tabulate by (now apply valid3).
  rewrite (bindex_valid [n; c; m] [N; 3%nat; M]) by (now apply valid3).
  f_equal.
  - unfold get. cbn [shape data].
    rewrite (at_index_tabulate 0 [N; 3%nat; M]) by (now apply valid3).
    cbn [firstn nth].
    rewrite (bindex_valid [n] [N]) by (now apply valid1).
    unfold Rsum_upto. cbn [seq map app].
    unfold bindex. cbn [length Nat.sub skipn map2 app].
    rewrite !(at_index_tabulate 0 [3%nat; M]) by (apply valid2; lia).
    cbn [rev app]. rewrite HR, Hp. reflexivity.
  - unfold get, flat, at_index. cbn [shape data]. f_equal.
    unfold bindex. cbn [length Nat.sub skipn map2 Nat.eqb ravel prod fold_right].
    destruct (Nat.eqb_spec N 1) as [->|HN]; lia.
Qed.


(** C2, as the code has it.  For a point set of shape M x 3, rotations of
    shape N x 3 x 3 and translations of shape N x 3, the batched transform
    returns an array of shape N x 3 x M (coordinate axis before point
    axis): its entry at pose [n], coordinate [c], point [m] is coordinate
    [c] of [R_n . pts[m] + t_n]. *)
Theorem transform_pts_Rt_batch_layout (pts Rot t : ndarray R) (N M : nat) :
  shape pts = [M; 3%nat] ->
  shape Rot = [N; 3%nat; 3%nat] ->
  shape t = [N; 3%nat] ->
  exists out,
    transform_pts_Rt_batch pts Rot t = Ok out /\
    shape out = [N; 3%nat; M] /\
    forall n c m, (n < N)%nat -> (c < 3)%nat -> (m < M)%nat ->
      get out [n; c; m] =
      Rsum_upto 3 (fun k => get Rot [n; c; k] * get pts [m; k])
      + get t [n; c].
Proof.
  intros Hp HR Ht.
  assert (Hsz : size t = (N * 3)%nat)
    by (unfold size; rewrite Ht; cbn [prod fold_right]; lia).
  destruct (transform_batch_value pts Rot t N M Hp HR Hsz)
    as [out [E [Hs [_ Hv]]]].
  exists out. split; [exact E|]. split; [exact Hs|].
  intros n c m Hn Hc Hm. rewrite (Hv n c m Hn Hc Hm). f_equal.
  unfold get, flat, at_index. rewrite Ht. f_equal.
  cbn [ravel prod fold_right]. lia.
Qed.

Lemma transform_pts_Rt_batch_layout_witness :
  exists out,
    transform_pts_Rt_batch
      (mkarr [2; 3]%nat [1; 2; 3; 4; 5; 6])
      (mkarr [1; 3; 3]%nat identity3)
      (mkarr [1; 3]%nat [10; 20; 30]) = Ok out /\
    shape out = [1; 3; 2]%nat /\
    forall n c m, (n < 1)%nat -> (c < 3)%nat -> (m < 2)%nat ->
      get out [n; c; m] =
      Rsum_upto 3 (fun k =>
        get (mkarr [1; 3; 3]%nat identity3) [n; c; k]
        * get (mkarr [2; 3]%nat [1; 2; 3; 4; 5; 6]) [m; k])
      + get (mkarr [1; 3]%nat [10; 20; 30]) [n; c].
Proof.
  apply (transform_pts_Rt_batch_layout
           (mkarr [2; 3]%nat [1; 2; 3; 4; 5; 6])
           (mkarr [1; 3; 3]%nat identity3)
           (mkarr [1; 3]%nat [10; 20; 30]) 1 2); reflexivity.
Defined.

(** C2 as stated fails.  With one pose and two points the result has
    shape 1 x 3 x 2, not 1 x 2 x 3; and with three points, where the two
    shapes coincide, the entry at [0, 0, 1] is the first coordinate of
    the second transformed point (4), not the second coordinate of the
    first one (2). *)
Lemma transform_pts_Rt_batch_not_points_major :
  (exists out,
     transform_pts_Rt_batch
       (mkarr [2; 3]%nat [1; 2; 3; 4; 5; 6])
       (mkarr [1; 3; 3]%nat identity3)
       (mkarr [1; 3]%nat [0; 0; 0]) = Ok out /\
     shape out = [1; 3; 2]%nat /\ shape out <> [1; 2; 3]%nat) /\
  (exists out,
     transform_pts_Rt_batch
       (mkarr [3; 3]%nat [1; 2; 3; 4; 5; 6; 7; 8; 9])
       (mkarr [1; 3; 3]%nat identity3)
       (mkarr [1; 3]%nat [0; 0; 0]) = Ok out /\
     get out [0; 0; 1]%nat = 4 /\
     get out [0; 0; 1]%nat <> 2).
Proof.
  split.
  - destruct (transform_batch_value
                (mkarr [2; 3]%nat [1; 2; 3; 4; 5; 6])
                (mkarr [1; 3; 3]%nat identity3)
                (mkarr [1; 3]%nat [0; 0; 0]) 1 2)
      as [out [E [Hs _]]]; try reflexivity.
    exists out. rewrite Hs. split; [exact E|]. split; [reflexivity|].
    discriminate.
  - destruct (transform_batch_value
                (mkarr [3; 3]%nat [1; 2; 3; 4; 5; 6; 7; 8; 9])
                (mkarr [1; 3; 3]%nat identity3)
                (mkarr [1; 3]%nat [0; 0; 0]) 1 3)
      as [out [E [_ [_ Hv]]]]; try reflexivity.
    exists out. split; [exact E|].
    rewrite (Hv 0 0 1)%nat by lia.
    unfold Rsum_upto, Rsum, get, flat, at_index, identity3. simpl.
    split; lra.
Qed.

(** *** The shape assertions of [add] *)

Local Open Scope nat_scope.

Lemma shape_split_last2 (s : list nat) :
  2 <= length s ->
  exists pre a b, s = pre ++ [a; b].
Proof.
  intros H. destruct (rev s) as [|b [|a r]] eqn:E.
  - apply (f_equal (@length nat)) in E. rewrite length_rev in E.
    simpl in E. lia.
  - apply (f_equal (@length nat)) in E. rewrite length_rev in E.
    simpl in E. lia.
  - exists (rev r), a, b.
    apply (f_equal (@rev nat)) in E. rewrite rev_involutive in E.
    rewrite E. simpl. now rewrite <- app_assoc.
Qed.

Lemma shape_tail_lookup {A} (a : ndarray A) pre d2 d1 :
  shape a = pre ++ [d2; d1] ->
  shape_from_end a 1 = Ok d1 /\
  shape_from_end a 2 = Ok d2 /\
  shape_last2 a = [d2; d1].
Proof.
  intros Hs. unfold shape_from_end, shape_last2, ndim. rewrite Hs.
  rewrite length_app. cbn [length].
  replace (1 <=? length pre + 2) with true by (symmetry; apply Nat.leb_le; lia).
  replace (2 <=? length pre + 2) with true by (symmetry; apply Nat.leb_le; lia).
  replace (length pre + 2 - 1) with (S (length pre)) by lia.
  replace (length pre + 2 - 2) with (length pre + 0) by lia.
  repeat split.
  - rewrite app_nth2 by lia.
    now replace (S (length pre) - length pre) with 1 by lia.
  - rewrite app_nth2_plus. reflexivity.
  - rewrite Nat.add_0_r, skipn_app, skipn_all, Nat.sub_diag. reflexivity.
Qed.

(** With fewer than two dimensions the shape lookups themselves fail. *)
Lemma add_low_rank_fails (R_est t_est R_gt t_gt pts : ndarray R) :
  ndim R_est < 2 ->
  add R_est t_est R_gt t_gt pts = Raise IndexError \/
  add R_est t_est R_gt t_gt pts = Raise AssertionError.
Proof.
  intros H. unfold add, shape_from_end, ndim in *.
  destruct (shape R_est) as [|d [|d' s]]; simpl in *; try lia.
  - left. reflexivity.
  - destruct (d =? 3); simpl; auto.
Qed.

(** C9, as the code has it.  [add] checks the estimated rotation array
    only: when [R_est] has at least two dimensions and its last two are
    not 3 x 3, the call fails with an assertion error whatever the other
    arguments are (they are not looked at).  The ground-truth rotation
    array is not checked. *)
Theorem add_asserts_estimated_rotation_shape
  (R_est t_est R_gt t_gt pts : ndarray R) :
  2 <= ndim R_est ->
  shape_last2 R_est <> [3; 3] ->
  add R_est t_est R_gt t_gt pts = Raise AssertionError.
Proof.
  intros Hn Hs.
  destruct (shape_split_last2 (shape R_est) Hn) as [pre [d2 [d1 E]]].
  destruct (shape_tail_lookup R_est pre d2 d1 E) as [H1 [H2 H3]].
  unfold add. rewrite H1. cbn [bind].
  destruct (Nat.eqb_spec d1 3) as [->|Hd1]; [|reflexivity].
  cbn [py_assert bind]. rewrite H2. cbn [bind].
  destruct (Nat.eqb_spec d2 3) as [->|Hd2]; [|reflexivity].
  now rewrite H3 in Hs.
Qed.

Local Open Scope R_scope.

Lemma add_asserts_estimated_rotation_shape_witness :
  add (mkarr [1; 3; 2]%nat [1; 0; 0; 1; 0; 0])
      (mkarr [1; 3]%nat [0; 0; 0])
      (mkarr [3; 3]%nat identity3)
      (mkarr [3]%nat [0; 0; 0])
      (mkarr [1; 3]%nat [1; 2; 3]) = Raise AssertionError.
Proof.
  apply add_asserts_estimated_rotation_shape.
  - unfold ndim. simpl. lia.
  - discriminate.
Defined.

(** C9 as stated fails for the ground-truth array.  A ground-truth
    rotation of shape 1 x 3 violates the 3 x 3 precondition, yet [add]
    raises nothing and returns one error value; a ground-truth rotation of
    shape 2 x 2 makes the matrix product fail with a ValueError, not an
    assertion error. *)
Lemma add_does_not_check_ground_truth_rotation :
  let R_est := mkarr [1; 3; 3]%nat identity3 in
  let t_est := mkarr [1; 3]%nat [0; 0; 0] in
  let t_gt := mkarr [3]%nat [0; 0; 0] in
  let pts := mkarr [1; 3]%nat [1; 2; 3] in
  (shape_last2 (mkarr [1; 3]%nat [1; 0; 0]) <> [3; 3]%nat /\
   exists out,
     add R_est t_est (mkarr [1; 3]%nat [1; 0; 0]) t_gt pts = Ok out /\
     shape out = [1%nat]) /\
  (shape_last2 (mkarr [2; 2]%nat [1; 0; 0; 1]) <> [3; 3]%nat /\
   add R_est t_est (mkarr [2; 2]%nat [1; 0; 0; 1]) t_gt pts
   = Raise ValueError).
Proof.
  cbv zeta. split; split; try discriminate.
  - eexists. split; reflexivity.
  - reflexivity.
Qed.

(** *** Translation error *)

Local Open Scope nat_scope.

Lemma unravel_valid s k : k < prod s -> valid_index (unravel s k) s.
Proof.
  revert k. induction s as [|d s IH]; intros k Hk; simpl; [constructor|].
  simpl in Hk. fold (prod s) in Hk |- *.
  assert (Hp : prod s <> 0) by (intros E; rewrite E in Hk; lia).
  constructor.
  - apply Nat.Div0.div_lt_upper_bound. lia.
  - apply IH. now apply Nat.mod_upper_bound.
Qed.

Lemma ravel_unravel s k : k < prod s -> ravel s (unravel s k) = k.
Proof.
  revert k. induction s as [|d s IH]; intros k Hk; simpl in *; [lia|].
  fold (prod s) in Hk |- *.
  assert (Hp : prod s <> 0) by (intros E; rewrite E in Hk; lia).
  rewrite IH by now apply Nat.mod_upper_bound.
  rewrite (Nat.mul_comm (k / prod s)). symmetry. apply Nat.div_mod_eq.
Qed.

Local Open Scope R_scope.

(** Element-wise subtraction of two arrays of one shape. *)
Lemma np_sub_same_shape (a b : ndarray R) :
  shape a = shape b ->
  np_sub a b =
  Ok (mkarr (shape a)
        (map (fun k => nth k (data a) 0 - nth k (data b) 0)
             (seq 0 (size a)))).
Proof.
  intros Hs. unfold np_sub, broadcast2. rewrite <- Hs, broadcast_shapes_same.
  unfold tabulate, size. do 2 f_equal.
  apply map_ext_in. intros k Hk. apply in_seq in Hk.
  assert (Hv : valid_index (unravel (shape a) k) (shape a))
    by (apply unravel_valid; lia).
  rewrite (bindex_valid _ _ Hv).
  unfold get, at_index. rewrite <- Hs.
  now rewrite ravel_unravel by lia.
Qed.

(** C8, as the code has it.  For two inputs of one common shape holding
    exactly three elements, [te] is the mean of the three per-axis
    absolute differences; an input whose element count is not 3 fails the
    assertion. *)
Theorem te_mean_abs_difference (t_est t_gt : ndarray R) :
  (shape t_est = shape t_gt -> size t_est = 3%nat ->
   te t_est t_gt =
   Ok (Num (Rsum [Rabs (nth 0 (data t_gt) 0 - nth 0 (data t_est) 0);
                  Rabs (nth 1 (data t_gt) 0 - nth 1 (data t_est) 0);
                  Rabs (nth 2 (data t_gt) 0 - nth 2 (data t_est) 0)]
            / 3))) /\
  (size t_est <> 3%nat \/ size t_gt <> 3%nat ->
   te t_est t_gt = Raise AssertionError).
Proof.
  split.
  - intros Hs Hn. unfold te.
    assert (Hg : size t_gt = 3%nat) by (unfold size in *; now rewrite <- Hs).
    rewrite Hn, Hg. cbn [Nat.eqb andb py_assert bind].
    rewrite np_sub_same_shape by (now symmetry).
    rewrite Hg. cbn [bind seq map]. unfold np_mean, np_map, size.
    cbn [shape data map]. fold (size t_gt). rewrite Hg.
    cbn [Nat.eqb]. do 3 f_equal. simpl. lra.
  - intros H. unfold te.
    destruct (Nat.eqb_spec (size t_gt) 3) as [Eg|Eg].
    + destruct (Nat.eqb_spec (size t_est) (size t_gt)) as [Ee|Ee].
      * exfalso. destruct H as [H|H]; apply H; congruence.
      * reflexivity.
    + rewrite andb_false_r. reflexivity.
Qed.

Lemma te_mean_abs_difference_witness :
  te (mkarr [3]%nat [1; 2; 3]) (mkarr [3]%nat [2; 2; 5]) =
  Ok (Num (Rsum [Rabs (2 - 1); Rabs (2 - 2); Rabs (5 - 3)] / 3))
  /\
  te (mkarr [2]%nat [1; 2]) (mkarr [3]%nat [2; 2; 5]) = Raise AssertionError.
Proof.
  split.
  - apply (proj1 (te_mean_abs_difference
                    (mkarr [3]%nat [1; 2; 3]) (mkarr [3]%nat [2; 2; 5])));
      reflexivity.
  - apply (proj2 (te_mean_abs_difference
                    (mkarr [2]%nat [1; 2]) (mkarr [3]%nat [2; 2; 5]))).
    left. unfold size. simpl. lia.
Defined.

(** C8 as stated fails for two inputs of three elements each whose shapes
    differ: subtracting a column of shape 3 x 1 from a vector of shape 3
    broadcasts to a 3 x 3 array, and [te] is the mean of its nine entries.
    Here both inputs hold the same translation, the per-axis differences
    are all zero, and [te] is 4/3. *)
Lemma te_mixed_shapes_not_per_axis :
  let t_est := mkarr [3]%nat [0; 0; 3] in
  let t_gt := mkarr [3; 1]%nat [0; 0; 3] in
  size t_est = 3%nat /\ size t_gt = 3%nat /\
  te t_est t_gt = Ok (Num (4 / 3)) /\
  Rsum [Rabs (0 - 0); Rabs (0 - 0); Rabs (3 - 3)] / 3 = 0 /\
  4 / 3 <> 0.
Proof.
  assert (H1 : Rabs (0 - 0) = 0) by eval_Rabs.
  assert (H2 : Rabs (0 - 3) = 3) by eval_Rabs.
  assert (H3 : Rabs (3 - 0) = 3) by eval_Rabs.
  assert (H4 : Rabs (3 - 3) = 0) by eval_Rabs.
  cbv zeta. split; [reflexivity|]. split; [reflexivity|]. split; [|split].
  - unfold te, np_sub, broadcast2, np_mean, np_map, tabulate, size, get,
      at_index, bindex.
    simpl. rewrite H1, H2, H3, H4. do 2 f_equal. lra.
  - cbn [Rsum fold_right]. rewrite H1, H4. lra.
  - lra.
Qed.

(** *** Quaternion rotation error *)

Lemma broadcast2_same_shape (f : R -> R -> R) (a b : ndarray R) :
  shape a = shape b ->
  broadcast2 f a b =
  Ok (tabulate (shape a) (fun idx => f (get a idx) (get b idx))).
Proof.
  intros Hs. unfold broadcast2. rewrite <- Hs, broadcast_shapes_same.
  unfold tabulate. do 2 f_equal.
  apply map_ext_in. intros k Hk. apply in_seq in Hk.
  assert (Hv : valid_index (unravel (shape a) k) (shape a))
    by (apply unravel_valid; lia).
  now rewrite (bindex_valid _ _ Hv).
Qed.

Lemma at_index_map {A B} (F : A -> B) (da : A) (db : B) s l idx :
  (ravel s idx < length l)%nat ->
  at_index db s (map F l) idx = F (at_index da s l idx).
Proof.
  intros H. unfold at_index.
  rewrite (nth_indep _ db (F da)) by now rewrite length_map.
  apply map_nth.
Qed.

Lemma getv_map_tabulate (F : R -> fval) s (h : list nat -> R) idx :
  valid_index idx s ->
  getv (np_map F (tabulate s h)) idx = F (h idx).
Proof.
  intros Hv. unfold getv, np_map. cbn [shape data].
  rewrite tabulate_shape.
  rewrite (at_index_map F 0 NaN).
  - now rewrite at_index_tabulate.
  - pose proof (tabulate_wf s h) as Hw. unfold wf, size in Hw.
    rewrite Hw, tabulate_shape. now apply ravel_lt.
Qed.

Lemma np_arccos_in_domain x :
  -1 <= x <= 1 -> np_arccos x = Num (acos x).
Proof.
  intros [H1 H2]. unfold np_arccos.
  destruct (Rle_dec (-1) x); [|contradiction].
  destruct (Rle_dec x 1); [reflexivity | contradiction].
Qed.

Lemma np_arccos_out_of_domain x :
  ~ (-1 <= x <= 1) -> np_arccos x = NaN.
Proof.
  intros H. unfold np_arccos.
  destruct (Rle_dec (-1) x); [|reflexivity].
  destruct (Rle_dec x 1); [|reflexivity].
  exfalso. apply H. split; assumption.
Qed.

(** C10.  [quat_re] validates and clips nothing: on any two N x 4 arrays
    it returns N entries without raising; an entry is NaN when the dot
    product of its two rows lies outside [-1, 1], and is the arccos of the
    dot product, in degrees, otherwise. *)
Theorem quat_re_no_clipping (q1 q2 : ndarray R) (N : nat) :
  shape q1 = [N; 4%nat] ->
  shape q2 = [N; 4%nat] ->
  exists out,
    quat_re q1 q2 = Ok out /\
    shape out = [N] /\
    forall i, (i < N)%nat ->
      let dot := Rsum_upto 4 (fun j => get q1 [i; j] * get q2 [i; j]) in
      (-1 <= dot <= 1 -> getv out [i] = Num (acos dot * (180 / PI))) /\
      (~ (-1 <= dot <= 1) -> getv out [i] = NaN).
Proof.
  intros H1 H2. unfold quat_re, np_mul.
  rewrite broadcast2_same_shape by congruence.
  cbn [bind]. unfold np_sum_axis, ndim. rewrite tabulate_shape, H1.
  cbn [length Nat.ltb Nat.leb firstn skipn app nth bind].
  eexists. split; [reflexivity|]. split; [reflexivity|].
  intros i Hi. cbv zeta.
  set (dot := Rsum_upto 4 (fun j => get q1 [i; j] * get q2 [i; j])).
  rewrite getv_map_tabulate by (now apply valid1).
  cbn [firstn skipn app].
  assert (E : Rsum_upto 4 (fun j =>
                get (tabulate [N; 4%nat]
                       (fun idx => get q1 idx * get q2 idx)) [i; j]) = dot).
  { unfold dot, Rsum_upto. cbn [seq map].
    rewrite !get_tabulate by (apply valid2; lia). reflexivity. }
  rewrite E. split; intros Hd.
  - now rewrite np_arccos_in_domain.
  - now rewrite np_arccos_out_of_domain.
Qed.

Lemma quat_re_no_clipping_witness :
  exists out,
    quat_re (mkarr [2; 4]%nat [1; 0; 0; 0; 2; 0; 0; 0])
            (mkarr [2; 4]%nat [1; 0; 0; 0; 2; 0; 0; 0]) = Ok out /\
    shape out = [2%nat] /\
    forall i, (i < 2)%nat ->
      let dot :=
        Rsum_upto 4 (fun j =>
          get (mkarr [2; 4]%nat [1; 0; 0; 0; 2; 0; 0; 0]) [i; j]
          * get (mkarr [2; 4]%nat [1; 0; 0; 0; 2; 0; 0; 0]) [i; j]) in
      (-1 <= dot <= 1 -> getv out [i] = Num (acos dot * (180 / PI))) /\
      (~ (-1 <= dot <= 1) -> getv out [i] = NaN).
Proof.
  apply (quat_re_no_clipping
           (mkarr [2; 4]%nat [1; 0; 0; 0; 2; 0; 0; 0])
           (mkarr [2; 4]%nat [1; 0; 0; 0; 2; 0; 0; 0]) 2); reflexivity.
Defined.

(** *** Rotation error *)

(** The matrix [np_linalg_inv] builds is the inverse: the product of a
    matrix with its adjugate over its determinant is the identity. *)
Lemma adjugate_over_det_inverts (m : nat -> nat -> R) (i j : nat) :
  (i < 3)%nat -> (j < 3)%nat -> det33 m <> 0 ->
  Rsum_upto 3 (fun k => m i k * (adj33 m k j / det33 m))
  = if (i =? j)%nat then 1 else 0.
Proof.
  intros Hi Hj Hd. unfold Rsum_upto, Rsum. cbn [seq map fold_right].
  index_cases i; index_cases j;
    cbn [Nat.eqb]; unfold det33, adj33 in *;
    cbn [Nat.add Nat.modulo Nat.divmod fst snd Nat.sub] in *;
    field; exact Hd.
Qed.

Lemma reshape_single_rotation (a : ndarray R) :
  shape a = [3; 3]%nat ->
  np_reshape a [None; Some 3%nat; Some 3%nat]
  = Ok (mkarr [1; 3; 3]%nat (data a)).
Proof.
  intros Hs. unfold np_reshape, size. rewrite Hs. reflexivity.
Qed.

Lemma tabulate_singleton {A} (h : list nat -> A) :
  tabulate [1%nat] h = mkarr [1%nat] [h [0%nat]].
Proof. reflexivity. Qed.

Lemma Reqb_false x y : x <> y -> Reqb x y = false.
Proof.
  intros H. unfold Reqb. destruct (Req_dec_T x y); [contradiction | reflexivity].
Qed.

Lemma re_single_value (R_est R_gt : ndarray R) :
  shape R_est = [3; 3]%nat ->
  shape R_gt = [3; 3]%nat ->
  det33 (mat33 R_gt) <> 0 ->
  re R_est R_gt =
  Ok (mkarr [1%nat]
        [np_degrees (np_arccos (np_clip (-1) 1 (cos_arg R_est R_gt)))]).
Proof.
  intros HA HB Hdet.
  destruct R_est as [sA dA], R_gt as [sB dB]. cbn [shape] in HA, HB. subst.
  unfold re. cbn [shape_last2 ndim shape length Nat.sub skipn shape_eqb
                  Nat.eqb andb py_assert bind].
  rewrite !reshape_single_rotation by reflexivity. cbn [bind data].
  unfold np_linalg_inv. cbn [shape seq existsb].
  change (det33 (fun i j => get (mkarr [1; 3; 3]%nat dB) [0%nat; i; j]))
    with (det33 (mat33 (mkarr [3; 3]%nat dB))).
  rewrite (Reqb_false _ _ Hdet). cbn [orb bind].
  unfold np_matmul, ndim. rewrite tabulate_shape.
  cbn [shape length Nat.eqb split_last2 rev app data].
  cbn [broadcast_shapes rev app broadcast_rev Nat.eqb option_map length bind].
  unfold np_trace12. cbn [shape bind].
  rewrite tabulate_singleton. unfold np_map. cbn [shape data map hd tl].
  reflexivity.
Qed.

Lemma np_clip_bounds x : -1 <= np_clip (-1) 1 x <= 1.
Proof.
  unfold np_clip, Rmin, Rmax.
  destruct (Rle_dec x (-1)); destruct (Rle_dec 1 _); lra.
Qed.

Lemma np_clip_above x : 1 <= x -> np_clip (-1) 1 x = 1.
Proof.
  intros H. unfold np_clip, Rmin, Rmax.
  destruct (Rle_dec x (-1)); destruct (Rle_dec 1 _); lra.
Qed.

Lemma degrees_acos_bounds y : 0 <= acos y * (180 / PI) <= 180.
Proof.
  pose proof (acos_bound y) as [H0 H1]. pose proof PI_RGT_0 as Hpi.
  assert (Hi : 0 < / PI) by now apply Rinv_0_lt_compat.
  assert (E : PI * (180 / PI) = 180) by (field; lra).
  split.
  - apply Rmult_le_pos; [exact H0|]. unfold Rdiv. nra.
  - rewrite <- E at 2. apply Rmult_le_compat_r; [unfold Rdiv; nra | exact H1].
Qed.

Lemma clipped_angle x :
  exists a,
    np_degrees (np_arccos (np_clip (-1) 1 x)) = Num a /\ 0 <= a <= 180 /\
    (1 <= x -> a = 0).
Proof.
  exists (acos (np_clip (-1) 1 x) * (180 / PI)).
  rewrite np_arccos_in_domain by apply np_clip_bounds.
  split; [reflexivity|]. split; [apply degrees_acos_bounds|].
  intros H. rewrite np_clip_above by exact H. rewrite acos_1. lra.
Qed.

Lemma np_clip_below x : x <= -1 -> np_clip (-1) 1 x = -1.
Proof.
  intros H. unfold np_clip, Rmin, Rmax.
  destruct (Rle_dec x (-1)); destruct (Rle_dec 1 _); lra.
Qed.

Lemma np_clip_inside x : -1 <= x <= 1 -> np_clip (-1) 1 x = x.
Proof.
  intros H. unfold np_clip, Rmin, Rmax.
  destruct (Rle_dec x (-1)); destruct (Rle_dec 1 _); lra.
Qed.

Lemma acos_minus_one : acos (-1) = PI.
Proof.
  replace (acos (-1)) with (acos (- (1))) by (f_equal; lra).
  rewrite acos_opp, acos_1. lra.
Qed.

(** The angle [re] reports for a cosine argument [x], by cases on where
    [x] lies with respect to the domain of arccos. *)
Lemma clipped_angle_cases x :
  exists a,
    np_degrees (np_arccos (np_clip (-1) 1 x)) = Num a /\ 0 <= a <= 180 /\
    (1 <= x -> a = 0) /\
    (x <= -1 -> a = 180) /\
    (-1 <= x <= 1 -> a = acos x * (180 / PI)).
Proof.
  exists (acos (np_clip (-1) 1 x) * (180 / PI)).
  rewrite np_arccos_in_domain by apply np_clip_bounds.
  split; [reflexivity|]. split; [apply degrees_acos_bounds|].
  split; [|split].
  - intros H. rewrite np_clip_above by exact H. rewrite acos_1. lra.
  - intros H. rewrite np_clip_below by exact H. rewrite acos_minus_one.
    field. pose proof PI_RGT_0. lra.
  - intros H. now rewrite np_clip_inside.
Qed.

(** C7.  [re] clips the cosine argument to [-1, 1] before arccos.
    Whenever it returns, every entry is a number between 0 and 180
    degrees, never NaN.  For a pair of 3 x 3 matrices (ground truth
    invertible) it does return, and the angle is fixed by the computed
    cosine argument: 0 degrees when the argument is 1 or more, 180
    degrees when it is -1 or less, and the arccos of the argument itself,
    in degrees, when it lies within [-1, 1]. *)
Theorem re_clips_before_arccos (R_est R_gt : ndarray R) :
  (forall out, re R_est R_gt = Ok out ->
     Forall (fun v => exists a, v = Num a /\ 0 <= a <= 180) (data out)) /\
  (shape R_est = [3; 3]%nat -> shape R_gt = [3; 3]%nat ->
   det33 (mat33 R_gt) <> 0 ->
   exists a,
     re R_est R_gt = Ok (mkarr [1%nat] [Num a]) /\
     0 <= a <= 180 /\
     (1 <= cos_arg R_est R_gt -> a = 0) /\
     (cos_arg R_est R_gt <= -1 -> a = 180) /\
     (-1 <= cos_arg R_est R_gt <= 1 ->
      a = acos (cos_arg R_est R_gt) * (180 / PI))).
Proof.
  split.
  - intros out H. unfold re in H.
    repeat match type of H with
           | bind ?r _ = Ok _ =>
               destruct r eqn:?; cbn [bind] in H; [|discriminate H]
           end.
    injection H as <-. unfold np_map. cbn [data].
    apply Forall_forall. intros v Hv.
    apply in_map_iff in Hv. destruct Hv as [c [<- Hc]].
    apply in_map_iff in Hc. destruct Hc as [x [<- _]].
    destruct (clipped_angle x) as [ang [Hang [Hb _]]].
    exists ang. split; assumption.
  - intros HA HB Hdet.
    destruct (clipped_angle_cases (cos_arg R_est R_gt))
      as [a [Ha [Hb [Hhi [Hlo Hin]]]]].
    exists a. rewrite re_single_value by assumption. rewrite Ha. auto.
Qed.

Lemma re_clips_before_arccos_witness :
  let R_est := mkarr [3; 3]%nat [1 + 2 / 10000000; 0; 0; 0; 1; 0; 0; 0; 1] in
  let R_gt := mkarr [3; 3]%nat identity3 in
  1 < cos_arg R_est R_gt /\
  re R_est R_gt = Ok (mkarr [1%nat] [Num 0]).
Proof.
  cbv zeta.
  assert (Hc : cos_arg (mkarr [3; 3]%nat [1 + 2 / 10000000; 0; 0; 0; 1; 0; 0; 0; 1])
                       (mkarr [3; 3]%nat identity3) = 1 + 1 / 10000000).
  { unfold cos_arg, det33, adj33, mat33, get, at_index, Rsum_upto, Rsum,
      identity3. simpl. field. }
  split; [rewrite Hc; lra|].
  destruct (proj2 (re_clips_before_arccos
                     (mkarr [3; 3]%nat [1 + 2 / 10000000; 0; 0; 0; 1; 0; 0; 0; 1])
                     (mkarr [3; 3]%nat identity3)))
    as [a [E [_ [Ha _]]]].
  - reflexivity.
  - reflexivity.
  - unfold det33, adj33, mat33, get, at_index, identity3. simpl. lra.
  - rewrite E, Ha; [reflexivity|]. rewrite Hc. lra.
Defined.

(** For a rotation the adjugate is the transpose. *)
Lemma rotation_adjugate (a : ndarray R) :
  is_rotation a ->
  forall l i, (l < 3)%nat -> (i < 3)%nat ->
  adj33 (mat33 a) l i = mat33 a i l.
Proof.
  intros [_ [Ho Hd]] l i Hl Hi.
  pose proof (Ho 0 i ltac:(lia) Hi)%nat as H0.
  pose proof (Ho 1 i ltac:(lia) Hi)%nat as H1.
  pose proof (Ho 2 i ltac:(lia) Hi)%nat as H2.
  unfold Rsum_upto, Rsum in H0, H1, H2. cbn [seq map fold_right] in H0, H1, H2.
  unfold det33 in Hd.
  (* adj = adj . (a . a^T) = (adj . a) . a^T = det . a^T *)
  assert (E : adj33 (mat33 a) l 0%nat * (if (0 =? i)%nat then 1 else 0)
              + adj33 (mat33 a) l 1%nat * (if (1 =? i)%nat then 1 else 0)
              + adj33 (mat33 a) l 2%nat * (if (2 =? i)%nat then 1 else 0)
              = 1 * mat33 a i l).
  { rewrite <- H0, <- H1, <- H2, <- Hd.
    index_cases l;
      index_cases i;
      unfold adj33; cbn [Nat.add Nat.modulo Nat.divmod fst snd Nat.sub]; ring. }
  index_cases i; cbn [Nat.eqb] in E; lra.
Qed.

Lemma rotation_cos_arg (R1 R2 : ndarray R) :
  is_rotation R2 ->
  cos_arg R1 R2 =
  (Rsum_upto 3 (fun i => Rsum_upto 3 (fun l => mat33 R1 i l * mat33 R2 i l))
   - 1) * (5 / 10).
Proof.
  intros H2. pose proof (rotation_adjugate R2 H2) as Ha.
  destruct H2 as [_ [_ Hd]].
  unfold cos_arg. rewrite Hd. unfold Rsum_upto. cbn [seq map].
  rewrite !Ha by lia. unfold Rsum. cbn [fold_right]. field.
Qed.

(** C6.  For two valid rotation matrices the rotation error does not
    depend on the order of the arguments, and it is an angle between 0 and
    180 degrees. *)
Theorem re_symmetric_and_bounded (R1 R2 : ndarray R) :
  is_rotation R1 -> is_rotation R2 ->
  re R1 R2 = re R2 R1 /\
  exists a, re R1 R2 = Ok (mkarr [1%nat] [Num a]) /\ 0 <= a <= 180.
Proof.
  intros H1 H2.
  assert (Hd1 : det33 (mat33 R1) <> 0) by (destruct H1 as [_ [_ ->]]; lra).
  assert (Hd2 : det33 (mat33 R2) <> 0) by (destruct H2 as [_ [_ ->]]; lra).
  assert (Hs1 : shape R1 = [3; 3]%nat) by apply H1.
  assert (Hs2 : shape R2 = [3; 3]%nat) by apply H2.
  rewrite (re_single_value R1 R2 Hs1 Hs2 Hd2).
  rewrite (re_single_value R2 R1 Hs2 Hs1 Hd1).
  assert (E : cos_arg R1 R2 = cos_arg R2 R1).
  { rewrite (rotation_cos_arg R1 R2 H2), (rotation_cos_arg R2 R1 H1).
    unfold Rsum_upto, Rsum. cbn [seq map fold_right]. ring. }
  rewrite E. split; [reflexivity|].
  destruct (clipped_angle (cos_arg R2 R1)) as [a [Ha [Hb _]]].
  exists a. rewrite Ha. auto.
Qed.

Lemma is_rotation_identity : is_rotation (mkarr [3; 3]%nat identity3).
Proof.
  split; [reflexivity|]. split.
  - intros i j Hi Hj.
    index_cases i; index_cases j;
      unfold Rsum_upto, Rsum, mat33, get, at_index, identity3; simpl; lra.
  - unfold det33, adj33, mat33, get, at_index, identity3. simpl. lra.
Qed.

Lemma is_rotation_quarter_turn : is_rotation (mkarr [3; 3]%nat quarter_turn_z).
Proof.
  split; [reflexivity|]. split.
  - intros i j Hi Hj.
    index_cases i; index_cases j;
      unfold Rsum_upto, Rsum, mat33, get, at_index, quarter_turn_z; simpl; lra.
  - unfold det33, adj33, mat33, get, at_index, quarter_turn_z. simpl. lra.
Qed.

Lemma re_symmetric_and_bounded_witness :
  re (mkarr [3; 3]%nat quarter_turn_z) (mkarr [3; 3]%nat identity3)
  = re (mkarr [3; 3]%nat identity3) (mkarr [3; 3]%nat quarter_turn_z) /\
  exists a,
    re (mkarr [3; 3]%nat quarter_turn_z) (mkarr [3; 3]%nat identity3)
    = Ok (mkarr [1%nat] [Num a]) /\ 0 <= a <= 180.
Proof.
  apply (re_symmetric_and_bounded
           (mkarr [3; 3]%nat quarter_turn_z) (mkarr [3; 3]%nat identity3)).
  - exact is_rotation_quarter_turn.
  - exact is_rotation_identity.
Defined.

(** *** ADD and ADI *)

Lemma Rsum_upto_ext n (f g : nat -> R) :
  (forall j, (j < n)%nat -> f j = g j) -> Rsum_upto n f = Rsum_upto n g.
Proof.
  intros H. unfold Rsum_upto. f_equal. apply map_ext_in.
  intros j Hj. apply in_seq in Hj. apply H. lia.
Qed.

Lemma Rsum_le (l1 l2 : list R) :
  Forall2 Rle l1 l2 -> Rsum l1 <= Rsum l2.
Proof.
  induction 1 as [|x y l1 l2 Hxy H IH]; simpl; lra.
Qed.

Lemma Rsum_upto_le n (f g : nat -> R) :
  (forall j, (j < n)%nat -> f j <= g j) -> Rsum_upto n f <= Rsum_upto n g.
Proof.
  intros H. unfold Rsum_upto. apply Rsum_le.
  assert (Hs : forall j, In j (seq 0 n) -> f j <= g j).
  { intros j Hj. apply in_seq in Hj. apply H. lia. }
  induction (seq 0 n) as [|j l IH]; simpl; constructor.
  - apply Hs. now left.
  - apply IH. intros k Hk. apply Hs. now right.
Qed.

Lemma get_map_tabulate (F : R -> R) s (h : list nat -> R) idx :
  valid_index idx s ->
  get (np_map F (tabulate s h)) idx = F (h idx).
Proof.
  intros Hv. unfold get, np_map. cbn [shape data].
  rewrite tabulate_shape.
  rewrite (at_index_map F 0 0).
  - now rewrite at_index_tabulate.
  - pose proof (tabulate_wf s h) as Hw. unfold wf, size in Hw.
    rewrite Hw, tabulate_shape. now apply ravel_lt.
Qed.

Lemma tabulate_vector {A} (M : nat) (f : list nat -> A) :
  tabulate [M] f = mkarr [M] (map (fun k => f [k]) (seq 0 M)).
Proof.
  unfold tabulate. cbn [prod fold_right]. rewrite Nat.mul_1_r. f_equal.
  apply map_ext. intros k. cbn [unravel prod fold_right].
  now rewrite Nat.div_1_r.
Qed.

Lemma broadcast_stretch_columns C M :
  broadcast_shapes [C; M] [C; 1%nat] = Some [C; M].
Proof.
  unfold broadcast_shapes. cbn [rev app broadcast_rev].
  rewrite !Nat.eqb_refl. cbn [option_map].
  destruct (Nat.eqb_spec M 1) as [->|HM]; reflexivity.
Qed.

Lemma broadcast_single_pose M :
  broadcast_shapes [3%nat; M] [1%nat; 3%nat; 1%nat] = Some [1%nat; 3%nat; M].
Proof.
  unfold broadcast_shapes. cbn [rev app broadcast_rev Nat.eqb option_map].
  destruct (Nat.eqb_spec M 1) as [->|HM]; reflexivity.
Qed.

(** The product [Rot @ pts.T] for one 3 x 3 matrix. *)
Lemma matmul_single (pts Rot : ndarray R) (M : nat) :
  shape pts = [M; 3%nat] ->
  shape Rot = [3%nat; 3%nat] ->
  exists mm,
    np_matmul Rot (np_T pts) = Ok mm /\
    shape mm = [3%nat; M] /\
    forall c m, (c < 3)%nat -> (m < M)%nat ->
      get mm [c; m] = Rsum_upto 3 (fun k => get Rot [c; k] * get pts [m; k]).
Proof.
  intros Hp HR.
  unfold np_matmul, ndim, np_T. rewrite HR, Hp, tabulate_shape. cbn [rev app].
  cbn [length Nat.eqb split_last2 rev app].
  cbn [broadcast_shapes rev broadcast_rev option_map app length].
  eexists. split; [reflexivity|]. split; [reflexivity|].
  intros c m Hc Hm. unfold get. cbn [shape data].
  rewrite (at_index_tabulate 0 [3%nat; M]) by (now apply valid2).
  cbn [firstn nth]. unfold bindex. cbn [length Nat.sub skipn map2 app].
  unfold Rsum_upto. cbn [seq map].
  rewrite !(at_index_tabulate 0 [3%nat; M]) by (apply valid2; lia).
  cbn [rev app]. rewrite HR, Hp. reflexivity.
Qed.

(** The single-pose transform on well-shaped inputs. *)
Lemma transform_value (pts Rot t : ndarray R) (M : nat) :
  shape pts = [M; 3%nat] ->
  shape Rot = [3%nat; 3%nat] ->
  size t = 3%nat ->
  exists out,
    transform_pts_Rt pts Rot t = Ok out /\
    shape out = [M; 3%nat] /\
    forall m c, (m < M)%nat -> (c < 3)%nat ->
      get out [m; c] = posed Rot t pts m c.
Proof.
  intros Hp HR Ht.
  destruct (matmul_single pts Rot M Hp HR) as [mm [Emm [Hmm Vmm]]].
  unfold transform_pts_Rt, shape_at. rewrite Hp. cbn [nth_error bind].
  cbn [Nat.eqb py_assert bind]. rewrite Emm. cbn [bind].
  unfold np_reshape. rewrite Ht.
  cbn [fold_right filter length Nat.mul Nat.add Nat.eqb map bind].
  unfold np_add, broadcast2. cbn [shape]. rewrite Hmm.
  rewrite broadcast_stretch_columns. cbn [bind].
  eexists. split; [reflexivity|]. split; [reflexivity|].
  intros m c Hm Hc. unfold np_T. rewrite tabulate_shape. cbn [rev app].
  rewrite get_tabulate by (now apply valid2). cbn [rev app].
  rewrite get_tabulate by (now apply valid2).
  rewrite (bindex_valid [c; m] [3%nat; M]) by (now apply valid2).
  rewrite Vmm by assumption. unfold posed. f_equal.
  unfold get, flat, at_index. cbn [shape data]. f_equal.
  unfold bindex. cbn [length Nat.sub skipn map2 Nat.eqb ravel prod fold_right].
  lia.
Qed.

(** The batched transform applied to one pose given as a 3 x 3 matrix and
    a 3-vector, as [add] applies it to the ground truth. *)
Lemma transform_batch_single_value (pts Rot t : ndarray R) (M : nat) :
  shape pts = [M; 3%nat] ->
  shape Rot = [3%nat; 3%nat] ->
  size t = 3%nat ->
  exists out,
    transform_pts_Rt_batch pts Rot t = Ok out /\
    shape out = [1%nat; 3%nat; M] /\
    forall c m, (c < 3)%nat -> (m < M)%nat ->
      get out [0%nat; c; m] = posed Rot t pts m c.
Proof.
  intros Hp HR Ht.
  destruct (matmul_single pts Rot M Hp HR) as [mm [Emm [Hmm Vmm]]].
  unfold transform_pts_Rt_batch, shape_at. rewrite Hp. cbn [nth_error bind].
  cbn [Nat.eqb py_assert bind]. rewrite Emm. cbn [bind].
  unfold np_reshape. rewrite Ht.
  cbn [fold_right filter length Nat.mul Nat.add Nat.eqb map bind negb
       andb Nat.modulo Nat.divmod Nat.div fst snd Nat.sub].
  unfold np_add, broadcast2. cbn [shape]. rewrite Hmm.
  rewrite broadcast_single_pose. cbn [bind].
  eexists. split; [reflexivity|]. split; [reflexivity|].
  intros c m Hc Hm.
  rewrite get_tabulate by (apply valid3; lia).
  unfold bindex at 1. cbn [length Nat.sub skipn map2 Nat.eqb].
  replace (if (M =? 1)%nat then 0%nat else m) with m
    by (destruct (Nat.eqb_spec M 1); lia).
  rewrite Vmm by assumption. unfold posed. f_equal.
  unfold get, flat, at_index. cbn [shape data]. f_equal.
  unfold bindex. cbn [length Nat.sub skipn map2 Nat.eqb ravel prod fold_right].
  lia.
Qed.

Lemma np_sum_axis1_3d (a : ndarray R) (N C M : nat) :
  shape a = [N; C; M] ->
  np_sum_axis 1 a =
  Ok (tabulate [N; M] (fun idx =>
        Rsum_upto C (fun j => get a (firstn 1 idx ++ j :: skipn 1 idx)))).
Proof.
  intros Hs. unfold np_sum_axis, ndim. rewrite Hs. reflexivity.
Qed.

Lemma np_sum_axis1_2d (a : ndarray R) (N M : nat) :
  shape a = [N; M] ->
  np_sum_axis 1 a =
  Ok (tabulate [N] (fun idx =>
        Rsum_upto M (fun j => get a (firstn 1 idx ++ j :: skipn 1 idx)))).
Proof.
  intros Hs. unfold np_sum_axis, ndim. rewrite Hs. reflexivity.
Qed.


Lemma fold_min_le_init (ds : list R) (d : R) : fold_left Rmin ds d <= d.
Proof.
  revert d. induction ds as [|e ds IH]; intros d; simpl; [lra|].
  eapply Rle_trans; [apply IH | apply Rmin_l].
Qed.

Lemma fold_min_le_in (ds : list R) (d x : R) :
  In x ds -> fold_left Rmin ds d <= x.
Proof.
  revert d. induction ds as [|e ds IH]; intros d Hin; [destruct Hin|].
  simpl. destruct Hin as [->|Hin].
  - eapply Rle_trans; [apply fold_min_le_init | apply Rmin_r].
  - now apply IH.
Qed.

Lemma nearest_le (l : list R) (x : R) :
  In x l ->
  match l with
  | [] => 0
  | d :: ds => fold_left Rmin ds d
  end <= x.
Proof.
  destruct l as [|d ds]; [intros []|].
  intros [->|Hin]; [apply fold_min_le_init | now apply fold_min_le_in].
Qed.

Lemma adi_value (R_est t_est R_gt t_gt pts : ndarray R) (M : nat) :
  shape pts = [M; 3%nat] -> (0 < M)%nat ->
  shape R_est = [3%nat; 3%nat] -> size t_est = 3%nat ->
  shape R_gt = [3%nat; 3%nat] -> size t_gt = 3%nat ->
  adi R_est t_est R_gt t_gt pts =
  Ok (Num (Rsum_upto M (fun m =>
             match
               map (fun j =>
                      sqrt (Rsum_upto 3 (fun c =>
                              (posed R_gt t_gt pts m c
                               - posed R_est t_est pts j c) ^ 2)))
                   (seq 0 M)
             with
             | [] => 0
             | d :: ds => fold_left Rmin ds d
             end)
           / INR M)).
Proof.
  intros Hp HM HRe Hte HRg Htg.
  destruct (transform_value pts R_est t_est M Hp HRe Hte)
    as [est [Eest [Sest Vest]]].
  destruct (transform_value pts R_gt t_gt M Hp HRg Htg)
    as [gt [Egt [Sgt Vgt]]].
  unfold adi. rewrite Eest, Egt. cbn [bind].
  unfold ckdtree_query. rewrite Sest, Sgt. cbn [Nat.eqb bind].
  rewrite tabulate_vector. unfold np_mean, size. cbn [shape data prod fold_right].
  rewrite Nat.mul_1_r.
  replace (M =? 0)%nat with false by (symmetry; apply Nat.eqb_neq; lia).
  do 3 f_equal. fold (Rsum_upto M (fun k =>
    match
      map (fun j => sqrt (Rsum_upto 3 (fun c =>
                      (get gt [hd 0%nat [k]; c] - get est [j; c]) ^ 2)))
          (seq 0 M)
    with
    | [] => 0
    | d :: ds => fold_left Rmin ds d
    end)).
  apply Rsum_upto_ext. intros m Hm. cbn [hd].
  replace (map (fun j => sqrt (Rsum_upto 3 (fun c =>
                  (get gt [m; c] - get est [j; c]) ^ 2))) (seq 0 M))
    with (map (fun j => sqrt (Rsum_upto 3 (fun c =>
                  (posed R_gt t_gt pts m c - posed R_est t_est pts j c) ^ 2)))
              (seq 0 M)); [reflexivity|].
  apply map_ext_in. intros j Hj. apply in_seq in Hj. f_equal.
  apply Rsum_upto_ext. intros c Hc.
  rewrite Vgt, Vest by lia. reflexivity.
Qed.



(** *** More on the point transforms *)

(** Runs through the binds of a successful call. *)
Ltac bind_inv H :=
  repeat match type of H with
         | bind ?r _ = Ok _ =>
             let E := fresh "E" in
             destruct r eqn:E; cbn [bind] in H; [|discriminate H]
         end.

(** Two well-formed arrays of one shape with equal entries are equal. *)
Lemma array_ext (a b : ndarray R) :
  shape a = shape b -> wf a -> wf b ->
  (forall idx, valid_index idx (shape a) -> get a idx = get b idx) ->
  a = b.
Proof.
  destruct a as [sa da], b as [sb db]. unfold wf, size, get, at_index.
  cbn [shape data]. intros <- Ha Hb H. f_equal.
  apply (nth_ext _ _ 0 0); [congruence|].
  intros k Hk. rewrite Ha in Hk.
  specialize (H (unravel sa k) (unravel_valid sa k Hk)).
  now rewrite ravel_unravel in H by exact Hk.
Qed.

Lemma transform_pts_Rt_wf (pts Rot t out : ndarray R) :
  transform_pts_Rt pts Rot t = Ok out -> wf out.
Proof.
  intros H. unfold transform_pts_Rt in H. bind_inv H.
  injection H as <-. apply tabulate_wf.
Qed.

(** X5.  For a point set of shape M x 3, a 3 x 3 matrix and a translation
    of three elements (a 3-vector or a 3 x 1 column), the single-pose
    transform returns an array of shape M x 3 whose row [m] is
    [R . pts[m] + t]: points-major, point order preserved. *)
Theorem transform_pts_Rt_points_major (pts Rot t : ndarray R) (M : nat) :
  shape pts = [M; 3%nat] ->
  shape Rot = [3%nat; 3%nat] ->
  size t = 3%nat ->
  exists out,
    transform_pts_Rt pts Rot t = Ok out /\
    shape out = [M; 3%nat] /\
    forall m c, (m < M)%nat -> (c < 3)%nat ->
      get out [m; c] =
      Rsum_upto 3 (fun k => get Rot [c; k] * get pts [m; k]) + flat t c.
Proof.
  intros Hp HR Ht.
  destruct (transform_value pts Rot t M Hp HR Ht) as [out [E [Hs Hv]]].
  exists out. split; [exact E|]. split; [exact Hs|].
  intros m c Hm Hc. now rewrite Hv.
Qed.

Lemma transform_pts_Rt_points_major_witness :
  exists out,
    transform_pts_Rt (mkarr [2; 3]%nat [1; 2; 3; 4; 5; 6])
                     (mkarr [3; 3]%nat quarter_turn_z)
                     (mkarr [3; 1]%nat [10; 20; 30]) = Ok out /\
    shape out = [2; 3]%nat /\
    forall m c, (m < 2)%nat -> (c < 3)%nat ->
      get out [m; c] =
      Rsum_upto 3 (fun k =>
        get (mkarr [3; 3]%nat quarter_turn_z) [c; k]
        * get (mkarr [2; 3]%nat [1; 2; 3; 4; 5; 6]) [m; k])
      + flat (mkarr [3; 1]%nat [10; 20; 30]) c.
Proof.
  apply (transform_pts_Rt_points_major
           (mkarr [2; 3]%nat [1; 2; 3; 4; 5; 6])
           (mkarr [3; 3]%nat quarter_turn_z)
           (mkarr [3; 1]%nat [10; 20; 30]) 2); reflexivity.
Defined.

(** X6.  With the identity rotation and the zero translation the
    single-pose transform returns the point set unchanged. *)
Theorem transform_pts_Rt_identity (pts : ndarray R) (M : nat) :
  shape pts = [M; 3%nat] -> wf pts ->
  transform_pts_Rt pts (mkarr [3; 3]%nat identity3) (mkarr [3%nat] zero3)
  = Ok pts.
Proof.
  intros Hp Hw.
  destruct (transform_value pts (mkarr [3; 3]%nat identity3)
              (mkarr [3%nat] zero3) M Hp eq_refl eq_refl)
    as [out [E [Hs Hv]]].
  rewrite E. f_equal. apply array_ext.
  - congruence.
  - eapply transform_pts_Rt_wf, E.
  - exact Hw.
  - rewrite Hs. intros idx Hidx.
    inversion Hidx as [|m M' idx1 s1 Hm H1]; subst.
    inversion H1 as [|c C' idx2 s2 Hc H2]; subst.
    inversion H2; subst.
    rewrite Hv by assumption.
    unfold posed, Rsum_upto, Rsum, flat, get, at_index, identity3, zero3.
    cbn [seq map fold_right shape data].
    index_cases c; simpl; rewrite ?Hp; simpl; lra.
Qed.

Lemma transform_pts_Rt_identity_witness :
  transform_pts_Rt (mkarr [2; 3]%nat [1; 2; 3; 4; 5; 6])
                   (mkarr [3; 3]%nat identity3) (mkarr [3%nat] zero3)
  = Ok (mkarr [2; 3]%nat [1; 2; 3; 4; 5; 6]).
Proof.
  apply (transform_pts_Rt_identity (mkarr [2; 3]%nat [1; 2; 3; 4; 5; 6]) 2);
    reflexivity.
Defined.

Lemma nth_slice (d : list R) (w n i : nat) :
  (i < w)%nat ->
  nth i (firstn w (skipn (n * w) d)) 0 = nth (n * w + i) d 0.
Proof.
  intros Hi. rewrite nth_firstn.
  replace (i <? w)%nat with true by (symmetry; apply Nat.ltb_lt; lia).
  apply nth_skipn.
Qed.

Lemma get_index0_matrix (a : ndarray R) (N n i j : nat) :
  shape a = [N; 3%nat; 3%nat] -> (i < 3)%nat -> (j < 3)%nat ->
  get (np_index0 a n) [i; j] = get a [n; i; j].
Proof.
  intros Hs Hi Hj. unfold get, at_index, np_index0. rewrite Hs.
  cbn [tl shape data ravel prod fold_right].
  replace (3 * (3 * 1))%nat with 9%nat by reflexivity.
  rewrite nth_slice by lia. f_equal; lia.
Qed.

Lemma flat_index0_vector (a : ndarray R) (N n c : nat) :
  shape a = [N; 3%nat] -> (c < 3)%nat ->
  flat (np_index0 a n) c = get a [n; c].
Proof.
  intros Hs Hc. unfold flat, get, at_index, np_index0. rewrite Hs.
  cbn [tl shape data ravel prod fold_right].
  replace (3 * 1)%nat with 3%nat by reflexivity.
  rewrite nth_slice by lia. f_equal; lia.
Qed.

(** X7.  The batched transform is the stack of the single-pose
    transforms: for every pose [n] of the batch, slot [n] of the batched
    result holds the transpose of what the single-pose transform returns
    for rotation [R[n]] and translation [t[n]]. *)
Theorem transform_batch_stacks_single (pts Rot t : ndarray R) (N M n : nat) :
  shape pts = [M; 3%nat] ->
  shape Rot = [N; 3%nat; 3%nat] ->
  shape t = [N; 3%nat] ->
  (n < N)%nat ->
  exists batched single,
    transform_pts_Rt_batch pts Rot t = Ok batched /\
    transform_pts_Rt pts (np_index0 Rot n) (np_index0 t n) = Ok single /\
    forall m c, (m < M)%nat -> (c < 3)%nat ->
      get batched [n; c; m] = get single [m; c].
Proof.
  intros Hp HR Ht Hn.
  assert (Hsz : size t = (N * 3)%nat)
    by (unfold size; rewrite Ht; cbn [prod fold_right]; lia).
  destruct (transform_batch_value pts Rot t N M Hp HR Hsz)
    as [batched [Eb [_ [_ Vb]]]].
  assert (HRn : shape (np_index0 Rot n) = [3; 3]%nat)
    by (unfold np_index0; rewrite HR; reflexivity).
  assert (Htn : size (np_index0 t n) = 3%nat)
    by (unfold np_index0, size; rewrite Ht; reflexivity).
  destruct (transform_value pts _ _ M Hp HRn Htn) as [single [Es [_ Vs]]].
  exists batched, single. split; [exact Eb|]. split; [exact Es|].
  intros m c Hm Hc. rewrite Vb, Vs by assumption. unfold posed.
  rewrite (flat_index0_vector t N n c Ht Hc).
  f_equal.
  - apply Rsum_upto_ext. intros k Hk.
    now rewrite (get_index0_matrix Rot N n c k HR Hc Hk).
  - unfold flat, get, at_index. rewrite Ht. f_equal.
    cbn [ravel prod fold_right]. lia.
Qed.

Lemma transform_batch_stacks_single_witness :
  let pts := mkarr [2; 3]%nat [1; 2; 3; 4; 5; 6] in
  let Rot := mkarr [2; 3; 3]%nat (identity3 ++ quarter_turn_z) in
  let t := mkarr [2; 3]%nat [0; 0; 0; 1; 1; 1] in
  exists batched single,
    transform_pts_Rt_batch pts Rot t = Ok batched /\
    transform_pts_Rt pts (np_index0 Rot 1) (np_index0 t 1) = Ok single /\
    forall m c, (m < 2)%nat -> (c < 3)%nat ->
      get batched [1%nat; c; m] = get single [m; c].
Proof.
  cbv zeta.
  apply (transform_batch_stacks_single
           (mkarr [2; 3]%nat [1; 2; 3; 4; 5; 6])
           (mkarr [2; 3; 3]%nat (identity3 ++ quarter_turn_z))
           (mkarr [2; 3]%nat [0; 0; 0; 1; 1; 1]) 2 2 1);
    try reflexivity.
  lia.
Defined.

(** X8.  The check [pts.shape[1] == 3] guards the whole call chain: a
    point set with at least two dimensions whose second one is not 3
    makes both transforms and [adi] fail with an assertion error whatever
    the poses are, and [add] too once its own check of [R_est] has
    passed. *)
Theorem point_set_width_is_asserted
  (pts Rot t R_est t_est R_gt t_gt : ndarray R) (d : nat) (pre : list nat) :
  nth_error (shape pts) 1 = Some d -> d <> 3%nat ->
  transform_pts_Rt pts Rot t = Raise AssertionError /\
  transform_pts_Rt_batch pts Rot t = Raise AssertionError /\
  adi R_est t_est R_gt t_gt pts = Raise AssertionError /\
  (shape R_est = pre ++ [3; 3]%nat ->
   add R_est t_est R_gt t_gt pts = Raise AssertionError).
Proof.
  intros Hd Hne.
  assert (Hb : (d =? 3)%nat = false) by now apply Nat.eqb_neq.
  assert (H1 : forall Rot t, transform_pts_Rt pts Rot t = Raise AssertionError).
  { intros Rot' t'. unfold transform_pts_Rt, shape_at. rewrite Hd.
    cbn [bind]. now rewrite Hb. }
  assert (H2 : forall Rot t,
             transform_pts_Rt_batch pts Rot t = Raise AssertionError).
  { intros Rot' t'. unfold transform_pts_Rt_batch, shape_at. rewrite Hd.
    cbn [bind]. now rewrite Hb. }
  repeat split.
  - apply H1.
  - apply H2.
  - unfold adi. now rewrite H1.
  - intros Hs.
    destruct (shape_tail_lookup R_est pre 3 3 Hs) as [E1 [E2 _]].
    unfold add. rewrite E1. cbn [bind Nat.eqb py_assert]. rewrite E2.
    cbn [bind Nat.eqb py_assert]. now rewrite H2.
Qed.

Lemma point_set_width_is_asserted_witness :
  let pts := mkarr [2; 2]%nat [1; 2; 3; 4] in
  let Rot := mkarr [3; 3]%nat identity3 in
  let t := mkarr [3%nat] zero3 in
  transform_pts_Rt pts Rot t = Raise AssertionError /\
  transform_pts_Rt_batch pts Rot t = Raise AssertionError /\
  adi Rot t Rot t pts = Raise AssertionError /\
  (shape (batch_of_one Rot) = [1%nat] ++ [3; 3]%nat ->
   add (batch_of_one Rot) (batch_of_one t) Rot t pts = Raise AssertionError).
Proof.
  cbv zeta.
  apply (point_set_width_is_asserted
           (mkarr [2; 2]%nat [1; 2; 3; 4])
           (mkarr [3; 3]%nat identity3) (mkarr [3%nat] zero3)
           (batch_of_one (mkarr [3; 3]%nat identity3))
           (batch_of_one (mkarr [3%nat] zero3))
           (mkarr [3; 3]%nat identity3) (mkarr [3%nat] zero3)
           2 [1%nat]).
  - reflexivity.
  - discriminate.
Defined.

(** X9.  A translation with the wrong number of elements is rejected by
    the reshape: on well-shaped points and rotations the single-pose
    transform raises ValueError unless [t] holds exactly three elements,
    and the batched one raises ValueError when the number of elements of
    [t] is not a multiple of three. *)
Theorem translation_size_is_checked_by_reshape
  (pts Rot Rots t : ndarray R) (N M : nat) :
  shape pts = [M; 3%nat] ->
  shape Rot = [3%nat; 3%nat] ->
  shape Rots = [N; 3%nat; 3%nat] ->
  (size t <> 3%nat -> transform_pts_Rt pts Rot t = Raise ValueError) /\
  ((size t mod 3)%nat <> 0%nat ->
   transform_pts_Rt_batch pts Rots t = Raise ValueError).
Proof.
  intros Hp HR HRs. split; intros Ht.
  - destruct (matmul_single pts Rot M Hp HR) as [mm [Emm _]].
    unfold transform_pts_Rt, shape_at. rewrite Hp. cbn [nth_error bind].
    cbn [Nat.eqb py_assert bind]. rewrite Emm. cbn [bind].
    unfold np_reshape. cbn [fold_right filter length].
    replace (3 * (1 * 1) =? size t)%nat with false
      by (symmetry; apply Nat.eqb_neq; cbn; lia).
    reflexivity.
  - unfold transform_pts_Rt_batch, shape_at. rewrite Hp.
    cbn [nth_error bind]. cbn [Nat.eqb py_assert bind].
    unfold np_matmul, ndim, np_T. rewrite HRs, Hp, tabulate_shape.
    cbn [rev app length Nat.eqb split_last2].
    cbn [broadcast_shapes rev broadcast_rev option_map app length bind].
    unfold np_reshape. cbn [fold_right filter length].
    replace (3 * (1 * 1))%nat with 3%nat by reflexivity.
    replace (size t mod 3 =? 0)%nat with false
      by (symmetry; now apply Nat.eqb_neq).
    reflexivity.
Qed.

Lemma translation_size_is_checked_by_reshape_witness :
  transform_pts_Rt (mkarr [1; 3]%nat [1; 2; 3])
                   (mkarr [3; 3]%nat identity3)
                   (mkarr [2; 3]%nat [0; 0; 0; 0; 0; 0]) = Raise ValueError /\
  transform_pts_Rt_batch (mkarr [1; 3]%nat [1; 2; 3])
                   (mkarr [1; 3; 3]%nat identity3)
                   (mkarr [4%nat] [0; 0; 0; 0]) = Raise ValueError.
Proof.
  destruct (translation_size_is_checked_by_reshape
              (mkarr [1; 3]%nat [1; 2; 3]) (mkarr [3; 3]%nat identity3)
              (mkarr [1; 3; 3]%nat identity3)
              (mkarr [2; 3]%nat [0; 0; 0; 0; 0; 0]) 1 1
              eq_refl eq_refl eq_refl) as [H1 _].
  destruct (translation_size_is_checked_by_reshape
              (mkarr [1; 3]%nat [1; 2; 3]) (mkarr [3; 3]%nat identity3)
              (mkarr [1; 3; 3]%nat identity3)
              (mkarr [4%nat] [0; 0; 0; 0]) 1 1
              eq_refl eq_refl eq_refl) as [_ H2].
  split; [apply H1 | apply H2]; unfold size; simpl; lia.
Defined.

(** The product of two 3 x 3 matrices. *)
Lemma matmul_33 (A B : ndarray R) :
  shape A = [3%nat; 3%nat] ->
  shape B = [3%nat; 3%nat] ->
  exists mm,
    np_matmul A B = Ok mm /\
    shape mm = [3%nat; 3%nat] /\
    forall i j, (i < 3)%nat -> (j < 3)%nat ->
      get mm [i; j] = Rsum_upto 3 (fun k => get A [i; k] * get B [k; j]).
Proof.
  intros HA HB.
  unfold np_matmul, ndim. rewrite HA, HB.
  cbn [length Nat.eqb split_last2 rev app].
  cbn [broadcast_shapes rev broadcast_rev option_map app length].
  eexists. split; [reflexivity|]. split; [reflexivity|].
  intros i j Hi Hj. unfold get. cbn [shape data].
  rewrite (at_index_tabulate 0 [3%nat; 3%nat]) by (now apply valid2).
  cbn [firstn nth]. unfold bindex. cbn [length Nat.sub skipn map2 app].
  rewrite HA, HB. reflexivity.
Qed.

(** X10.  Two single-pose transforms in a row are one transform: moving
    the points by [(R1, t1)] and then by [(R2, t2)] gives the same array
    as moving them by the rotation [R2 @ R1] and the translation obtained
    by moving [t1] by [(R2, t2)]. *)
Theorem transform_pts_Rt_compose (pts R1 t1 R2 t2 : ndarray R) (M : nat) :
  shape pts = [M; 3%nat] ->
  shape R1 = [3%nat; 3%nat] -> size t1 = 3%nat ->
  shape R2 = [3%nat; 3%nat] -> size t2 = 3%nat ->
  exists mid out R21 t21,
    transform_pts_Rt pts R1 t1 = Ok mid /\
    transform_pts_Rt mid R2 t2 = Ok out /\
    np_matmul R2 R1 = Ok R21 /\
    transform_pts_Rt (mkarr [1; 3]%nat (data t1)) R2 t2 = Ok t21 /\
    transform_pts_Rt pts R21 t21 = Ok out.
Proof.
  intros Hp H1 Ht1 H2 Ht2.
  destruct (transform_value pts R1 t1 M Hp H1 Ht1) as [mid [Em [Sm Vm]]].
  destruct (transform_value mid R2 t2 M Sm H2 Ht2) as [out [Eo [So Vo]]].
  destruct (matmul_33 R2 R1 H2 H1) as [R21 [ER [SR VR]]].
  destruct (transform_value (mkarr [1; 3]%nat (data t1)) R2 t2 1
              eq_refl H2 Ht2) as [t21 [Et [St Vt]]].
  assert (Hsz : size t21 = 3%nat) by (unfold size; now rewrite St).
  destruct (transform_value pts R21 t21 M Hp SR Hsz) as [dir [Ed [Sd Vd]]].
  exists mid, out, R21, t21.
  repeat (split; [assumption|]).
  rewrite Ed. f_equal. apply array_ext.
  - congruence.
  - eapply transform_pts_Rt_wf, Ed.
  - eapply transform_pts_Rt_wf, Eo.
  - rewrite Sd. intros idx Hidx.
    inversion Hidx as [|m M' idx1 s1 Hm Hi1]; subst.
    inversion Hi1 as [|c C' idx2 s2 Hc Hi2]; subst.
    inversion Hi2; subst.
    rewrite Vd, Vo by assumption. unfold posed.
    assert (Ef : flat t21 c = get t21 [0%nat; c]).
    { unfold flat, get, at_index. rewrite St. f_equal.
      cbn [ravel prod fold_right]. lia. }
    rewrite Ef, Vt by lia. unfold posed, Rsum_upto. cbn [seq map].
    rewrite !Vm, !VR by lia. unfold posed, Rsum_upto, Rsum.
    cbn [seq map fold_right].
    assert (Ep : forall k, (k < 3)%nat ->
               get (mkarr [1; 3]%nat (data t1)) [0%nat; k] = flat t1 k).
    { intros k _. unfold get, flat, at_index. cbn [shape data]. f_equal.
      cbn [ravel prod fold_right]. lia. }
    rewrite !Ep by lia. ring.
Qed.

Lemma transform_pts_Rt_compose_witness :
  let pts := mkarr [2; 3]%nat [1; 2; 3; 4; 5; 6] in
  let R1 := mkarr [3; 3]%nat quarter_turn_z in
  let t1 := mkarr [3%nat] [1; 0; 0] in
  let R2 := mkarr [3; 3]%nat quarter_turn_z in
  let t2 := mkarr [3%nat] [0; 0; 2] in
  exists mid out R21 t21,
    transform_pts_Rt pts R1 t1 = Ok mid /\
    transform_pts_Rt mid R2 t2 = Ok out /\
    np_matmul R2 R1 = Ok R21 /\
    transform_pts_Rt (mkarr [1; 3]%nat (data t1)) R2 t2 = Ok t21 /\
    transform_pts_Rt pts R21 t21 = Ok out.
Proof.
  cbv zeta.
  apply (transform_pts_Rt_compose
           (mkarr [2; 3]%nat [1; 2; 3; 4; 5; 6])
           (mkarr [3; 3]%nat quarter_turn_z) (mkarr [3%nat] [1; 0; 0])
           (mkarr [3; 3]%nat quarter_turn_z) (mkarr [3%nat] [0; 0; 2]) 2);
    reflexivity.
Defined.

(** *** More on ADD *)

Lemma broadcast_batch_against_one N C M :
  broadcast_shapes [N; C; M] [1%nat; C; M] = Some [N; C; M].
Proof.
  unfold broadcast_shapes. cbn [rev app broadcast_rev].
  rewrite !Nat.eqb_refl. cbn [Nat.eqb].
  destruct (Nat.eqb_spec N 1) as [->|HN]; reflexivity.
Qed.

(** [add] on a batch of [N] poses and a single ground-truth pose: one
    entry per pose, the mean over the points of the distance between the
    two transformed points, or NaN when there is no point. *)
Lemma add_value (R_est t_est R_gt t_gt pts : ndarray R) (N M : nat) :
  shape pts = [M; 3%nat] ->
  shape R_est = [N; 3%nat; 3%nat] -> size t_est = (N * 3)%nat ->
  shape R_gt = [3%nat; 3%nat] -> size t_gt = 3%nat ->
  exists out,
    add R_est t_est R_gt t_gt pts = Ok out /\
    shape out = [N] /\
    forall n, (n < N)%nat ->
      getv out [n] =
      if (M =? 0)%nat then NaN
      else Num (Rsum_upto M (fun m =>
                  sqrt (Rsum_upto 3 (fun c =>
                          (posed_batch R_est t_est pts n m c
                           - posed R_gt t_gt pts m c) ^ 2)))
                / INR M).
Proof.
  intros Hp HRe Hte HRg Htg.
  destruct (transform_batch_value pts R_est t_est N M Hp HRe Hte)
    as [est [Eest [Sest [_ Vest]]]].
  destruct (transform_batch_single_value pts R_gt t_gt M Hp HRg Htg)
    as [gt [Egt [Sgt Vgt]]].
  destruct (shape_tail_lookup R_est [N] 3 3 HRe) as [E1 [E2 _]].
  unfold add. rewrite E1. cbn [bind Nat.eqb py_assert]. rewrite E2.
  cbn [bind Nat.eqb py_assert]. rewrite Eest, Egt. cbn [bind].
  unfold np_sub, broadcast2. rewrite Sest, Sgt, broadcast_batch_against_one.
  cbn [bind].
  rewrite (np_sum_axis1_3d _ N 3 M) by reflexivity. cbn [bind].
  unfold np_mean_axis.
  rewrite (np_sum_axis1_2d _ N M) by reflexivity. cbn [bind].
  rewrite !np_map_shape, !tabulate_shape. cbn [nth].
  eexists. split; [reflexivity|]. split; [reflexivity|].
  intros n Hn.
  rewrite getv_map_tabulate by (now apply valid1).
  destruct (M =? 0)%nat; [reflexivity|]. do 2 f_equal.
  cbn [firstn skipn app].
  apply Rsum_upto_ext. intros m Hm.
  rewrite get_map_tabulate by (now apply valid2).
  cbn [firstn skipn app]. f_equal.
  apply Rsum_upto_ext. intros c Hc.
  rewrite get_map_tabulate by (now apply valid3).
  rewrite (bindex_valid [n; c; m] [N; 3%nat; M]) by (now apply valid3).
  unfold bindex at 1. cbn [length Nat.sub skipn map2 Nat.eqb].
  replace (if (M =? 1)%nat then 0%nat else m) with m
    by (destruct (Nat.eqb_spec M 1); lia).
  rewrite Vest, Vgt by assumption. reflexivity.
Qed.

(** X11.  On a batch of [N] poses, a single ground-truth pose and [M >= 1]
    points, [add] returns [N] numbers; entry [n] is the mean, over the
    points, of the Euclidean distance between the point moved by pose [n]
    and the same point moved by the ground-truth pose.  Entry [n] depends
    on pose [n] only. *)
Theorem add_mean_paired_distance
  (R_est t_est R_gt t_gt pts : ndarray R) (N M : nat) :
  shape pts = [M; 3%nat] -> (0 < M)%nat ->
  shape R_est = [N; 3%nat; 3%nat] -> size t_est = (N * 3)%nat ->
  shape R_gt = [3%nat; 3%nat] -> size t_gt = 3%nat ->
  exists out,
    add R_est t_est R_gt t_gt pts = Ok out /\
    shape out = [N] /\
    forall n, (n < N)%nat ->
      getv out [n] =
      Num (Rsum_upto M (fun m =>
             sqrt (Rsum_upto 3 (fun c =>
                     (posed_batch R_est t_est pts n m c
                      - posed R_gt t_gt pts m c) ^ 2)))
           / INR M).
Proof.
  intros Hp HM HRe Hte HRg Htg.
  destruct (add_value R_est t_est R_gt t_gt pts N M Hp HRe Hte HRg Htg)
    as [out [E [Hs Hv]]].
  exists out. split; [exact E|]. split; [exact Hs|].
  intros n Hn. rewrite (Hv n Hn).
  now replace (M =? 0)%nat with false by (symmetry; apply Nat.eqb_neq; lia).
Qed.

Lemma add_mean_paired_distance_witness :
  let R_est := mkarr [2; 3; 3]%nat two_poses in
  let t_est := mkarr [2; 3]%nat [0; 0; 0; 1; 1; 1] in
  let R_gt := mkarr [3; 3]%nat identity3 in
  let t_gt := mkarr [3%nat] zero3 in
  let pts := mkarr [2; 3]%nat [1; 2; 3; 4; 5; 6] in
  exists out,
    add R_est t_est R_gt t_gt pts = Ok out /\
    shape out = [2%nat] /\
    forall n, (n < 2)%nat ->
      getv out [n] =
      Num (Rsum_upto 2 (fun m =>
             sqrt (Rsum_upto 3 (fun c =>
                     (posed_batch R_est t_est pts n m c
                      - posed R_gt t_gt pts m c) ^ 2)))
           / INR 2).
Proof.
  cbv zeta.
  apply (add_mean_paired_distance
           (mkarr [2; 3; 3]%nat two_poses)
           (mkarr [2; 3]%nat [0; 0; 0; 1; 1; 1])
           (mkarr [3; 3]%nat identity3) (mkarr [3%nat] zero3)
           (mkarr [2; 3]%nat [1; 2; 3; 4; 5; 6]) 2 2);
    try reflexivity.
  lia.
Defined.

(** X12.  With an empty point set [add] raises nothing and returns one
    NaN per pose: the mean runs over an axis of length 0. *)
Theorem add_empty_point_set_is_nan
  (R_est t_est R_gt t_gt pts : ndarray R) (N : nat) :
  shape pts = [0%nat; 3%nat] ->
  shape R_est = [N; 3%nat; 3%nat] -> size t_est = (N * 3)%nat ->
  shape R_gt = [3%nat; 3%nat] -> size t_gt = 3%nat ->
  exists out,
    add R_est t_est R_gt t_gt pts = Ok out /\
    shape out = [N] /\
    forall n, (n < N)%nat -> getv out [n] = NaN.
Proof.
  intros Hp HRe Hte HRg Htg.
  destruct (add_value R_est t_est R_gt t_gt pts N 0 Hp HRe Hte HRg Htg)
    as [out [E [Hs Hv]]].
  exists out. split; [exact E|]. split; [exact Hs|].
  intros n Hn. now rewrite (Hv n Hn).
Qed.

Lemma add_empty_point_set_is_nan_witness :
  exists out,
    add (mkarr [2; 3; 3]%nat two_poses)
        (mkarr [2; 3]%nat [0; 0; 0; 1; 1; 1])
        (mkarr [3; 3]%nat identity3) (mkarr [3%nat] zero3)
        (mkarr [0; 3]%nat []) = Ok out /\
    shape out = [2%nat] /\
    forall n, (n < 2)%nat -> getv out [n] = NaN.
Proof.
  apply (add_empty_point_set_is_nan
           (mkarr [2; 3; 3]%nat two_poses)
           (mkarr [2; 3]%nat [0; 0; 0; 1; 1; 1])
           (mkarr [3; 3]%nat identity3) (mkarr [3%nat] zero3)
           (mkarr [0; 3]%nat []) 2); reflexivity.
Defined.

Lemma Rsum_upto_const (M : nat) (x : R) :
  Rsum_upto M (fun _ => x) = INR M * x.
Proof.
  unfold Rsum_upto. generalize 0%nat.
  induction M as [|M IH]; intros s.
  - simpl. lra.
  - cbn [seq map Rsum fold_right]. fold (Rsum (map (fun _ => x) (seq (S s) M))).
    rewrite IH, S_INR. lra.
Qed.

(** X13.  When pose [n] of the batch has the rotation of the ground
    truth, entry [n] of [add] is the Euclidean distance between the two
    translations, whatever the points are (at least one point). *)
Theorem add_equal_rotation_is_translation_distance
  (R_est t_est R_gt t_gt pts : ndarray R) (N M n : nat) :
  shape pts = [M; 3%nat] -> (0 < M)%nat ->
  shape R_est = [N; 3%nat; 3%nat] -> size t_est = (N * 3)%nat ->
  shape R_gt = [3%nat; 3%nat] -> size t_gt = 3%nat ->
  (n < N)%nat ->
  (forall c k, (c < 3)%nat -> (k < 3)%nat ->
     get R_est [n; c; k] = get R_gt [c; k]) ->
  exists out,
    add R_est t_est R_gt t_gt pts = Ok out /\
    getv out [n] =
    Num (sqrt (Rsum_upto 3 (fun c =>
                 (flat t_est (n * 3 + c) - flat t_gt c) ^ 2))).
Proof.
  intros Hp HM HRe Hte HRg Htg Hn HR.
  destruct (add_value R_est t_est R_gt t_gt pts N M Hp HRe Hte HRg Htg)
    as [out [E [Hs Hv]]].
  exists out. split; [exact E|]. rewrite (Hv n Hn).
  replace (M =? 0)%nat with false by (symmetry; apply Nat.eqb_neq; lia).
  f_equal.
  rewrite (Rsum_upto_ext M _
             (fun _ => sqrt (Rsum_upto 3 (fun c =>
                (flat t_est (n * 3 + c) - flat t_gt c) ^ 2)))).
  - rewrite Rsum_upto_const. field. apply not_0_INR. lia.
  - intros m Hm. f_equal. apply Rsum_upto_ext. intros c Hc.
    unfold posed_batch, posed.
    rewrite (Rsum_upto_ext 3 (fun k => get R_est [n; c; k] * get pts [m; k])
               (fun k => get R_gt [c; k] * get pts [m; k])).
    + f_equal. ring.
    + intros k Hk. now rewrite HR.
Qed.

Lemma add_equal_rotation_is_translation_distance_witness :
  let R_est := mkarr [2; 3; 3]%nat two_poses in
  let t_est := mkarr [2; 3]%nat [3; 4; 0; 1; 1; 1] in
  let R_gt := mkarr [3; 3]%nat identity3 in
  let t_gt := mkarr [3%nat] zero3 in
  let pts := mkarr [2; 3]%nat [1; 2; 3; 4; 5; 6] in
  exists out,
    add R_est t_est R_gt t_gt pts = Ok out /\
    getv out [0%nat] =
    Num (sqrt (Rsum_upto 3 (fun c =>
                 (flat t_est (0 * 3 + c) - flat t_gt c) ^ 2))).
Proof.
  cbv zeta.
  apply (add_equal_rotation_is_translation_distance
           (mkarr [2; 3; 3]%nat two_poses)
           (mkarr [2; 3]%nat [3; 4; 0; 1; 1; 1])
           (mkarr [3; 3]%nat identity3) (mkarr [3%nat] zero3)
           (mkarr [2; 3]%nat [1; 2; 3; 4; 5; 6]) 2 2 0);
    try reflexivity; try lia.
  intros c k Hc Hk. index_cases c; index_cases k; reflexivity.
Defined.

(** X14.  When pose [n] of the batch is the ground-truth pose, entry [n]
    of [add] is 0 (at least one point). *)
Theorem add_zero_at_ground_truth
  (R_est t_est R_gt t_gt pts : ndarray R) (N M n : nat) :
  shape pts = [M; 3%nat] -> (0 < M)%nat ->
  shape R_est = [N; 3%nat; 3%nat] -> size t_est = (N * 3)%nat ->
  shape R_gt = [3%nat; 3%nat] -> size t_gt = 3%nat ->
  (n < N)%nat ->
  (forall c k, (c < 3)%nat -> (k < 3)%nat ->
     get R_est [n; c; k] = get R_gt [c; k]) ->
  (forall c, (c < 3)%nat -> flat t_est (n * 3 + c) = flat t_gt c) ->
  exists out,
    add R_est t_est R_gt t_gt pts = Ok out /\ getv out [n] = Num 0.
Proof.
  intros Hp HM HRe Hte HRg Htg Hn HR Ht.
  destruct (add_value R_est t_est R_gt t_gt pts N M Hp HRe Hte HRg Htg)
    as [out [E [Hs Hv]]].
  exists out. split; [exact E|]. rewrite (Hv n Hn).
  replace (M =? 0)%nat with false by (symmetry; apply Nat.eqb_neq; lia).
  f_equal.
  rewrite (Rsum_upto_ext M _ (fun _ => 0)).
  - rewrite Rsum_upto_const. field. apply not_0_INR. lia.
  - intros m Hm. rewrite <- sqrt_0. f_equal.
    rewrite (Rsum_upto_ext 3 _ (fun _ => 0)).
    + rewrite Rsum_upto_const. ring.
    + intros c Hc. unfold posed_batch, posed. rewrite (Ht c Hc).
      rewrite (Rsum_upto_ext 3 (fun k => get R_est [n; c; k] * get pts [m; k])
                 (fun k => get R_gt [c; k] * get pts [m; k])).
      * ring.
      * intros k Hk. now rewrite HR.
Qed.

Lemma add_zero_at_ground_truth_witness :
  let R_est := mkarr [2; 3; 3]%nat two_poses in
  let t_est := mkarr [2; 3]%nat [0; 0; 0; 1; 1; 1] in
  let R_gt := mkarr [3; 3]%nat identity3 in
  let t_gt := mkarr [3%nat] zero3 in
  let pts := mkarr [2; 3]%nat [1; 2; 3; 4; 5; 6] in
  exists out,
    add R_est t_est R_gt t_gt pts = Ok out /\ getv out [0%nat] = Num 0.
Proof.
  cbv zeta.
  apply (add_zero_at_ground_truth
           (mkarr [2; 3; 3]%nat two_poses)
           (mkarr [2; 3]%nat [0; 0; 0; 1; 1; 1])
           (mkarr [3; 3]%nat identity3) (mkarr [3%nat] zero3)
           (mkarr [2; 3]%nat [1; 2; 3; 4; 5; 6]) 2 2 0);
    try reflexivity; try lia.
  - intros c k Hc Hk. index_cases c; index_cases k; reflexivity.
  - intros c Hc. index_cases c; reflexivity.
Defined.

(** *** More on ADI *)

Lemma fold_min_nonneg (ds : list R) (d : R) :
  0 <= d -> Forall (fun x => 0 <= x) ds -> 0 <= fold_left Rmin ds d.
Proof.
  intros Hd Hds. revert d Hd.
  induction Hds as [|e ds He Hds IH]; intros d Hd; simpl; [exact Hd|].
  apply IH. unfold Rmin. destruct (Rle_dec d e); assumption.
Qed.

Lemma nearest_nonneg (l : list R) :
  Forall (fun x => 0 <= x) l ->
  0 <= match l with
       | [] => 0
       | d :: ds => fold_left Rmin ds d
       end.
Proof.
  intros H. destruct H as [|d ds Hd Hds]; [lra|].
  now apply fold_min_nonneg.
Qed.

Lemma Rsum_upto_nonneg n (f : nat -> R) :
  (forall j, (j < n)%nat -> 0 <= f j) -> 0 <= Rsum_upto n f.
Proof.
  intros H.
  replace 0 with (Rsum_upto n (fun _ => 0))
    by (rewrite Rsum_upto_const; ring).
  now apply Rsum_upto_le.
Qed.

(** X15.  [adi] of a pose against itself is 0 (3 x 3 matrix, translation
    of three elements, at least one point): every transformed point is
    its own nearest neighbour. *)
Theorem adi_zero_at_ground_truth (Rot t pts : ndarray R) (M : nat) :
  shape pts = [M; 3%nat] -> (0 < M)%nat ->
  shape Rot = [3%nat; 3%nat] -> size t = 3%nat ->
  adi Rot t Rot t pts = Ok (Num 0).
Proof.
  intros Hp HM HR Ht.
  rewrite (adi_value Rot t Rot t pts M) by assumption.
  do 2 f_equal.
  rewrite (Rsum_upto_ext M _ (fun _ => 0)).
  - rewrite Rsum_upto_const. field. apply not_0_INR. lia.
  - intros m Hm. apply Rle_antisym.
    + eapply Rle_trans.
      * apply nearest_le. apply in_map_iff. exists m.
        split; [reflexivity|]. apply in_seq. lia.
      * right. rewrite <- sqrt_0. f_equal.
        rewrite (Rsum_upto_ext 3 _ (fun _ => 0)).
        -- rewrite Rsum_upto_const. ring.
        -- intros c _. ring.
    + apply nearest_nonneg. apply Forall_forall. intros x Hx.
      apply in_map_iff in Hx. destruct Hx as [j [<- _]]. apply sqrt_pos.
Qed.

Lemma adi_zero_at_ground_truth_witness :
  adi (mkarr [3; 3]%nat quarter_turn_z) (mkarr [3; 1]%nat [1; 2; 3])
      (mkarr [3; 3]%nat quarter_turn_z) (mkarr [3; 1]%nat [1; 2; 3])
      (mkarr [2; 3]%nat [1; 2; 3; 4; 5; 6]) = Ok (Num 0).
Proof.
  apply (adi_zero_at_ground_truth
           (mkarr [3; 3]%nat quarter_turn_z) (mkarr [3; 1]%nat [1; 2; 3])
           (mkarr [2; 3]%nat [1; 2; 3; 4; 5; 6]) 2); try reflexivity.
  lia.
Defined.

(** X16.  With at least one point both distance metrics are non-negative
    numbers: [adi] on a pair of single poses, and every entry of [add] on
    a batch of poses. *)
Theorem distance_metrics_nonnegative
  (R_est t_est R_gt t_gt Rs ts pts : ndarray R) (N M : nat) :
  shape pts = [M; 3%nat] -> (0 < M)%nat ->
  shape R_est = [3%nat; 3%nat] -> size t_est = 3%nat ->
  shape R_gt = [3%nat; 3%nat] -> size t_gt = 3%nat ->
  shape Rs = [N; 3%nat; 3%nat] -> size ts = (N * 3)%nat ->
  (exists e, adi R_est t_est R_gt t_gt pts = Ok (Num e) /\ 0 <= e) /\
  (exists out,
     add Rs ts R_gt t_gt pts = Ok out /\
     forall n, (n < N)%nat -> exists e, getv out [n] = Num e /\ 0 <= e).
Proof.
  intros Hp HM HRe Hte HRg Htg HRs Hts.
  assert (HI : 0 <= / INR M)
    by (apply Rlt_le, Rinv_0_lt_compat, lt_0_INR, HM).
  split.
  - rewrite (adi_value R_est t_est R_gt t_gt pts M) by assumption.
    eexists. split; [reflexivity|].
    unfold Rdiv. apply Rmult_le_pos; [|exact HI].
    apply Rsum_upto_nonneg. intros m Hm.
    apply nearest_nonneg. apply Forall_forall. intros x Hx.
    apply in_map_iff in Hx. destruct Hx as [j [<- _]]. apply sqrt_pos.
  - destruct (add_value Rs ts R_gt t_gt pts N M Hp HRs Hts HRg Htg)
      as [out [E [Hs Hv]]].
    exists out. split; [exact E|]. intros n Hn. rewrite (Hv n Hn).
    replace (M =? 0)%nat with false by (symmetry; apply Nat.eqb_neq; lia).
    eexists. split; [reflexivity|].
    unfold Rdiv. apply Rmult_le_pos; [|exact HI].
    apply Rsum_upto_nonneg. intros m Hm. apply sqrt_pos.
Qed.

Lemma distance_metrics_nonnegative_witness :
  let R_est := mkarr [3; 3]%nat quarter_turn_z in
  let t_est := mkarr [3%nat] [0; 0; 1] in
  let R_gt := mkarr [3; 3]%nat identity3 in
  let t_gt := mkarr [3%nat] zero3 in
  let Rs := mkarr [2; 3; 3]%nat two_poses in
  let ts := mkarr [2; 3]%nat [0; 0; 0; 1; 1; 1] in
  let pts := mkarr [2; 3]%nat [1; 0; 0; 0; 1; 0] in
  (exists e, adi R_est t_est R_gt t_gt pts = Ok (Num e) /\ 0 <= e) /\
  (exists out,
     add Rs ts R_gt t_gt pts = Ok out /\
     forall n, (n < 2)%nat -> exists e, getv out [n] = Num e /\ 0 <= e).
Proof.
  cbv zeta.
  apply (distance_metrics_nonnegative
           (mkarr [3; 3]%nat quarter_turn_z) (mkarr [3%nat] [0; 0; 1])
           (mkarr [3; 3]%nat identity3) (mkarr [3%nat] zero3)
           (mkarr [2; 3; 3]%nat two_poses)
           (mkarr [2; 3]%nat [0; 0; 0; 1; 1; 1])
           (mkarr [2; 3]%nat [1; 0; 0; 0; 1; 0]) 2 2);
    try reflexivity.
  lia.
Defined.

(** *** More on the rotation error *)

Lemma cos_arg_same (Rot : ndarray R) :
  det33 (mat33 Rot) <> 0 -> cos_arg Rot Rot = 1.
Proof.
  intros Hd. unfold cos_arg.
  rewrite (Rsum_upto_ext 3 _ (fun _ => 1)).
  - rewrite Rsum_upto_const. simpl. lra.
  - intros i Hi.
    now rewrite (adjugate_over_det_inverts (mat33 Rot) i i Hi Hi Hd),
      Nat.eqb_refl.
Qed.

(** X17.  [re] of an invertible 3 x 3 matrix against itself is 0 degrees;
    the matrix need not be a rotation. *)
Theorem re_zero_at_ground_truth (Rot : ndarray R) :
  shape Rot = [3%nat; 3%nat] ->
  det33 (mat33 Rot) <> 0 ->
  re Rot Rot = Ok (mkarr [1%nat] [Num 0]).
Proof.
  intros Hs Hd. rewrite (re_single_value Rot Rot Hs Hs Hd).
  rewrite (cos_arg_same Rot Hd).
  rewrite np_clip_above by lra.
  rewrite np_arccos_in_domain by lra.
  rewrite acos_1. unfold np_degrees. now rewrite Rmult_0_l.
Qed.

Lemma re_zero_at_ground_truth_witness :
  re (mkarr [3; 3]%nat [2; 0; 0; 0; 1; 0; 0; 0; 1])
     (mkarr [3; 3]%nat [2; 0; 0; 0; 1; 0; 0; 0; 1])
  = Ok (mkarr [1%nat] [Num 0]).
Proof.
  apply (re_zero_at_ground_truth (mkarr [3; 3]%nat [2; 0; 0; 0; 1; 0; 0; 0; 1])).
  - reflexivity.
  - unfold det33, adj33, mat33, get, at_index. simpl. lra.
Defined.

Lemma Reqb_true x y : x = y -> Reqb x y = true.
Proof.
  intros H. unfold Reqb. destruct (Req_dec_T x y); [reflexivity | contradiction].
Qed.

Lemma re_zero_determinant_raises (R_est R_gt : ndarray R) :
  shape R_est = [3%nat; 3%nat] ->
  shape R_gt = [3%nat; 3%nat] ->
  det33 (mat33 R_gt) = 0 ->
  re R_est R_gt = Raise LinAlgError.
Proof.
  intros HA HB Hdet.
  destruct R_est as [sA dA], R_gt as [sB dB]. cbn [shape] in HA, HB. subst.
  unfold re. cbn [shape_last2 ndim shape length Nat.sub skipn shape_eqb
                  Nat.eqb andb py_assert bind].
  rewrite !reshape_single_rotation by reflexivity. cbn [bind data].
  unfold np_linalg_inv. cbn [shape seq existsb].
  change (det33 (fun i j => get (mkarr [1; 3; 3]%nat dB) [0%nat; i; j]))
    with (det33 (mat33 (mkarr [3; 3]%nat dB))).
  rewrite (Reqb_true _ _ Hdet). reflexivity.
Qed.

Lemma det33_zero_row (m : nat -> nat -> R) (i : nat) :
  (i < 3)%nat -> (forall j, (j < 3)%nat -> m i j = 0) -> det33 m = 0.
Proof.
  intros Hi Hz.
  pose proof (Hz 0%nat ltac:(lia)) as H0.
  pose proof (Hz 1%nat ltac:(lia)) as H1.
  pose proof (Hz 2%nat ltac:(lia)) as H2.
  unfold det33, adj33. cbn [Nat.add Nat.modulo Nat.divmod fst snd Nat.sub].
  index_cases i; rewrite H0, H1, H2; ring.
Qed.

Lemma det33_zero_column (m : nat -> nat -> R) (j : nat) :
  (j < 3)%nat -> (forall i, (i < 3)%nat -> m i j = 0) -> det33 m = 0.
Proof.
  intros Hj Hz.
  pose proof (Hz 0%nat ltac:(lia)) as H0.
  pose proof (Hz 1%nat ltac:(lia)) as H1.
  pose proof (Hz 2%nat ltac:(lia)) as H2.
  unfold det33, adj33. cbn [Nat.add Nat.modulo Nat.divmod fst snd Nat.sub].
  index_cases j; rewrite H0, H1, H2; ring.
Qed.

(** X18.  [re] does not guard the matrix inversion: a 3 x 3 ground truth
    with a row of zeros, or with a column of zeros, makes it fail with
    the LinAlgError of [np.linalg.inv]. *)
Theorem re_degenerate_ground_truth_raises (R_est R_gt : ndarray R) :
  shape R_est = [3%nat; 3%nat] ->
  shape R_gt = [3%nat; 3%nat] ->
  (exists i, (i < 3)%nat /\ forall j, (j < 3)%nat -> mat33 R_gt i j = 0) \/
  (exists j, (j < 3)%nat /\ forall i, (i < 3)%nat -> mat33 R_gt i j = 0) ->
  re R_est R_gt = Raise LinAlgError.
Proof.
  intros HA HB [[i [Hi Hz]]|[j [Hj Hz]]];
    apply re_zero_determinant_raises; try assumption.
  - now apply (det33_zero_row _ i).
  - now apply (det33_zero_column _ j).
Qed.

Lemma re_degenerate_ground_truth_raises_witness :
  re (mkarr [3; 3]%nat identity3)
     (mkarr [3; 3]%nat [1; 0; 0; 0; 1; 0; 0; 0; 0]) = Raise LinAlgError.
Proof.
  apply re_degenerate_ground_truth_raises; try reflexivity.
  left. exists 2%nat. split; [lia|].
  intros j Hj. index_cases j; reflexivity.
Defined.

Lemma shape_eqb_eq s1 s2 : shape_eqb s1 s2 = true <-> s1 = s2.
Proof.
  revert s2. induction s1 as [|d1 s1 IH]; intros [|d2 s2]; simpl;
    try (split; [discriminate | congruence]); [tauto|].
  rewrite andb_true_iff, Nat.eqb_eq, IH. split.
  - intros [-> ->]. reflexivity.
  - intros H. injection H as -> ->. auto.
Qed.

(** X19.  [re] checks the estimated array only, and by a slice: whenever
    the last two dimensions of [R_est] are not 3 x 3 (fewer than two
    dimensions included) it fails with an assertion error, whatever
    [R_gt] is; and [R_gt] is not checked but reshaped, so any array of
    nine elements is taken as a 3 x 3 matrix. *)
Theorem re_checks_estimate_only (R_est R_gt : ndarray R) :
  (shape_last2 R_est <> [3; 3]%nat ->
   re R_est R_gt = Raise AssertionError) /\
  (size R_gt = 9%nat ->
   re R_est R_gt = re R_est (mkarr [3; 3]%nat (data R_gt))).
Proof.
  split.
  - intros H. unfold re.
    destruct (shape_eqb (shape_last2 R_est) [3; 3]%nat) eqn:E.
    + apply shape_eqb_eq in E. contradiction.
    + reflexivity.
  - intros H. unfold re.
    assert (E : np_reshape R_gt [None; Some 3%nat; Some 3%nat]
                = np_reshape (mkarr [3; 3]%nat (data R_gt))
                    [None; Some 3%nat; Some 3%nat]).
    { unfold np_reshape. rewrite H. reflexivity. }
    now rewrite E.
Qed.

Lemma re_checks_estimate_only_witness :
  re (mkarr [9%nat] identity3) (mkarr [3; 3]%nat identity3)
  = Raise AssertionError /\
  re (mkarr [3; 3]%nat quarter_turn_z) (mkarr [9%nat] identity3)
  = re (mkarr [3; 3]%nat quarter_turn_z) (mkarr [3; 3]%nat identity3).
Proof.
  split.
  - apply (proj1 (re_checks_estimate_only
                    (mkarr [9%nat] identity3) (mkarr [3; 3]%nat identity3))).
    discriminate.
  - apply (proj2 (re_checks_estimate_only
                    (mkarr [3; 3]%nat quarter_turn_z) (mkarr [9%nat] identity3))).
    reflexivity.
Defined.

Lemma adj33_ext (f g : nat -> nat -> R) :
  (forall i j, (i < 3)%nat -> (j < 3)%nat -> f i j = g i j) ->
  forall l i, adj33 f l i = adj33 g l i.
Proof.
  intros H l i. unfold adj33.
  rewrite !H by (apply Nat.mod_upper_bound; discriminate). reflexivity.
Qed.

Lemma det33_ext (f g : nat -> nat -> R) :
  (forall i j, (i < 3)%nat -> (j < 3)%nat -> f i j = g i j) ->
  det33 f = det33 g.
Proof.
  intros H. unfold det33.
  rewrite !(adj33_ext f g H), !H by lia. reflexivity.
Qed.

Lemma reshape_rotation_stack (a : ndarray R) (N : nat) :
  shape a = [N; 3; 3]%nat ->
  np_reshape a [None; Some 3%nat; Some 3%nat] = Ok a.
Proof.
  intros Hs. destruct a as [s d]. cbn [shape] in Hs. subst s.
  unfold np_reshape, size. cbn [shape data fold_right filter length map prod].
  replace (3 * (3 * 1))%nat with 9%nat by reflexivity.
  rewrite Nat.Div0.mod_mul, Nat.div_mul by discriminate.
  reflexivity.
Qed.

Lemma np_map_map {A B C} (f : A -> B) (g : B -> C) (a : ndarray A) :
  np_map g (np_map f a) = np_map (fun x => g (f x)) a.
Proof. unfold np_map. cbn [shape data]. now rewrite map_map. Qed.

(** X20.  On two stacks of [N] 3 x 3 matrices, every ground-truth matrix
    invertible, [re] returns [N] angles: entry [n] is the clipped arccos,
    in degrees, of the cosine argument of the [n]-th pair, a number
    between 0 and 180.  Pairs do not influence each other. *)
Theorem re_batch_pairwise (R_est R_gt : ndarray R) (N : nat) :
  shape R_est = [N; 3; 3]%nat ->
  shape R_gt = [N; 3; 3]%nat ->
  (forall n, (n < N)%nat -> det33 (mat33 (np_index0 R_gt n)) <> 0) ->
  exists out,
    re R_est R_gt = Ok out /\
    shape out = [N] /\
    forall n, (n < N)%nat ->
      exists a,
        getv out [n] = Num a /\ 0 <= a <= 180 /\
        a = acos (np_clip (-1) 1
                    (cos_arg (np_index0 R_est n) (np_index0 R_gt n)))
            * (180 / PI).
Proof.
  intros HA HB Hdet.
  assert (Hm : forall a, shape a = [N; 3; 3]%nat ->
               forall n i j, (i < 3)%nat -> (j < 3)%nat ->
               mat33 (np_index0 a n) i j = get a [n; i; j]).
  { intros a Ha n i j Hi Hj. unfold mat33.
    now apply (get_index0_matrix a N). }
  unfold re, shape_last2, ndim. rewrite HA.
  cbn [length Nat.sub skipn shape_eqb Nat.eqb andb py_assert bind].
  rewrite (reshape_rotation_stack R_est N HA),
    (reshape_rotation_stack R_gt N HB). cbn [bind].
  unfold np_linalg_inv. rewrite HB.
  destruct (existsb _ (seq 0 N)) eqn:Ex.
  { exfalso. apply existsb_exists in Ex. destruct Ex as [k [Hk Hs]].
    apply in_seq in Hk. apply (Hdet k); [lia|].
    unfold Reqb in Hs. destruct (Req_dec_T _ 0) as [E|]; [|discriminate].
    rewrite <- E. apply det33_ext. intros i j Hi Hj. now apply Hm. }
  cbn [bind]. unfold np_matmul, ndim. rewrite tabulate_shape, HA.
  cbn [length Nat.eqb split_last2 rev app].
  rewrite broadcast_shapes_same. cbn [length bind app].
  unfold np_trace12. cbn [shape bind].
  rewrite !np_map_map.
  eexists. split; [reflexivity|]. split; [reflexivity|].
  intros n Hn. rewrite getv_map_tabulate by (now apply valid1).
  cbn [hd tl Nat.min].
  match goal with
  | |- context [np_clip (-1) 1 ?x] =>
      replace x with (cos_arg (np_index0 R_est n) (np_index0 R_gt n))
  end.
  - destruct (clipped_angle (cos_arg (np_index0 R_est n) (np_index0 R_gt n)))
      as [a [Ha [Hb _]]].
    exists a. split; [exact Ha|]. split; [exact Hb|].
    rewrite np_arccos_in_domain in Ha by apply np_clip_bounds.
    unfold np_degrees in Ha. now injection Ha.
  - unfold cos_arg. do 2 f_equal.
    apply Rsum_upto_ext. intros i Hi. unfold get at 1. cbn [shape data].
    rewrite (at_index_tabulate 0 [N; 3; 3]%nat) by (now apply valid3).
    cbn [firstn nth]. rewrite (bindex_valid [n] [N]) by (now apply valid1).
    apply Rsum_upto_ext. intros l Hl. cbn [app].
    rewrite (at_index_tabulate 0 [N; 3; 3]%nat) by (now apply valid3).
    cbn [nth]. rewrite (Hm R_est HA) by assumption.
    unfold get at 1. rewrite HA. f_equal. f_equal.
    + apply adj33_ext. intros i' j' Hi' Hj'. now apply Hm.
    + apply det33_ext. intros i' j' Hi' Hj'. now apply Hm.
Qed.

Lemma re_batch_pairwise_witness :
  let R_est := mkarr [2; 3; 3]%nat two_poses in
  let R_gt := mkarr [2; 3; 3]%nat (quarter_turn_z ++ quarter_turn_z) in
  exists out,
    re R_est R_gt = Ok out /\
    shape out = [2%nat] /\
    forall n, (n < 2)%nat ->
      exists a,
        getv out [n] = Num a /\ 0 <= a <= 180 /\
        a = acos (np_clip (-1) 1
                    (cos_arg (np_index0 R_est n) (np_index0 R_gt n)))
            * (180 / PI).
Proof.
  cbv zeta.
  apply (re_batch_pairwise
           (mkarr [2; 3; 3]%nat two_poses)
           (mkarr [2; 3; 3]%nat (quarter_turn_z ++ quarter_turn_z)) 2);
    try reflexivity.
  intros n Hn.
  destruct n as [|[|n]]; try lia;
    unfold det33, adj33, mat33, get, at_index, np_index0, quarter_turn_z;
    simpl; lra.
Defined.

(** *** More on the translation error *)

Lemma te_same_shape_value (t_est t_gt : ndarray R) :
  shape t_est = shape t_gt -> size t_est = 3%nat ->
  te t_est t_gt =
  Ok (Num (Rsum [Rabs (flat t_gt 0 - flat t_est 0);
                 Rabs (flat t_gt 1 - flat t_est 1);
                 Rabs (flat t_gt 2 - flat t_est 2)] / 3)).
Proof.
  intros Hs Hn. unfold te.
  assert (Hg : size t_gt = 3%nat) by (unfold size in *; now rewrite <- Hs).
  rewrite Hn, Hg. cbn [Nat.eqb andb py_assert bind].
  rewrite np_sub_same_shape by (now symmetry).
  rewrite Hg. cbn [bind seq map]. unfold np_mean, np_map, size.
  cbn [shape data map]. fold (size t_gt). rewrite Hg.
  cbn [Nat.eqb]. unfold flat. do 3 f_equal. simpl. lra.
Qed.

(** X21.  On two inputs of one common shape with three elements, [te]
    does not depend on the order of its arguments. *)
Theorem te_symmetric (t_est t_gt : ndarray R) :
  shape t_est = shape t_gt -> size t_est = 3%nat ->
  te t_est t_gt = te t_gt t_est.
Proof.
  intros Hs Hn.
  assert (Hg : size t_gt = 3%nat) by (unfold size in *; now rewrite <- Hs).
  rewrite (te_same_shape_value t_est t_gt Hs Hn).
  rewrite (te_same_shape_value t_gt t_est (eq_sym Hs) Hg).
  now rewrite !(Rabs_minus_sym (flat t_gt _)).
Qed.

Lemma te_symmetric_witness :
  te (mkarr [3; 1]%nat [1; 2; 3]) (mkarr [3; 1]%nat [2; 2; 5])
  = te (mkarr [3; 1]%nat [2; 2; 5]) (mkarr [3; 1]%nat [1; 2; 3]).
Proof.
  apply te_symmetric; reflexivity.
Defined.

(** X22.  On two inputs of one common shape with three elements, [te] is
    a non-negative number, and it is 0 exactly when the two translations
    have the same three elements. *)
Theorem te_zero_iff_equal (t_est t_gt : ndarray R) :
  shape t_est = shape t_gt -> size t_est = 3%nat ->
  exists e,
    te t_est t_gt = Ok (Num e) /\ 0 <= e /\
    (e = 0 <-> forall i, (i < 3)%nat -> flat t_est i = flat t_gt i).
Proof.
  intros Hs Hn. rewrite (te_same_shape_value t_est t_gt Hs Hn).
  eexists. split; [reflexivity|].
  pose proof (Rabs_pos (flat t_gt 0 - flat t_est 0)) as P0.
  pose proof (Rabs_pos (flat t_gt 1 - flat t_est 1)) as P1.
  pose proof (Rabs_pos (flat t_gt 2 - flat t_est 2)) as P2.
  cbn [Rsum fold_right]. split; [lra|]. split.
  - intros H i Hi.
    assert (Z0 : Rabs (flat t_gt 0 - flat t_est 0) = 0) by lra.
    assert (Z1 : Rabs (flat t_gt 1 - flat t_est 1) = 0) by lra.
    assert (Z2 : Rabs (flat t_gt 2 - flat t_est 2) = 0) by lra.
    index_cases i.
    + destruct (Req_dec (flat t_gt 0 - flat t_est 0) 0) as [E|E];
        [lra | now apply Rabs_no_R0 in E].
    + destruct (Req_dec (flat t_gt 1 - flat t_est 1) 0) as [E|E];
        [lra | now apply Rabs_no_R0 in E].
    + destruct (Req_dec (flat t_gt 2 - flat t_est 2) 0) as [E|E];
        [lra | now apply Rabs_no_R0 in E].
  - intros H. rewrite (H 0%nat), (H 1%nat), (H 2%nat) by lia.
    rewrite !Rminus_diag, Rabs_R0. lra.
Qed.

Lemma te_zero_iff_equal_witness :
  exists e,
    te (mkarr [3%nat] [1; 2; 3]) (mkarr [3%nat] [1; 2; 3]) = Ok (Num e) /\
    0 <= e /\
    (e = 0 <->
     forall i, (i < 3)%nat ->
       flat (mkarr [3%nat] [1; 2; 3]) i = flat (mkarr [3%nat] [1; 2; 3]) i).
Proof.
  apply te_zero_iff_equal; reflexivity.
Defined.

(** X23.  [te] broadcasts inputs of different shapes instead of
    flattening them.  A 3-vector against a 1 x 3 row still gives the mean
    of the three per-axis differences; a 3-vector against a 3 x 1 column
    gives the mean of all nine differences [|t_gt[i] - t_est[j]|]. *)
Theorem te_broadcasts_mixed_shapes (t_est t_gt : ndarray R) :
  shape t_est = [3%nat] ->
  (shape t_gt = [1; 3]%nat ->
   te t_est t_gt =
   Ok (Num (Rsum [Rabs (flat t_gt 0 - flat t_est 0);
                  Rabs (flat t_gt 1 - flat t_est 1);
                  Rabs (flat t_gt 2 - flat t_est 2)] / 3))) /\
  (shape t_gt = [3; 1]%nat ->
   te t_est t_gt =
   Ok (Num (Rsum (map (fun ij => Rabs (flat t_gt (fst ij) - flat t_est (snd ij)))
                      (list_prod [0; 1; 2]%nat [0; 1; 2]%nat)) / 9))).
Proof.
  intros He. destruct t_est as [se de], t_gt as [sg dg].
  cbn [shape] in He. subst se. split; intros Hg; cbn [shape] in Hg; subst sg.
  - unfold te, np_sub, broadcast2, np_mean, np_map, tabulate, size, get,
      at_index, bindex, flat.
    simpl. do 3 f_equal. lra.
  - unfold te, np_sub, broadcast2, np_mean, np_map, tabulate, size, get,
      at_index, bindex, flat.
    simpl. do 3 f_equal. lra.
Qed.

Lemma te_broadcasts_mixed_shapes_witness :
  te (mkarr [3%nat] [0; 0; 3]) (mkarr [1; 3]%nat [0; 0; 3]) =
  Ok (Num (Rsum [Rabs (0 - 0); Rabs (0 - 0); Rabs (3 - 3)] / 3)) /\
  te (mkarr [3%nat] [0; 0; 3]) (mkarr [3; 1]%nat [0; 0; 3]) =
  Ok (Num (Rsum (map (fun ij =>
                        Rabs (flat (mkarr [3; 1]%nat [0; 0; 3]) (fst ij)
                              - flat (mkarr [3%nat] [0; 0; 3]) (snd ij)))
                     (list_prod [0; 1; 2]%nat [0; 1; 2]%nat)) / 9)).
Proof.
  split.
  - apply (proj1 (te_broadcasts_mixed_shapes
                    (mkarr [3%nat] [0; 0; 3]) (mkarr [1; 3]%nat [0; 0; 3])
                    eq_refl)).
    reflexivity.
  - apply (proj2 (te_broadcasts_mixed_shapes
                    (mkarr [3%nat] [0; 0; 3]) (mkarr [3; 1]%nat [0; 0; 3])
                    eq_refl)).
    reflexivity.
Defined.

(** *** More on the quaternion rotation error *)

Lemma quat_re_entry (q1 q2 : ndarray R) (N : nat) :
  shape q1 = [N; 4%nat] ->
  shape q2 = [N; 4%nat] ->
  exists out,
    quat_re q1 q2 = Ok out /\
    shape out = [N] /\
    forall i, (i < N)%nat ->
      getv out [i] =
      np_degrees (np_arccos
        (Rsum_upto 4 (fun j => get q1 [i; j] * get q2 [i; j]))).
Proof.
  intros H1 H2. unfold quat_re, np_mul.
  rewrite broadcast2_same_shape by congruence.
  cbn [bind]. unfold np_sum_axis, ndim. rewrite tabulate_shape, H1.
  cbn [length Nat.ltb Nat.leb firstn skipn app nth bind].
  eexists. split; [reflexivity|]. split; [reflexivity|].
  intros i Hi.
  rewrite getv_map_tabulate by (now apply valid1).
  cbn [firstn skipn app]. do 2 f_equal.
  apply Rsum_upto_ext. intros j Hj.
  now rewrite get_tabulate by (now apply valid2).
Qed.

Lemma np_mul_comm (q1 q2 : ndarray R) :
  shape q1 = shape q2 -> np_mul q1 q2 = np_mul q2 q1.
Proof.
  intros Hs. unfold np_mul.
  rewrite (broadcast2_same_shape Rmult q1 q2 Hs),
    (broadcast2_same_shape Rmult q2 q1 (eq_sym Hs)).
  rewrite <- Hs. unfold tabulate. do 2 f_equal.
  apply map_ext. intros k. apply Rmult_comm.
Qed.

(** X24.  On two arrays of one common shape [quat_re] does not depend on
    the order of its arguments. *)
Theorem quat_re_symmetric (q1 q2 : ndarray R) :
  shape q1 = shape q2 -> quat_re q1 q2 = quat_re q2 q1.
Proof.
  intros Hs. unfold quat_re. now rewrite (np_mul_comm q1 q2 Hs).
Qed.

Lemma quat_re_symmetric_witness :
  quat_re (mkarr [1; 4]%nat [1; 0; 0; 0]) (mkarr [1; 4]%nat [0; 1; 0; 0])
  = quat_re (mkarr [1; 4]%nat [0; 1; 0; 0]) (mkarr [1; 4]%nat [1; 0; 0; 0]).
Proof.
  apply quat_re_symmetric. reflexivity.
Defined.

Lemma degrees_half_turn : acos (-1) * (180 / PI) = 180.
Proof.
  replace (acos (-1)) with (acos (- (1))) by (f_equal; lra).
  rewrite acos_opp, acos_1. pose proof PI_RGT_0. field. lra.
Qed.

(** X25.  For a row [i] that is a unit quaternion, [quat_re] of the array
    against itself gives 0 degrees in that row, and against an array
    whose row [i] is the negated quaternion it gives 180 degrees: the two
    signs of a quaternion are treated as opposite orientations. *)
Theorem quat_re_same_and_negated (q1 q2 : ndarray R) (N i : nat) :
  shape q1 = [N; 4%nat] ->
  shape q2 = [N; 4%nat] ->
  (i < N)%nat ->
  Rsum_upto 4 (fun j => get q1 [i; j] * get q1 [i; j]) = 1 ->
  (exists out, quat_re q1 q1 = Ok out /\ getv out [i] = Num 0) /\
  ((forall j, (j < 4)%nat -> get q2 [i; j] = - get q1 [i; j]) ->
   exists out, quat_re q1 q2 = Ok out /\ getv out [i] = Num 180).
Proof.
  intros H1 H2 Hi Hu. split.
  - destruct (quat_re_entry q1 q1 N H1 H1) as [out [E [_ Hv]]].
    exists out. split; [exact E|]. rewrite (Hv i Hi), Hu.
    rewrite np_arccos_in_domain by lra.
    unfold np_degrees. now rewrite acos_1, Rmult_0_l.
  - intros Hneg.
    destruct (quat_re_entry q1 q2 N H1 H2) as [out [E [_ Hv]]].
    exists out. split; [exact E|]. rewrite (Hv i Hi).
    assert (Hd : Rsum_upto 4 (fun j => get q1 [i; j] * get q2 [i; j]) = -1).
    { unfold Rsum_upto, Rsum in *. cbn [seq map fold_right] in *.
      rewrite !Hneg by lia. lra. }
    rewrite Hd, np_arccos_in_domain by lra.
    unfold np_degrees. now rewrite degrees_half_turn.
Qed.

Lemma quat_re_same_and_negated_witness :
  let q1 := mkarr [1; 4]%nat [0; 1; 0; 0] in
  let q2 := mkarr [1; 4]%nat [0; -1; 0; 0] in
  (exists out, quat_re q1 q1 = Ok out /\ getv out [0%nat] = Num 0) /\
  (exists out, quat_re q1 q2 = Ok out /\ getv out [0%nat] = Num 180).
Proof.
  cbv zeta.
  destruct (quat_re_same_and_negated
              (mkarr [1; 4]%nat [0; 1; 0; 0])
              (mkarr [1; 4]%nat [0; -1; 0; 0]) 1 0) as [Ha Hb];
    try reflexivity; try lia.
  - unfold Rsum_upto, Rsum, get, at_index. simpl. lra.
  - split; [exact Ha|]. apply Hb.
    intros j Hj. unfold get, at_index. destruct j as [|[|[|[|j]]]]; try lia;
      simpl; lra.
Defined.

(** X26.  [quat_re] needs batches: on two 1-D arrays of one length (a
    single quaternion each) the sum over axis 1 raises AxisError, and on
    two arrays whose shapes do not broadcast the product raises
    ValueError. *)
Theorem quat_re_shape_errors (q1 q2 : ndarray R) :
  (forall k, shape q1 = [k] -> shape q2 = [k] ->
     quat_re q1 q2 = Raise AxisError) /\
  (broadcast_shapes (shape q1) (shape q2) = None ->
   quat_re q1 q2 = Raise ValueError).
Proof.
  split.
  - intros k H1 H2. unfold quat_re, np_mul.
    rewrite broadcast2_same_shape by congruence. cbn [bind].
    unfold np_sum_axis, ndim. rewrite tabulate_shape, H1. reflexivity.
  - intros H. unfold quat_re, np_mul, broadcast2. now rewrite H.
Qed.

Lemma quat_re_shape_errors_witness :
  quat_re (mkarr [4%nat] [1; 0; 0; 0]) (mkarr [4%nat] [1; 0; 0; 0])
  = Raise AxisError /\
  quat_re (mkarr [2; 4]%nat [1; 0; 0; 0; 1; 0; 0; 0])
          (mkarr [3; 4]%nat [1; 0; 0; 0; 1; 0; 0; 0; 1; 0; 0; 0])
  = Raise ValueError.
Proof.
  split.
  - apply (proj1 (quat_re_shape_errors
                    (mkarr [4%nat] [1; 0; 0; 0]) (mkarr [4%nat] [1; 0; 0; 0]))
             4%nat); reflexivity.
  - apply (proj2 (quat_re_shape_errors
                    (mkarr [2; 4]%nat [1; 0; 0; 0; 1; 0; 0; 0])
                    (mkarr [3; 4]%nat [1; 0; 0; 0; 1; 0; 0; 0; 1; 0; 0; 0]))).
    reflexivity.
Defined.

(** *** The reprojection error *)

Lemma nth_tabulate_vector {A} (d : A) (M : nat) (f : list nat -> A) (m : nat) :
  (m < M)%nat -> nth m (data (tabulate [M] f)) d = f [m].
Proof.
  intros Hm. rewrite tabulate_vector. cbn [data].
  rewrite (nth_indep _ d (f [0%nat])) by (now rewrite length_map, length_seq).
  rewrite (map_nth (fun k => f [k]) (seq 0 M) 0%nat).
  now rewrite seq_nth by exact Hm.
Qed.

Lemma at_index_vector {A} (d : A) (M : nat) (l : list A) (m : nat) :
  at_index d [M] l [m] = nth m l d.
Proof.
  unfold at_index. f_equal. cbn [ravel prod fold_right]. lia.
Qed.

(** The homogeneous pixels [(K @ pts_t.T).T] of a transformed point set. *)
Lemma pixels_value (K pts_t : ndarray R) (M : nat) :
  shape K = [3%nat; 3%nat] ->
  shape pts_t = [M; 3%nat] ->
  exists mm,
    np_matmul K (np_T pts_t) = Ok mm /\
    shape mm = [3%nat; M] /\
    forall m c, (m < M)%nat -> (c < 3)%nat ->
      get (np_T mm) [m; c] =
      Rsum_upto 3 (fun k => get K [c; k] * get pts_t [m; k]).
Proof.
  intros HK Hp.
  destruct (matmul_single pts_t K M Hp HK) as [mm [E [Hs Hv]]].
  exists mm. split; [exact E|]. split; [exact Hs|].
  intros m c Hm Hc. unfold np_T. rewrite Hs. cbn [rev app].
  rewrite get_tabulate by (now apply valid2). cbn [rev app].
  now apply Hv.
Qed.

(** [reproj] on well-shaped inputs: it raises nothing and averages the
    per-point values. *)
Lemma reproj_value (K R_est t_est R_gt t_gt pts : ndarray R) (M : nat) :
  shape K = [3%nat; 3%nat] ->
  shape pts = [M; 3%nat] ->
  shape R_est = [3%nat; 3%nat] -> size t_est = 3%nat ->
  shape R_gt = [3%nat; 3%nat] -> size t_gt = 3%nat ->
  reproj K R_est t_est R_gt t_gt pts =
  Ok (if (M =? 0)%nat then NonFinite
      else elift2 Rdiv
             (esum (map (reproj_point K R_est t_est R_gt t_gt pts) (seq 0 M)))
             (Finite (INR M))).
Proof.
  intros HK Hp HRe Hte HRg Htg.
  destruct (transform_value pts R_est t_est M Hp HRe Hte)
    as [est [Eest [Sest Vest]]].
  destruct (transform_value pts R_gt t_gt M Hp HRg Htg)
    as [gt [Egt [Sgt Vgt]]].
  destruct (pixels_value K est M HK Sest) as [me [Eme [Sme Vme]]].
  destruct (pixels_value K gt M HK Sgt) as [mg [Emg [Smg Vmg]]].
  assert (Spe : shape (np_T me) = [M; 3%nat])
    by (unfold np_T; rewrite tabulate_shape, Sme; reflexivity).
  assert (Spg : shape (np_T mg) = [M; 3%nat])
    by (unfold np_T; rewrite tabulate_shape, Smg; reflexivity).
  unfold reproj. rewrite Eest, Egt. cbn [bind]. rewrite Eme, Emg. cbn [bind].
  unfold shape_at. rewrite Hp. cbn [nth_error bind].
  set (pe := np_T me) in *. set (pg := np_T mg) in *.
  unfold np_take_axis1. rewrite Spe, Spg. cbn [Nat.ltb Nat.leb bind].
  unfold np_divide, np_esub, broadcast2_with, np_set_column, np_zeros,
    fits_vector, np_norm_axis1.
  repeat first
    [ progress cbn [bind Nat.ltb Nat.leb last orb andb rev app forallb]
    | rewrite tabulate_shape
    | rewrite broadcast_shapes_same
    | rewrite (Nat.eqb_refl M) ].
  unfold np_emean, size. rewrite tabulate_shape. cbn [prod fold_right].
  rewrite Nat.mul_1_r. f_equal.
  destruct (M =? 0)%nat; [reflexivity|]. f_equal.
  rewrite tabulate_vector. cbn [data]. f_equal.
  apply map_ext_in. intros m Hm. apply in_seq in Hm.
  assert (Hm' : (m < M)%nat) by lia.
  assert (Hsel : (if (M =? 1)%nat then 0%nat else m) = m)
    by (destruct (Nat.eqb_spec M 1); lia).
  cbn [hd tl seq map].
  repeat first
    [ rewrite (at_index_tabulate NonFinite [M; 2%nat] _ [m; 0%nat])
        by (apply valid2; lia)
    | rewrite (at_index_tabulate NonFinite [M; 2%nat] _ [m; 1%nat])
        by (apply valid2; lia)
    | rewrite (bindex_valid [m; 0%nat] [M; 2%nat]) by (apply valid2; lia)
    | rewrite (bindex_valid [m; 1%nat] [M; 2%nat]) by (apply valid2; lia)
    | rewrite (bindex_valid [m] [M]) by (now apply valid1)
    | rewrite (at_index_tabulate 0 [M] _ [m]) by (now apply valid1)
    | rewrite Hsel
    | rewrite nth_tabulate_vector by exact Hm'
    | progress cbn [nth Nat.eqb hd tl]
    | progress unfold getx
    | rewrite tabulate_shape ].
  fold (get pe [m; 0%nat]) (get pe [m; 1%nat]) (get pe [m; 2%nat]).
  unfold reproj_point, projected.
  assert (Pe : forall c, (c < 3)%nat ->
             get pe [m; c] =
             Rsum_upto 3 (fun k => get K [c; k] * posed R_est t_est pts m k)).
  { intros c Hc. unfold pe. rewrite Vme by assumption.
    apply Rsum_upto_ext. intros k Hk. now rewrite Vest. }
  assert (Pg : forall c, (c < 3)%nat ->
             get pg [m; c] =
             Rsum_upto 3 (fun k => get K [c; k] * posed R_gt t_gt pts m k)).
  { intros c Hc. unfold pg. rewrite Vmg by assumption.
    apply Rsum_upto_ext. intros k Hk. now rewrite Vgt. }
  rewrite !Pe, !Pg by lia. reflexivity.
Qed.

Lemma esum_finite (M : nat) (f : nat -> efloat) (g : nat -> R) :
  (forall m, (m < M)%nat -> f m = Finite (g m)) ->
  esum (map f (seq 0 M)) = Finite (Rsum_upto M g).
Proof.
  intros H. unfold Rsum_upto, esum.
  assert (Hs : forall m, In m (seq 0 M) -> f m = Finite (g m)).
  { intros m Hm. apply in_seq in Hm. apply H. lia. }
  induction (seq 0 M) as [|j l IH]; [reflexivity|].
  cbn [map fold_right Rsum]. rewrite IH.
  - rewrite (Hs j) by now left. reflexivity.
  - intros m Hm. apply Hs. now right.
Qed.

Lemma esum_not_finite (l : list efloat) :
  In NonFinite l -> esum l = NonFinite.
Proof.
  unfold esum. induction l as [|x l IH]; [intros []|].
  intros [->|Hin]; cbn [fold_right]; [reflexivity|].
  rewrite (IH Hin). now destruct x.
Qed.

Lemma ediv_nonzero (a b : R) : b <> 0 -> ediv a b = Finite (a / b).
Proof. intros Hb. unfold ediv. now destruct (Req_dec_T b 0). Qed.

Lemma ediv_zero (a b : R) : b = 0 -> ediv a b = NonFinite.
Proof. intros Hb. unfold ediv. now destruct (Req_dec_T b 0). Qed.

Lemma reproj_point_finite (K R_est t_est R_gt t_gt pts : ndarray R) (m : nat) :
  projected K R_est t_est pts m 2 <> 0 ->
  projected K R_gt t_gt pts m 2 <> 0 ->
  reproj_point K R_est t_est R_gt t_gt pts m =
  Finite (pixel_distance K R_est t_est R_gt t_gt pts m).
Proof.
  intros He Hg. unfold reproj_point, pixel_distance. cbv zeta.
  rewrite !ediv_nonzero by assumption.
  unfold esum, esub, emul, eadd, esqrt, elift2. cbn [fold_right].
  match goal with
  | |- context [Rlt_dec ?x 0] => destruct (Rlt_dec x 0) as [Hneg|_]
  end.
  - exfalso.
    match type of Hneg with
    | ?a * ?a + (?b * ?b + 0) < 0 =>
        pose proof (Rle_0_sqr a); pose proof (Rle_0_sqr b)
    end.
    unfold Rsqr in *. lra.
  - f_equal. f_equal. ring.
Qed.

Lemma reproj_point_not_finite
  (K R_est t_est R_gt t_gt pts : ndarray R) (m : nat) :
  projected K R_est t_est pts m 2 = 0 \/ projected K R_gt t_gt pts m 2 = 0 ->
  reproj_point K R_est t_est R_gt t_gt pts m = NonFinite.
Proof.
  intros H. unfold reproj_point. cbv zeta.
  destruct H as [H|H]; rewrite !(ediv_zero _ _ H).
  - reflexivity.
  - destruct (ediv _ _), (ediv _ _); reflexivity.
Qed.

Lemma pixel_distance_nonneg (K R_est t_est R_gt t_gt pts : ndarray R) m :
  0 <= pixel_distance K R_est t_est R_gt t_gt pts m.
Proof. apply sqrt_pos. Qed.

Lemma reproj_point_symmetric (K R1 t1 R2 t2 pts : ndarray R) (m : nat) :
  reproj_point K R1 t1 R2 t2 pts m = reproj_point K R2 t2 R1 t1 pts m.
Proof.
  unfold reproj_point. cbv zeta.
  destruct (ediv (projected K R1 t1 pts m 0) _),
           (ediv (projected K R1 t1 pts m 1) _),
           (ediv (projected K R2 t2 pts m 0) _),
           (ediv (projected K R2 t2 pts m 1) _);
    unfold esum, esub, emul, eadd, esqrt, elift2; cbn [fold_right];
    try reflexivity.
  match goal with
  | |- (if Rlt_dec ?x 0 then _ else _) = (if Rlt_dec ?y 0 then _ else _) =>
      replace y with x by ring
  end.
  reflexivity.
Qed.

(** Either every point has a non-zero depth in both poses, or some point
    has a zero depth in one of them. *)
Lemma depths_cases (d1 d2 : nat -> R) (M : nat) :
  (forall m, (m < M)%nat -> d1 m <> 0 /\ d2 m <> 0) \/
  (exists m, (m < M)%nat /\ (d1 m = 0 \/ d2 m = 0)).
Proof.
  induction M as [|M [IH|[m [Hm Hz]]]].
  - left. intros m Hm. lia.
  - destruct (Req_dec_T (d1 M) 0) as [Z1|N1];
      [right; exists M; split; [lia|now left]|].
    destruct (Req_dec_T (d2 M) 0) as [Z2|N2];
      [right; exists M; split; [lia|now right]|].
    left. intros m Hm. destruct (Nat.eq_dec m M) as [->|Hne].
    + now split.
    + apply IH. lia.
  - right. exists m. split; [lia|exact Hz].
Qed.

Lemma reproj_finite_value
  (K R_est t_est R_gt t_gt pts : ndarray R) (M : nat) :
  shape K = [3%nat; 3%nat] -> shape pts = [M; 3%nat] -> (0 < M)%nat ->
  shape R_est = [3%nat; 3%nat] -> size t_est = 3%nat ->
  shape R_gt = [3%nat; 3%nat] -> size t_gt = 3%nat ->
  (forall m, (m < M)%nat -> projected K R_est t_est pts m 2 <> 0) ->
  (forall m, (m < M)%nat -> projected K R_gt t_gt pts m 2 <> 0) ->
  reproj K R_est t_est R_gt t_gt pts =
  Ok (Finite (Rsum_upto M (pixel_distance K R_est t_est R_gt t_gt pts)
              / INR M)).
Proof.
  intros HK Hp HM HRe Hte HRg Htg De Dg.
  rewrite (reproj_value K R_est t_est R_gt t_gt pts M) by assumption.
  replace (M =? 0)%nat with false by (symmetry; apply Nat.eqb_neq; lia).
  rewrite (esum_finite M _ (pixel_distance K R_est t_est R_gt t_gt pts)).
  - reflexivity.
  - intros m Hm. apply reproj_point_finite; [now apply De|now apply Dg].
Qed.

(** X27.  With at least one point and every point at a non-zero depth in
    both poses, [reproj] is the mean over the points of the pixel distance
    between the two projections, which is not negative. *)
Theorem reproj_mean_pixel_distance
  (K R_est t_est R_gt t_gt pts : ndarray R) (M : nat) :
  shape K = [3%nat; 3%nat] -> shape pts = [M; 3%nat] -> (0 < M)%nat ->
  shape R_est = [3%nat; 3%nat] -> size t_est = 3%nat ->
  shape R_gt = [3%nat; 3%nat] -> size t_gt = 3%nat ->
  (forall m, (m < M)%nat -> projected K R_est t_est pts m 2 <> 0) ->
  (forall m, (m < M)%nat -> projected K R_gt t_gt pts m 2 <> 0) ->
  reproj K R_est t_est R_gt t_gt pts =
  Ok (Finite (Rsum_upto M (pixel_distance K R_est t_est R_gt t_gt pts)
              / INR M)) /\
  0 <= Rsum_upto M (pixel_distance K R_est t_est R_gt t_gt pts) / INR M.
Proof.
  intros HK Hp HM HRe Hte HRg Htg De Dg. split.
  - now apply reproj_finite_value.
  - unfold Rdiv. apply Rmult_le_pos.
    + apply Rsum_upto_nonneg. intros m _. apply pixel_distance_nonneg.
    + left. apply Rinv_0_lt_compat. apply lt_0_INR. exact HM.
Qed.

Lemma reproj_mean_pixel_distance_witness :
  let K := mkarr [3; 3]%nat [2; 0; 1; 0; 2; 1; 0; 0; 1] in
  let R_est := mkarr [3; 3]%nat quarter_turn_z in
  let t_est := mkarr [3%nat] [0; 0; 1] in
  let R_gt := mkarr [3; 3]%nat identity3 in
  let t_gt := mkarr [3%nat] zero3 in
  let pts := mkarr [2; 3]%nat [1; 2; 3; 4; 5; 6] in
  reproj K R_est t_est R_gt t_gt pts =
  Ok (Finite (Rsum_upto 2 (pixel_distance K R_est t_est R_gt t_gt pts)
              / INR 2)) /\
  0 <= Rsum_upto 2 (pixel_distance K R_est t_est R_gt t_gt pts) / INR 2.
Proof.
  cbv zeta.
  apply (reproj_mean_pixel_distance
           (mkarr [3; 3]%nat [2; 0; 1; 0; 2; 1; 0; 0; 1])
           (mkarr [3; 3]%nat quarter_turn_z) (mkarr [3%nat] [0; 0; 1])
           (mkarr [3; 3]%nat identity3) (mkarr [3%nat] zero3)
           (mkarr [2; 3]%nat [1; 2; 3; 4; 5; 6]) 2);
    try reflexivity; try lia.
  - intros m Hm. destruct m as [|[|m]]; [| |lia];
      cbv [projected posed Rsum_upto Rsum get flat at_index ravel shape data
           map seq fold_right nth quarter_turn_z prod Nat.mul Nat.add]; lra.
  - intros m Hm. destruct m as [|[|m]]; [| |lia];
      cbv [projected posed Rsum_upto Rsum get flat at_index ravel shape data
           map seq fold_right nth identity3 zero3 prod Nat.mul Nat.add]; lra.
Defined.

(** X28.  On well-shaped inputs [reproj] does not depend on which of the
    two poses is called the estimate: swapping them gives the same
    result. *)
Theorem reproj_symmetric
  (K R_est t_est R_gt t_gt pts : ndarray R) (M : nat) :
  shape K = [3%nat; 3%nat] -> shape pts = [M; 3%nat] ->
  shape R_est = [3%nat; 3%nat] -> size t_est = 3%nat ->
  shape R_gt = [3%nat; 3%nat] -> size t_gt = 3%nat ->
  reproj K R_est t_est R_gt t_gt pts = reproj K R_gt t_gt R_est t_est pts.
Proof.
  intros HK Hp HRe Hte HRg Htg.
  rewrite (reproj_value K R_est t_est R_gt t_gt pts M) by assumption.
  rewrite (reproj_value K R_gt t_gt R_est t_est pts M) by assumption.
  f_equal. destruct (M =? 0)%nat; [reflexivity|]. do 2 f_equal.
  apply map_ext. intros m. apply reproj_point_symmetric.
Qed.

Lemma reproj_symmetric_witness :
  let K := mkarr [3; 3]%nat [2; 0; 1; 0; 2; 1; 0; 0; 1] in
  let R_est := mkarr [3; 3]%nat quarter_turn_z in
  let t_est := mkarr [3%nat] [0; 0; 1] in
  let R_gt := mkarr [3; 3]%nat identity3 in
  let t_gt := mkarr [3%nat] zero3 in
  let pts := mkarr [2; 3]%nat [1; 2; 3; 4; 5; 6] in
  reproj K R_est t_est R_gt t_gt pts = reproj K R_gt t_gt R_est t_est pts.
Proof.
  cbv zeta.
  apply (reproj_symmetric
           (mkarr [3; 3]%nat [2; 0; 1; 0; 2; 1; 0; 0; 1])
           (mkarr [3; 3]%nat quarter_turn_z) (mkarr [3%nat] [0; 0; 1])
           (mkarr [3; 3]%nat identity3) (mkarr [3%nat] zero3)
           (mkarr [2; 3]%nat [1; 2; 3; 4; 5; 6]) 2);
    reflexivity.
Defined.

(** X29.  On well-shaped inputs [reproj] never raises, and its result is
    not a finite number exactly when the point set is empty or some point
    has depth zero (third homogeneous pixel coordinate) in one of the two
    poses. *)
Theorem reproj_not_finite_iff
  (K R_est t_est R_gt t_gt pts : ndarray R) (M : nat) :
  shape K = [3%nat; 3%nat] -> shape pts = [M; 3%nat] ->
  shape R_est = [3%nat; 3%nat] -> size t_est = 3%nat ->
  shape R_gt = [3%nat; 3%nat] -> size t_gt = 3%nat ->
  (exists e, reproj K R_est t_est R_gt t_gt pts = Ok e) /\
  (reproj K R_est t_est R_gt t_gt pts = Ok NonFinite <->
   M = 0%nat \/
   exists m, (m < M)%nat /\
     (projected K R_est t_est pts m 2 = 0 \/
      projected K R_gt t_gt pts m 2 = 0)).
Proof.
  intros HK Hp HRe Hte HRg Htg.
  pose proof (reproj_value K R_est t_est R_gt t_gt pts M HK Hp HRe Hte HRg Htg)
    as E.
  split; [eexists; exact E|].
  split.
  - intros HN. destruct M as [|M']; [now left|right].
    destruct (depths_cases (fun m => projected K R_est t_est pts m 2)
                (fun m => projected K R_gt t_gt pts m 2) (S M'))
      as [Hall|Hex]; [exfalso|exact Hex].
    rewrite (reproj_finite_value K R_est t_est R_gt t_gt pts (S M')) in HN;
      try assumption; try lia.
    + discriminate HN.
    + intros m Hm. now apply Hall.
    + intros m Hm. now apply Hall.
  - intros [->|[m [Hm Hz]]]; rewrite E; [reflexivity|].
    replace (M =? 0)%nat with false by (symmetry; apply Nat.eqb_neq; lia).
    rewrite esum_not_finite; [reflexivity|].
    apply in_map_iff. exists m. split.
    + now apply reproj_point_not_finite.
    + apply in_seq. lia.
Qed.

Lemma reproj_not_finite_iff_witness :
  let K := mkarr [3; 3]%nat [2; 0; 1; 0; 2; 1; 0; 0; 1] in
  let R_est := mkarr [3; 3]%nat quarter_turn_z in
  let t_est := mkarr [3%nat] [0; 0; -3] in
  let R_gt := mkarr [3; 3]%nat identity3 in
  let t_gt := mkarr [3%nat] zero3 in
  let pts := mkarr [2; 3]%nat [1; 2; 3; 4; 5; 6] in
  (exists e, reproj K R_est t_est R_gt t_gt pts = Ok e) /\
  (reproj K R_est t_est R_gt t_gt pts = Ok NonFinite <->
   2%nat = 0%nat \/
   exists m, (m < 2)%nat /\
     (projected K R_est t_est pts m 2 = 0 \/
      projected K R_gt t_gt pts m 2 = 0)).
Proof.
  cbv zeta.
  apply (reproj_not_finite_iff
           (mkarr [3; 3]%nat [2; 0; 1; 0; 2; 1; 0; 0; 1])
           (mkarr [3; 3]%nat quarter_turn_z) (mkarr [3%nat] [0; 0; -3])
           (mkarr [3; 3]%nat identity3) (mkarr [3%nat] zero3)
           (mkarr [2; 3]%nat [1; 2; 3; 4; 5; 6]) 2);
    reflexivity.
Defined.

(** X30.  When the estimate is the ground-truth pose, [reproj] is 0
    (at least one point, every point at a non-zero depth). *)
Theorem reproj_zero_at_ground_truth (K Rot t pts : ndarray R) (M : nat) :
  shape K = [3%nat; 3%nat] -> shape pts = [M; 3%nat] -> (0 < M)%nat ->
  shape Rot = [3%nat; 3%nat] -> size t = 3%nat ->
  (forall m, (m < M)%nat -> projected K Rot t pts m 2 <> 0) ->
  reproj K Rot t Rot t pts = Ok (Finite 0).
Proof.
  intros HK Hp HM HR Ht Hd.
  rewrite (reproj_finite_value K Rot t Rot t pts M) by assumption.
  do 2 f_equal.
  rewrite (Rsum_upto_ext M _ (fun _ => 0)).
  - rewrite Rsum_upto_const. field. apply not_0_INR. lia.
  - intros m Hm. unfold pixel_distance. rewrite <- sqrt_0. f_equal. ring.
Qed.

Lemma reproj_zero_at_ground_truth_witness :
  let K := mkarr [3; 3]%nat [2; 0; 1; 0; 2; 1; 0; 0; 1] in
  let Rot := mkarr [3; 3]%nat quarter_turn_z in
  let t := mkarr [3%nat] [0; 0; 1] in
  let pts := mkarr [2; 3]%nat [1; 2; 3; 4; 5; 6] in
  reproj K Rot t Rot t pts = Ok (Finite 0).
Proof.
  cbv zeta.
  apply (reproj_zero_at_ground_truth
           (mkarr [3; 3]%nat [2; 0; 1; 0; 2; 1; 0; 0; 1])
           (mkarr [3; 3]%nat quarter_turn_z) (mkarr [3%nat] [0; 0; 1])
           (mkarr [2; 3]%nat [1; 2; 3; 4; 5; 6]) 2);
    try reflexivity; try lia.
  intros m Hm. destruct m as [|[|m]]; [| |lia];
    cbv [projected posed Rsum_upto Rsum get flat at_index ravel shape data
         map seq fold_right nth quarter_turn_z prod Nat.mul Nat.add]; lra.
Defined.

End PoseFacts.
